(** * HippoRAG memory core: embedding store, activation engine, conflict resolver

    A shallow embedding of
      - [src/hipporag/embedding_store.py]      (class [EmbeddingStore]),
      - [src/hipporag/context_aware_memory.py] (class [ContextAwareMemoryManager]),
      - [src/hipporag/conflict_resolution.py]  (class [ConflictResolver]),
    followed by the properties established about them.

    Conventions of the embedding.
      - Python [float]s and numpy arrays are idealised as real numbers and
        lists of real numbers: rounding is not modelled. Where a bound
        holds of the real numbers only, the statements below do not claim
        it of the code; module [Binary64] gives the cosine similarity in the
        arithmetic of the code, to show rounding at work.
      - A [datetime] is the real number of seconds it denotes; the clock
        ([datetime.now()]) is an explicit argument of whatever reads it.
      - Python exceptions are the [Raise] results of an error monad; code that
        mutates an object before raising leaves the mutation in the state.
      - Dictionaries whose iteration order is observed are insertion-ordered
        association lists; the others are [gmap]s.
      - Text is text of code points below 256: a [string] holds one
        character per code point (ASCII and the Latin-1 supplement), and
        [str.lower] and [str.strip] are Python's on that range. Text with
        other code points is not modelled. *)

From Stdlib Require Import Ascii String Reals Lra Sorted.
From Stdlib Require PrimFloat.
From stdpp Require Import gmap strings list fin_maps pretty.

(* ===================================================================== *)
(** * Part I: the embedding                                                *)
(* ===================================================================== *)

(** ** Python values, exceptions and containers *)

Module Py.

  (** The exceptions the modelled code can raise. *)
Inductive exn : Type :=
  | KeyError
  | IndexError
  | ValueError
  | ZeroDivisionError
  | NameError.

  (** The outcome of a call: a value or a raised exception. *)
Inductive result (A : Type) : Type :=
  | Ok (a : A)
  | Raise (e : exn).

  Global Arguments Ok {A} a.
  Global Arguments Raise {A} e.

Definition rbind {A B} (c : result A) (k : A -> result B) : result B :=
  match c with
  | Ok a => k a
  | Raise e => Raise e
  end.

Fixpoint rmapM {A B} (f : A -> result B) (l : list A) : result (list B) :=
  match l with
  | [] => Ok []
  | a :: l' =>
      rbind (f a) (fun b => rbind (rmapM f l') (fun bs => Ok (b :: bs)))
  end.

  (** A method of an object of state [S]: it may mutate the object and then
      return or raise; what it mutated before raising stays mutated. *)
Definition M (S A : Type) : Type := S -> S * result A.

Definition ret {S A} (a : A) : M S A := fun s => (s, Ok a).
Definition raise {S A} (e : exn) : M S A := fun s => (s, Raise e).
Definition get {S} : M S S := fun s => (s, Ok s).
Definition put {S} (s' : S) : M S unit := fun _ => (s', Ok tt).
Definition lift {S A} (r : result A) : M S A := fun s => (s, r).

Definition bind {S A B} (c : M S A) (k : A -> M S B) : M S B :=
  fun s =>
    match c s with
    | (s', Ok a) => k a s'
    | (s', Raise e) => (s', Raise e)
    end.

  (** [for x in l: body x]. *)
Fixpoint for_each {S A} (l : list A) (body : A -> M S unit) : M S unit :=
  match l with
  | [] => ret tt
  | a :: l' => bind (body a) (fun _ => for_each l' body)
  end.

  (** [d[k]] on a dictionary without insertion order. *)
Definition getitem {V} (d : gmap string V) (k : string) : result V :=
  match d !! k with
  | Some v => Ok v
  | None => Raise KeyError
  end.

  (** [l[i]] for a non-negative index. *)
Definition index {A} (l : list A) (i : nat) : result A :=
  match l !! i with
  | Some a => Ok a
  | None => Raise IndexError
  end.

  (** [l[i]] for any integer index: a negative one counts from the end. *)
Definition zindex {A} (l : list A) (i : Z) : result A :=
  if decide (0 <= i)%Z then index l (Z.to_nat i)
  else if decide (0 <= Z.of_nat (length l) + i)%Z
       then index l (Z.to_nat (Z.of_nat (length l) + i))
       else Raise IndexError.

  (** [l[-1]]. *)
Definition last_item {A} (l : list A) : result A :=
  match last l with
  | Some a => Ok a
  | None => Raise IndexError
  end.

  (** [l.pop(i)] for a non-negative index: the list without position [i]. *)
Definition pop {A} (l : list A) (i : nat) : result (list A) :=
  if decide (i < length l) then Ok (delete i l) else Raise IndexError.

  (** Insertion-ordered dictionaries ([dict] since Python 3.7), for the
      places where the order of [keys()] and [items()] is observed. *)
Abbreviation odict V := (list (string * V)).

  (** [d[k] = v]: an existing key keeps its position. *)
Fixpoint oset {V} (k : string) (v : V) (d : odict V) : odict V :=
  match d with
  | [] => [(k, v)]
  | (k', v') :: d' =>
      if decide (k = k') then (k', v) :: d' else (k', v') :: oset k v d'
  end.

Fixpoint oget {V} (d : odict V) (k : string) : option V :=
  match d with
  | [] => None
  | (k', v') :: d' => if decide (k = k') then Some v' else oget d' k
  end.

  (** [d[k]] on an ordered dictionary. *)
Definition ogetitem {V} (d : odict V) (k : string) : result V :=
  match oget d k with
  | Some v => Ok v
  | None => Raise KeyError
  end.

Definition okeys {V} (d : odict V) : list string := d.*1.

  (** [enumerate(l)]. *)
Definition enumerate {A} (l : list A) : list (nat * A) :=
  imap (fun i a => (i, a)) l.

End Py.

Import Py.

Declare Scope py_scope.
Delimit Scope py_scope with py.
Notation "'let*' x ':=' c 'in' k" := (rbind c (fun x => k))
  (at level 10, x name, c at level 100, k at level 200) : py_scope.
Notation "'let!' x ':=' c 'in' k" := (bind c (fun x => k))
  (at level 10, x name, c at level 100, k at level 200) : py_scope.
Notation "c ';;!' k" := (bind c (fun _ => k))
  (at level 100, k at level 200, right associativity) : py_scope.
Open Scope py_scope.

(** ** numpy on one-dimensional arrays *)

Module Np.

Abbreviation ndarray := (list R).

  (** The sum of the products of corresponding entries. *)
Fixpoint dot_sum (u v : ndarray) : R :=
  match u, v with
  | x :: u', y :: v' => (x * y + dot_sum u' v')%R
  | _, _ => 0%R
  end.

  (** [np.dot(u, v)]: arrays of different lengths do not multiply. *)
Definition dot (u v : ndarray) : result R :=
  if decide (length u = length v) then Ok (dot_sum u v) else Raise ValueError.

  (** [np.linalg.norm(v)]. *)
Definition norm (v : ndarray) : R := sqrt (dot_sum v v).

  (** [v.astype(dtype)] for a floating-point [dtype]: the array in another
      floating-point format. The entries are rounded to that format, and
      rounding is not modelled: on the real numbers the entries are read
      as, nothing changes. No statement below relies on what the cast does
      to an entry, except for the entries [0] and [1] of the sample store,
      which every floating-point format holds exactly. *)
Definition astype (v : ndarray) : ndarray := v.

  (** Insertion into an ascending list, and [np.sort] on indices. *)
Fixpoint insert_sorted (n : nat) (l : list nat) : list nat :=
  match l with
  | [] => [n]
  | m :: l' => if decide (n <= m) then n :: l else m :: insert_sorted n l'
  end.

Definition sort (l : list nat) : list nat := foldr insert_sorted [] l.

End Np.

(** ** numpy's [float64] arithmetic

    The arithmetic of the code is IEEE 754 binary64, that of Rocq's
    primitive floats. The sum of a dot product is taken in the order of the
    entries here; numpy leaves the order to its BLAS, and the sums used
    below are exact in every order. *)

Module Binary64.

Fixpoint dot_sum (u v : list PrimFloat.float) : PrimFloat.float :=
  match u, v with
  | x :: u', y :: v' => PrimFloat.add (PrimFloat.mul x y) (dot_sum u' v')
  | _, _ => PrimFloat.zero
  end.

Definition dot (u v : list PrimFloat.float) : result PrimFloat.float :=
  if decide (length u = length v) then Ok (dot_sum u v) else Raise ValueError.

  (** [np.linalg.norm(v)]: the square root of [v.dot(v)]. *)
Definition norm (v : list PrimFloat.float) : PrimFloat.float :=
  PrimFloat.sqrt (dot_sum v v).

  (** [_cosine_similarity] of [context_aware_memory.py]. *)
Definition _cosine_similarity (vec1 vec2 : list PrimFloat.float)
    : result PrimFloat.float :=
  let norm1 := norm vec1 in
  let norm2 := norm vec2 in
  if PrimFloat.eqb norm1 PrimFloat.zero || PrimFloat.eqb norm2 PrimFloat.zero
  then Ok PrimFloat.zero
  else
    let* d := dot vec1 vec2 in
    Ok (PrimFloat.div d (PrimFloat.mul norm1 norm2)).

End Binary64.

(** Comparisons of floats, as booleans. *)
Definition Rleb (x y : R) : bool := if Rle_dec x y then true else false.
Definition Reqb (x y : R) : bool := if Req_dec_T x y then true else false.

(** [int(x)]: truncation towards zero. *)
Definition py_int (x : R) : Z :=
  if Rle_dec 0 x then Zfloor x else Zceil x.

(** ** [embedding_store.py] *)

(** [compute_mdhash_id(content, prefix)] of [utils/misc_utils.py]: the
    identifier of a text, a function of the text and the prefix. *)
Class MdHash := compute_mdhash_id : string -> string -> string.

(** The embedding model handed to the store: [batch_encode(texts)] returns
    rows of embeddings; the store's code does not fix how many. *)
Class EmbeddingModel := batch_encode : list string -> list Np.ndarray.

(** One entry of a record's access log (the [event] dictionary of
    [record_access]); ['computed_similarity'] is a key that may be absent. *)
Record AccessEvent : Type := mkAccessEvent {
  timestamp : R;
  query : option string;
  ranking_position : Z;
  similarity_score : option R;
  computed_similarity : option R
}.

(** [{"hash_id": h, "content": t}]. *)
Record Row : Type := mkRow {
  row_hash_id : string;
  row_content : string
}.

(** The attributes of an [EmbeddingStore] that the operations below read or
    write. The dictionaries [hash_id_to_text] and [text_to_hash_id], which
    only [get_hash_id] reads, and the two file names are left out; what is
    written to the files is the state itself. *)
Record EmbeddingStore : Type := mkStore {
  namespace : string;
  hash_ids : list string;
  texts : list string;
  embeddings : list Np.ndarray;
  hash_id_to_idx : gmap string nat;
  hash_id_to_row : gmap string Row;
  access_history : gmap string (list AccessEvent)
}.

Module Store.

Definition set_hash_ids (v : list string) (s : EmbeddingStore) :=
  mkStore s.(namespace) v s.(texts) s.(embeddings)
          s.(hash_id_to_idx) s.(hash_id_to_row) s.(access_history).
Definition set_texts (v : list string) (s : EmbeddingStore) :=
  mkStore s.(namespace) s.(hash_ids) v s.(embeddings)
          s.(hash_id_to_idx) s.(hash_id_to_row) s.(access_history).
Definition set_embeddings (v : list Np.ndarray) (s : EmbeddingStore) :=
  mkStore s.(namespace) s.(hash_ids) s.(texts) v
          s.(hash_id_to_idx) s.(hash_id_to_row) s.(access_history).
Definition set_hash_id_to_idx (v : gmap string nat) (s : EmbeddingStore) :=
  mkStore s.(namespace) s.(hash_ids) s.(texts) s.(embeddings)
          v s.(hash_id_to_row) s.(access_history).
Definition set_hash_id_to_row (v : gmap string Row) (s : EmbeddingStore) :=
  mkStore s.(namespace) s.(hash_ids) s.(texts) s.(embeddings)
          s.(hash_id_to_idx) v s.(access_history).
Definition set_access_history (v : gmap string (list AccessEvent))
    (s : EmbeddingStore) :=
  mkStore s.(namespace) s.(hash_ids) s.(texts) s.(embeddings)
          s.(hash_id_to_idx) s.(hash_id_to_row) v.

  (** [__init__] followed by [_load_data] when neither file exists. *)
Definition new (ns : string) : EmbeddingStore :=
  mkStore ns [] [] [] ∅ ∅ ∅.

  (** [{h: {"hash_id": h, "content": t} for h, t, e in zip(hash_ids, texts,
      embeddings)}]: a later pair overwrites an earlier one of the same key. *)
Definition build_hash_id_to_row (hs ts : list string) (es : list Np.ndarray)
    : gmap string Row :=
  foldl (fun m hte => <[hte.1 := mkRow hte.1 hte.2.1]> m) ∅ (zip hs (zip ts es)).

  (** [{h: idx for idx, h in enumerate(hash_ids)}]. *)
Definition build_hash_id_to_idx (hs : list string) : gmap string nat :=
  foldl (fun m ih => <[ih.2 := ih.1]> m) ∅ (enumerate hs).

  (** [_save_data]: building the [DataFrame] raises when the three columns
      differ in length; then the two files are written (a failure to write
      the access log is caught and logged) and the derived dictionaries are
      rebuilt from the sequences. *)
Definition _save_data : M EmbeddingStore unit :=
  let! s := get in
  if decide (length s.(hash_ids) = length s.(texts) /\
             length s.(texts) = length s.(embeddings))
  then
    put (set_hash_id_to_idx (build_hash_id_to_idx s.(hash_ids))
          (set_hash_id_to_row
             (build_hash_id_to_row s.(hash_ids) s.(texts) s.(embeddings)) s))
  else raise ValueError.

  (** [_upsert]. *)
Definition _upsert (hs ts : list string) (es : list Np.ndarray)
    : M EmbeddingStore unit :=
  let! s := get in
  put (set_embeddings (s.(embeddings) ++ es) s) ;;!
  let! s := get in
  put (set_hash_ids (s.(hash_ids) ++ hs) s) ;;!
  let! s := get in
  put (set_texts (s.(texts) ++ ts) s) ;;!
  _save_data.

  (** What [insert_strings] reports: the two counts it logs, and the texts
      it handed to the embedding model ([[]] when the model was not called). *)
Record InsertReport : Type := mkInsertReport {
  inserted : nat;
  already_present : nat;
  encoded : list string
}.

Section WithModel.
  Context {hasher : MdHash} {model : EmbeddingModel}.

  (** The [nodes_dict] loop shared by [insert_strings] and
      [get_missing_string_hash_ids]. *)
Definition nodes_dict_of (ns : string) (txts : list string) : odict string :=
  foldl (fun d text => oset (compute_mdhash_id text (ns ++ "-")) text d) [] txts.

Definition insert_strings (txts : list string) : M EmbeddingStore InsertReport :=
  let! s := get in
  let nodes_dict := nodes_dict_of s.(namespace) txts in
  let all_hash_ids := okeys nodes_dict in
  if decide (all_hash_ids = []) then ret (mkInsertReport 0 0 [])
  else
    let missing_ids :=
      filter (fun h => s.(hash_id_to_row) !! h = None) all_hash_ids in
    let report := mkInsertReport (length missing_ids)
                    (length all_hash_ids - length missing_ids) in
    if decide (missing_ids = []) then ret (report [])
    else
      let! texts_to_encode := lift (rmapM (ogetitem nodes_dict) missing_ids) in
      let missing_embeddings := batch_encode texts_to_encode in
      _upsert missing_ids texts_to_encode missing_embeddings ;;!
      ret (report texts_to_encode).

End WithModel.

  (** One turn of the loop of [delete]. *)
Definition delete_at (idx : nat) : M EmbeddingStore unit :=
  let! s := get in
  let! hash_id := lift (index s.(hash_ids) idx) in
  let! hs := lift (pop s.(hash_ids) idx) in
  put (set_hash_ids hs s) ;;!
  let! s := get in
  let! ts := lift (pop s.(texts) idx) in
  put (set_texts ts s) ;;!
  let! s := get in
  let! es := lift (pop s.(embeddings) idx) in
  put (set_embeddings es s) ;;!
  let! s := get in
  put (set_access_history (base.delete hash_id s.(access_history)) s).

Definition delete (ids : list string) : M EmbeddingStore unit :=
  let! s := get in
  let! indices := lift (rmapM (getitem s.(hash_id_to_idx)) ids) in
  let sorted_indices := rev (Np.sort indices) in
  for_each sorted_indices delete_at ;;!
  _save_data.

Definition get_all_ids (s : EmbeddingStore) : list string := s.(hash_ids).

  (** [get_embedding], with the default [dtype]. *)
Definition get_embedding (s : EmbeddingStore) (hash_id : string)
    : result Np.ndarray :=
  let* idx := getitem s.(hash_id_to_idx) hash_id in
  let* embedding := index s.(embeddings) idx in
  Ok (Np.astype embedding).

  (** [record_access]; [now] is what [datetime.now()] returns. *)
Definition record_access (now : R) (hash_id : string) (q : option string)
    (query_embedding : option Np.ndarray) (rank : Z) (score : option R)
    : M EmbeddingStore unit :=
  let! s := get in
  (if decide (s.(access_history) !! hash_id = None)
   then put (set_access_history (<[hash_id := []]> s.(access_history)) s)
   else ret tt) ;;!
  let! s := get in
  let! sim :=
    lift (match query_embedding, s.(hash_id_to_idx) !! hash_id with
          | Some qe, Some idx =>
              let* memory_embedding := index s.(embeddings) idx in
              let* d := Np.dot qe memory_embedding in
              Ok (Some (d / (Np.norm qe * Np.norm memory_embedding
                             + / 10 ^ 10))%R)
          | _, _ => Ok None
          end) in
  let event := mkAccessEvent now q rank score sim in
  let! log := lift (getitem s.(access_history) hash_id) in
  put (set_access_history (<[hash_id := log ++ [event]]> s.(access_history)) s).

Definition get_access_history (s : EmbeddingStore) (hash_id : string)
    : result (list AccessEvent) :=
  Ok (default [] (s.(access_history) !! hash_id)).

Definition get_access_count (s : EmbeddingStore) (hash_id : string)
    : result nat :=
  Ok (length (default [] (s.(access_history) !! hash_id))).

Definition get_last_access_time (s : EmbeddingStore) (hash_id : string)
    : result (option R) :=
  let history := default [] (s.(access_history) !! hash_id) in
  if decide (history = []) then Ok None
  else let* ev := last_item history in Ok (Some ev.(timestamp)).

  (** [get_row]. *)
Definition get_row (s : EmbeddingStore) (hash_id : string) : result Row :=
  getitem s.(hash_id_to_row) hash_id.

  (** The dictionary comprehension of [get_rows]. *)
Fixpoint rows_loop (s : EmbeddingStore) (ids : list string)
    (results : odict Row) : result (odict Row) :=
  match ids with
  | [] => Ok results
  | id :: ids' =>
      let* row := getitem s.(hash_id_to_row) id in
      rows_loop s ids' (oset id row results)
  end.

Definition get_rows (s : EmbeddingStore) (ids : list string)
    : result (odict Row) :=
  if decide (ids = []) then Ok [] else rows_loop s ids [].

  (** [get_relevant_context_queries]: an event without
      ['computed_similarity'] counts with similarity [0]. *)
Definition get_relevant_context_queries (s : EmbeddingStore)
    (hash_id : string) (min_similarity : R) : list AccessEvent :=
  let history := default [] (s.(access_history) !! hash_id) in
  List.filter (fun event =>
                 Rleb min_similarity (default 0%R event.(computed_similarity)))
    history.

Section WithHasher.
  Context {hasher : MdHash}.

  (** [get_missing_string_hash_ids]. *)
Definition get_missing_string_hash_ids (txts : list string)
    (s : EmbeddingStore) : result (odict Row) :=
  let nodes_dict := nodes_dict_of s.(namespace) txts in
  let all_hash_ids := okeys nodes_dict in
  if decide (all_hash_ids = []) then Ok []
  else
    let missing_ids :=
      filter (fun h => s.(hash_id_to_row) !! h = None) all_hash_ids in
    let* texts_to_encode := rmapM (ogetitem nodes_dict) missing_ids in
    Ok (foldl (fun d ht => oset ht.1 (mkRow ht.1 ht.2) d) []
          (zip missing_ids texts_to_encode)).

End WithHasher.

End Store.

(** ** [context_aware_memory.py] *)

(** An embedding argument: a numpy array, or a plain list of floats (which
    fails the [isinstance(_, np.ndarray)] tests). *)
Inductive array_like : Type :=
  | NdArray (v : Np.ndarray)
  | FloatList (v : list R).

Definition tolist (a : array_like) : list R :=
  match a with
  | NdArray v => v
  | FloatList v => v
  end.

(** One entry of the query context window ([context_event]). *)
Record ContextEvent : Type := mkContextEvent {
  ctx_timestamp : R;
  ctx_query : string;
  ctx_embedding : list R
}.

(** The list objects of the interpreter that hold context windows; a
    reference is a position in this heap. Two objects that hold the same
    reference share one list. *)
Abbreviation Heap := (list (list ContextEvent)).

(** A [ContextAwareMemoryManager] object; [query_history] refers to a list. *)
Record Manager : Type := mkManager {
  context_window_size : Z;
  recency_weight : R;
  frequency_weight : R;
  relevance_weight : R;
  relevance_threshold : R;
  decay_rate : R;
  query_history : nat
}.

(** The dictionary [export_state] returns and [load_state] reads; a key may
    be absent from a dictionary built by hand. [L] is what stands under
    ['query_history']: a reference to a list in a dictionary object, the
    entries themselves in a dictionary as the caller writes it down. *)
Record StateDictOf (L : Type) : Type := mkStateDict {
  st_context_window_size : option Z;
  st_recency_weight : option R;
  st_frequency_weight : option R;
  st_relevance_weight : option R;
  st_relevance_threshold : option R;
  st_decay_rate : option R;
  st_query_history : option L
}.
Arguments mkStateDict {L} _ _ _ _ _ _ _.
Arguments st_context_window_size {L} _.
Arguments st_recency_weight {L} _.
Arguments st_frequency_weight {L} _.
Arguments st_relevance_weight {L} _.
Arguments st_relevance_threshold {L} _.
Arguments st_decay_rate {L} _.
Arguments st_query_history {L} _.

Definition StateDict : Type := StateDictOf nat.

(** The dictionary [calculate_activation_score] returns. *)
Record Scores : Type := mkScores {
  hash_id : string;
  semantic_relevance : R;
  recency_bonus : R;
  context_frequency : R;
  total_activation : R;
  should_retain : bool
}.

Module Manager.

  (** Allocation of a new list object. *)
Definition alloc (l : list ContextEvent) : M Heap nat :=
  fun h => (h ++ [l], Ok (length h)).

  (** The list a reference denotes. *)
Definition deref (h : Heap) (r : nat) : list ContextEvent :=
  default [] (h !! r).

  (** [__init__]: the three weights are divided by their sum. *)
Definition __init__ (context_window_size : Z)
    (recency_weight frequency_weight relevance_weight : R)
    (relevance_threshold decay_rate : R) : M Heap Manager :=
  let total_weight :=
    (recency_weight + frequency_weight + relevance_weight)%R in
  if Reqb total_weight 0 then raise ZeroDivisionError
  else
    let! r := alloc [] in
    ret (mkManager context_window_size
           (recency_weight / total_weight)
           (frequency_weight / total_weight)
           (relevance_weight / total_weight)
           relevance_threshold decay_rate r).

  (** The body of [add_query_context] on the list itself: [append], then
      [pop(0)] when the list is longer than the window. *)
Definition push_window (size : Z) (ev : ContextEvent)
    (l : list ContextEvent) : list ContextEvent :=
  let l' := l ++ [ev] in
  if decide (size < Z.of_nat (length l'))%Z then tail l' else l'.

Definition add_query_context (now : R) (q : string)
    (query_embedding : array_like) (self : Manager) : M Heap unit :=
  let context_event := mkContextEvent now q (tolist query_embedding) in
  let! h := get in
  put (<[self.(query_history) :=
           push_window self.(context_window_size) context_event
             (deref h self.(query_history))]> h).

  (** [_cosine_similarity]. *)
Definition _cosine_similarity (vec1 vec2 : Np.ndarray) : result R :=
  let norm1 := Np.norm vec1 in
  let norm2 := Np.norm vec2 in
  if Reqb norm1 0 || Reqb norm2 0 then Ok 0%R
  else
    let* d := Np.dot vec1 vec2 in
    Ok (d / (norm1 * norm2))%R.

  (** [_count_relevant_contexts]. *)
Definition _count_relevant_contexts (access_history : list AccessEvent)
    (threshold : R) : nat :=
  length (List.filter (fun event =>
                         match event.(computed_similarity) with
                         | Some sim => Rleb threshold sim
                         | None => false
                         end) access_history).

  (** [calculate_activation_score]; [now] is what [datetime.now()] returns
      when [current_time] is not given. The timestamps of the log are those
      [record_access] wrote ([datetime.now().isoformat()]), which
      [datetime.fromisoformat] reads back, and [current_time] is a naive
      [datetime] like them: a log with other timestamp strings, and a
      [current_time] with a time zone, are not modelled. *)
Definition calculate_activation_score (self : Manager) (now : R)
    (memory_hash_id : string) (access_history : list AccessEvent)
    (current_query_embedding memory_embedding : array_like)
    (current_time : option R) : result Scores :=
  let current_time := default now current_time in
  let* semantic_relevance :=
    match current_query_embedding, memory_embedding with
    | NdArray q, NdArray m =>
        let* semantic_sim := _cosine_similarity q m in
        Ok (Rmax 0 semantic_sim)
    | _, _ => Ok 0%R
    end in
  let* recency_bonus :=
    if decide (access_history = []) then Ok 0%R
    else
      let* last_event := last_item access_history in
      let time_delta := (current_time - last_event.(timestamp))%R in
      let days := (time_delta / (24 * 3600))%R in
      Ok (exp (- self.(decay_rate) * days)) in
  let context_frequency :=
    if decide (access_history = []) then 0%R
    else
      let relevant_contexts :=
        _count_relevant_contexts access_history self.(relevance_threshold) in
      Rmin 1 (INR relevant_contexts / 5) in
  let total_activation :=
    (self.(relevance_weight) * semantic_relevance +
     self.(recency_weight) * recency_bonus +
     self.(frequency_weight) * context_frequency)%R in
  let min_activation_threshold := (5 / 100)%R in
  Ok (mkScores memory_hash_id semantic_relevance recency_bonus
        context_frequency total_activation
        (Rleb min_activation_threshold total_activation
         || bool_decide (length access_history = 0))).

  (** The loop of [calculate_batch_activation]; the [k]-th call of
      [calculate_activation_score] reads the clock as [clock k]. *)
Fixpoint batch_loop (self : Manager) (clock : nat -> R)
    (memory_store : EmbeddingStore) (q : array_like)
    (k : nat) (ids : list string) (all_activation_scores : odict Scores)
    : result (odict Scores) :=
  match ids with
  | [] => Ok all_activation_scores
  | hash_id :: ids' =>
      let* memory_embedding := Store.get_embedding memory_store hash_id in
      let* access_history := Store.get_access_history memory_store hash_id in
      let* scores :=
        calculate_activation_score self (clock k) hash_id access_history
          q (NdArray memory_embedding) None in
      batch_loop self clock memory_store q (S k) ids'
        (oset hash_id scores all_activation_scores)
  end.

Definition calculate_batch_activation (self : Manager) (clock : nat -> R)
    (memory_store : EmbeddingStore) (current_query_embedding : array_like)
    : result (odict Scores) :=
  batch_loop self clock memory_store current_query_embedding 0
    (Store.get_all_ids memory_store) [].

  (** [sorted(items, key=lambda x: x[1]['total_activation'], reverse=True)]:
      descending, and items of equal score keep their order. *)
Fixpoint insert_desc (x : string * Scores) (l : list (string * Scores))
    : list (string * Scores) :=
  match l with
  | [] => [x]
  | y :: l' =>
      if Rleb y.2.(total_activation) x.2.(total_activation)
      then x :: l else y :: insert_desc x l'
  end.

Definition sorted_by_activation (items : list (string * Scores))
    : list (string * Scores) :=
  foldr insert_desc [] items.

  (** [max(1, int(total_count * retention_ratio))], the product being read
      as a real number. *)
Definition retain_count_of (total_count : nat) (retention_ratio : R) : Z :=
  Z.max 1 (py_int (INR total_count * retention_ratio)).

Definition get_memories_to_forget (self : Manager) (clock : nat -> R)
    (memory_store : EmbeddingStore) (current_query_embedding : array_like)
    (retention_ratio : R) : result (list string) :=
  let* all_scores :=
    calculate_batch_activation self clock memory_store
      current_query_embedding in
  let sorted_memories := sorted_by_activation all_scores in
  let total_count := length sorted_memories in
  let retain_count := retain_count_of total_count retention_ratio in
  let to_forget :=
    (filter (fun item => item.2.(should_retain) = false)
       (drop (Z.to_nat retain_count) sorted_memories)).*1 in
  Ok to_forget.

  (** [get_context_similarity_matrix]: the rows of the matrix, filled row
      by row; with fewer than two entries in the window, the empty array. *)
Definition get_context_similarity_matrix (self : Manager) (h : Heap)
    : result (list (list R)) :=
  let query_history := deref h self.(query_history) in
  if decide (length query_history < 2) then Ok []
  else
    let embeddings := ctx_embedding <$> query_history in
    rmapM (fun ei => rmapM (fun ej => _cosine_similarity ei ej) embeddings)
      embeddings.

  (** [export_state]: the window is copied into a new list ([deepcopy]). *)
Definition export_state (self : Manager) : M Heap StateDict :=
  let! h := get in
  let! r := alloc (deref h self.(query_history)) in
  ret (mkStateDict (Some self.(context_window_size))
         (Some self.(recency_weight)) (Some self.(frequency_weight))
         (Some self.(relevance_weight)) (Some self.(relevance_threshold))
         (Some self.(decay_rate)) (Some r)).

  (** [load_state]: every attribute is assigned from the dictionary, an
      absent key giving its default; the list of the dictionary itself
      becomes the window (no copy), an absent one a new empty list. *)
Definition load_state (state : StateDict) (self : Manager)
    : M Heap Manager :=
  let! r :=
    match state.(st_query_history) with
    | Some r => ret r
    | None => alloc []
    end in
  ret (mkManager
         (default 10%Z state.(st_context_window_size))
         (default (3 / 10)%R state.(st_recency_weight))
         (default (2 / 10)%R state.(st_frequency_weight))
         (default (5 / 10)%R state.(st_relevance_weight))
         (default (3 / 10)%R state.(st_relevance_threshold))
         (default (1 / 100)%R state.(st_decay_rate))
         r).

End Manager.

(** ** Programs over managers

    A caller holds manager objects and state dictionaries and calls the
    methods of the managers on them; [OpDict] is the caller writing a state
    dictionary down (or reading one from a file) instead of exporting it. *)

Record World : Type := mkWorld {
  w_heap : Heap;
  w_managers : list Manager;
  w_dicts : list StateDict
}.


Module Prog.










  (** The window of a manager object of the world. *)
Definition window (w : World) (self : Manager) : list ContextEvent :=
  Manager.deref w.(w_heap) self.(query_history).

End Prog.

(** ** [conflict_resolution.py] *)

(** A fact triple [(subject, predicate, object)]. *)
Definition Fact : Type := string * string * string.

Record ConflictRecord : Type := mkConflictRecord {
  cr_timestamp : R;
  old_fact : Fact;
  new_fact : Fact;
  old_hash_id : string;
  new_hash_id : string;
  old_access_count : Z;
  new_access_count : Z;
  resolution_strategy : string;
  resolution_result : string;
  notes : option string
}.

Record ConflictResolver : Type := mkResolver {
  default_strategy : string;
  enable_audit_log : bool;
  audit_log_file : option string;
  conflict_history : list ConflictRecord
}.

(** [str(fact)], the key under which [batch_resolve_conflicts] looks a fact
    up in [fact_to_hash_id]: Python's rendering of a tuple of strings. *)
Class FactStr := fact_str : Fact -> string.

(** An entry of ['facts_to_merge']. *)
Record MergeEntry : Type := mkMergeEntry {
  me_old_hash : string;
  me_new_hash : string;
  me_merged_value : string
}.

(** The dictionary [batch_resolve_conflicts] returns. *)
Record BatchResult : Type := mkBatchResult {
  conflicts_detected : nat;
  conflict_records : list ConflictRecord;
  facts_to_delete : list string;
  facts_to_merge : list MergeEntry
}.

(** The dictionary [get_conflict_summary] returns; the last two keys are
    absent when the history is empty. *)
Record ConflictSummary : Type := mkConflictSummary {
  total_conflicts : nat;
  strategies_used : option (odict nat);
  latest_conflict : option R
}.

Module Resolver.

  (** [str.lower] on one character. Below 256 the characters Python
      lower-cases are [A]-[Z] (65-90), [À]-[Ö] (192-214) and [Ø]-[Þ]
      (216-222), each to the code point 32 above it; [×] (215), [ß] (223)
      and [µ] (181) are left as they are. *)
Definition lower_char (c : ascii) : ascii :=
  let n := nat_of_ascii c in
  if decide ((65 <= n /\ n <= 90) \/ (192 <= n /\ n <= 214)
             \/ (216 <= n /\ n <= 222))
  then ascii_of_nat (n + 32) else c.

Fixpoint lower (s : string) : string :=
  match s with
  | EmptyString => EmptyString
  | String c s' => String (lower_char c) (lower s')
  end.

  (** The characters [str.strip] removes ([str.isspace]): below 256 these
      are the code points 9-13, 28-32, 133 (next line) and 160 (no-break
      space). *)
Definition is_space (c : ascii) : bool :=
  let n := nat_of_ascii c in
  bool_decide ((9 <= n /\ n <= 13) \/ (28 <= n /\ n <= 32)
               \/ n = 133 \/ n = 160).

Fixpoint lstrip (s : string) : string :=
  match s with
  | EmptyString => EmptyString
  | String c s' => if is_space c then lstrip s' else s
  end.

Fixpoint rstrip (s : string) : string :=
  match s with
  | EmptyString => EmptyString
  | String c s' =>
      match rstrip s' with
      | EmptyString => if is_space c then EmptyString else String c EmptyString
      | r => String c r
      end
  end.

Definition strip (s : string) : string := rstrip (lstrip s).

Definition normalize_fact (fact : Fact) : Fact :=
  (strip (lower fact.1.1), strip (lower fact.1.2), strip (lower fact.2)).

  (** The test of the inner loop of [detect_conflicts]. *)
Definition conflicting (exist_fact new_fact : Fact) : bool :=
  let new_norm := normalize_fact new_fact in
  let exist_norm := normalize_fact exist_fact in
  bool_decide (new_norm.1.1 = exist_norm.1.1)
  && bool_decide (new_norm.1.2 = exist_norm.1.2)
  && negb (bool_decide (new_norm.2 = exist_norm.2)).

Definition detect_conflicts (existing_facts new_facts : list Fact)
    : list (nat * nat) :=
  flat_map (fun new =>
     flat_map (fun exist =>
        if conflicting exist.2 new.2 then [(exist.1, new.1)] else [])
       (enumerate existing_facts))
    (enumerate new_facts).

Definition set_result (res : string) (n : option string)
    (r : ConflictRecord) : ConflictRecord :=
  mkConflictRecord r.(cr_timestamp) r.(old_fact) r.(new_fact)
    r.(old_hash_id) r.(new_hash_id) r.(old_access_count)
    r.(new_access_count) r.(resolution_strategy) res n.

  (** [resolve_conflict]; [now] is what [datetime.now()] returns. *)
Definition resolve_conflict (now : R) (old new : Fact)
    (old_id new_id : string) (old_count new_count : Z)
    (strategy : option string) : M ConflictResolver ConflictRecord :=
  let! self := get in
  let strategy := default self.(default_strategy) strategy in
  let record :=
    mkConflictRecord now old new old_id new_id old_count new_count
      strategy "" None in
  let record :=
    if decide (strategy = "keep_new") then
      set_result new.2
        (Some "New fact replaces old fact (recent information is prioritized)")
        record
    else if decide (strategy = "keep_old") then
      set_result old.2
        (Some "Old fact retained, new fact rejected (stability prioritized)")
        record
    else if decide (strategy = "merge") then
      set_result ("(" +:+ old.2 +:+ " or " +:+ new.2 +:+ ")")
        (Some "Facts merged into uncertain knowledge (both possibilities preserved)")
        record
    else if decide (strategy = "keep_frequent") then
      if decide (old_count >= new_count)%Z then
        set_result old.2
          (Some ("Old fact retained (more frequently accessed: "
                 +:+ pretty old_count +:+ " vs " +:+ pretty new_count +:+ ")"))
          record
      else
        set_result new.2
          (Some ("New fact adopted (more frequently accessed: "
                 +:+ pretty new_count +:+ " vs " +:+ pretty old_count +:+ ")"))
          record
    else record in
  let! self := get in
  put (mkResolver self.(default_strategy) self.(enable_audit_log)
         self.(audit_log_file) (self.(conflict_history) ++ [record])) ;;!
  ret record.

Section WithFactStr.
  Context {fact_key : FactStr}.

  (** The loop of [batch_resolve_conflicts]; the [k]-th call of
      [resolve_conflict] reads the clock as [clock k]. *)
Fixpoint resolve_loop (clock : nat -> R) (k : nat) (conflicts : list (Z * Z))
    (existing_facts new_facts : list Fact)
    (fact_to_hash_id : gmap string string) (access_counts : gmap string Z)
    (strategy : string) (results : BatchResult)
    : M ConflictResolver BatchResult :=
  match conflicts with
  | [] => ret results
  | conflict :: rest =>
      let! old_fact := lift (zindex existing_facts conflict.1) in
      let! new_fact := lift (zindex new_facts conflict.2) in
      let old_hash :=
        default "unknown" (fact_to_hash_id !! fact_str old_fact) in
      let new_hash :=
        default "unknown" (fact_to_hash_id !! fact_str new_fact) in
      let old_count := default 0%Z (access_counts !! old_hash) in
      let new_count := default 0%Z (access_counts !! new_hash) in
      let! record :=
        resolve_conflict (clock k) old_fact new_fact old_hash new_hash
          old_count new_count (Some strategy) in
      let lists :=
        if decide (strategy = "keep_new")
        then (results.(facts_to_delete) ++ [old_hash], results.(facts_to_merge))
        else if decide (strategy = "keep_old")
        then (results.(facts_to_delete) ++ [new_hash], results.(facts_to_merge))
        else if decide (strategy = "merge")
        then (results.(facts_to_delete),
              results.(facts_to_merge)
              ++ [mkMergeEntry old_hash new_hash record.(resolution_result)])
        else (results.(facts_to_delete), results.(facts_to_merge)) in
      let results :=
        mkBatchResult results.(conflicts_detected)
          (results.(conflict_records) ++ [record]) lists.1 lists.2 in
      resolve_loop clock (S k) rest existing_facts new_facts
        fact_to_hash_id access_counts strategy results
  end.

Definition batch_resolve_conflicts (clock : nat -> R)
    (conflicts : list (Z * Z)) (existing_facts new_facts : list Fact)
    (fact_to_hash_id : gmap string string) (access_counts : gmap string Z)
    (strategy : string) : M ConflictResolver BatchResult :=
  resolve_loop clock 0 conflicts existing_facts new_facts fact_to_hash_id
    access_counts strategy (mkBatchResult (length conflicts) [] [] []).

End WithFactStr.

  (** The counting loop of [get_conflict_summary]. *)
Definition count_strategies (history : list ConflictRecord) : odict nat :=
  foldl (fun strategies_used record =>
           oset record.(resolution_strategy)
             (default 0 (oget strategies_used record.(resolution_strategy)) + 1)
             strategies_used)
    [] history.

Definition get_conflict_summary (self : ConflictResolver) : ConflictSummary :=
  if decide (self.(conflict_history) = []) then mkConflictSummary 0 None None
  else
    mkConflictSummary (length self.(conflict_history))
      (Some (count_strategies self.(conflict_history)))
      (cr_timestamp <$> last self.(conflict_history)).

End Resolver.

(* ===================================================================== *)
(** * Part II: vocabulary of the statements                                *)
(* ===================================================================== *)

(** ** Conflict resolver *)

(** The four strategies [resolve_conflict] knows. *)
Definition known_strategies : list string :=
  ["keep_new"; "keep_old"; "merge"; "keep_frequent"].

(** The index pairs [detect_conflicts] returns, as the integers
    [batch_resolve_conflicts] reads. *)
Definition int_pairs (l : list (nat * nat)) : list (Z * Z) :=
  (fun p => (Z.of_nat p.1, Z.of_nat p.2)) <$> l.

(** An integer that indexes the list, from the front or from the end. *)
Definition in_range {A} (l : list A) (i : Z) : Prop :=
  (- Z.of_nat (length l) <= i < Z.of_nat (length l))%Z.

(** A conflict whose two indices index the two fact lists. *)
Definition valid_conflict (existing new : list Fact) (c : Z * Z) : Prop :=
  in_range existing c.1 /\ in_range new c.2.

(** The upper-case letters below 256: [A]-[Z], [À]-[Ö] and [Ø]-[Þ]. *)
Definition upper_case_letter (c : ascii) : bool :=
  let n := nat_of_ascii c in
  bool_decide ((65 <= n /\ n <= 90) \/ (192 <= n /\ n <= 214)
               \/ (216 <= n /\ n <= 222)).

(** Python's whitespace below 256: tab to carriage return, the four
    separators, the space, next line and the no-break space. *)
Definition whitespace (c : ascii) : bool :=
  bool_decide (nat_of_ascii c ∈ [9; 10; 11; 12; 13; 28; 29; 30; 31; 32; 133; 160]).

(** A text with no whitespace at its start and none at its end. *)
Definition trimmed (s : string) : Prop :=
  (forall c, head (list_ascii_of_string s) = Some c -> whitespace c = false) /\
  (forall c, last (list_ascii_of_string s) = Some c -> whitespace c = false).

(** What the specification asks of the comparison: case folding, where the
    code lower-cases. *)
Module Spec.

  (** Unicode's case folding of one character below 256: an upper-case
      letter folds to its lower-case letter and [ß] (223) to ["ss"]; every
      other character folds to itself, but for the micro sign (181), whose
      folding is a Greek letter outside the modelled text. *)
Definition case_fold_char (c : ascii) : option string :=
  let n := nat_of_ascii c in
  if decide (n = 181) then None
  else if decide (n = 223) then Some "ss"
  else if upper_case_letter c
       then Some (String (ascii_of_nat (n + 32)) EmptyString)
       else Some (String c EmptyString).

Fixpoint case_fold (s : string) : option string :=
  match s with
  | EmptyString => Some EmptyString
  | String c s' =>
      match case_fold_char c, case_fold s' with
      | Some c', Some r => Some (c' +:+ r)
      | _, _ => None
      end
  end.

  (** "Case-fold and trim whitespace on every element." *)
Definition normalize (s : string) : option string :=
  Resolver.strip <$> case_fold s.

  (** "Equal normalized subject and predicate but different normalized
      object." *)
Definition conflict (exist_fact new_fact : Fact) : Prop :=
  exists es ep eo ns np no,
    normalize exist_fact.1.1 = Some es /\ normalize new_fact.1.1 = Some ns /\
    normalize exist_fact.1.2 = Some ep /\ normalize new_fact.1.2 = Some np /\
    normalize exist_fact.2 = Some eo /\ normalize new_fact.2 = Some no /\
    es = ns /\ ep = np /\ eo <> no.

End Spec.

(** ** Embedding store *)

(** The three parallel sequences have equal length. *)
Definition parallel (s : EmbeddingStore) : Prop :=
  length s.(hash_ids) = length s.(texts) /\
  length s.(texts) = length s.(embeddings).

(** The identifier-to-index mapping agrees with the identifier sequence:
    an index it gives holds the identifier, and it knows every identifier
    of the sequence. *)
Definition index_consistent (s : EmbeddingStore) : Prop :=
  (forall h i, s.(hash_id_to_idx) !! h = Some i -> s.(hash_ids) !! i = Some h) /\
  (forall h, h ∈ s.(hash_ids) -> is_Some (s.(hash_id_to_idx) !! h)).

(** The invariant of a store that was built by [insert_strings] and
    [delete] from an empty one: moreover no identifier is stored twice, so
    that the mapping is exactly the inverse of the sequence, and the rows
    are those of the stored identifiers. *)
Definition store_inv (s : EmbeddingStore) : Prop :=
  parallel s /\
  NoDup s.(hash_ids) /\
  (forall h i, s.(hash_id_to_idx) !! h = Some i <-> s.(hash_ids) !! i = Some h) /\
  (forall h, is_Some (s.(hash_id_to_row) !! h) <-> h ∈ s.(hash_ids)).

(** The row dictionary holds, for every stored identifier, the row made of
    the identifier and of the text at its position. *)
Definition rows_match (s : EmbeddingStore) : Prop :=
  forall h i t, s.(hash_ids) !! i = Some h -> s.(texts) !! i = Some t ->
    s.(hash_id_to_row) !! h = Some (mkRow h t).

(** [aligned s s']: every record of [s'] is a record of [s], with the text
    and the embedding it had there. *)
Definition aligned (s s' : EmbeddingStore) : Prop :=
  forall i, i < length s'.(hash_ids) ->
    exists j,
      s'.(hash_ids) !! i = s.(hash_ids) !! j /\
      s'.(texts) !! i = s.(texts) !! j /\
      s'.(embeddings) !! i = s.(embeddings) !! j.

(** An embedding model that returns one embedding per text. *)
Definition encodes_each (model : EmbeddingModel) : Prop :=
  forall txts, length (batch_encode txts) = length txts.

(** What [_save_data] makes of a store: the derived dictionaries rebuilt. *)
Definition rebuilt (s : EmbeddingStore) : EmbeddingStore :=
  Store.set_hash_id_to_idx (Store.build_hash_id_to_idx s.(hash_ids))
    (Store.set_hash_id_to_row
       (Store.build_hash_id_to_row s.(hash_ids) s.(texts) s.(embeddings)) s).

(** The store after the loop of [delete] has run over the indices [is]
    (each identifier read in the sequence as it was at the start): the three
    sequences without those positions, removed one after the other, and the
    access log without the identifiers that stood there. *)
Definition popped (idxs : list nat) (s : EmbeddingStore) : EmbeddingStore :=
  mkStore s.(namespace)
    (foldl (fun l i => base.delete i l) s.(hash_ids) idxs)
    (foldl (fun l i => base.delete i l) s.(texts) idxs)
    (foldl (fun l i => base.delete i l) s.(embeddings) idxs)
    s.(hash_id_to_idx) s.(hash_id_to_row)
    (foldl (fun m h => base.delete h m) s.(access_history)
       (omap (fun i => s.(hash_ids) !! i) idxs)).

(** ** Context window *)





(** ** Activation scores *)

(** Constructor weights that can be normalized into a convex combination:
    none is negative and their sum is positive. *)
Definition valid_weights (w_rec w_freq w_rel : R) : Prop :=
  (0 <= w_rec /\ 0 <= w_freq /\ 0 <= w_rel /\ 0 < w_rec + w_freq + w_rel)%R.

(** [scored_by self clock store q h sc]: [sc] is the score some call of the
    batch loop computes for the identifier [h], from the embedding and the
    access log the store holds for it. *)
Definition scored_by (self : Manager) (clock : nat -> R)
    (store : EmbeddingStore) (q : array_like) (h : string) (sc : Scores)
    : Prop :=
  exists k emb events,
    Store.get_embedding store h = Ok emb /\
    Store.get_access_history store h = Ok events /\
    Manager.calculate_activation_score self (clock k) h events q
      (NdArray emb) None = Ok sc.

(** [outranks a b]: the item [a] may stand before the item [b] in a ranking
    by descending total activation. *)
Definition outranks (a b : string * Scores) : Prop :=
  (b.2.(total_activation) <= a.2.(total_activation))%R.

(** ** Sample objects, used to exercise the statements below *)

Module Sample.

Definition erik_old : Fact := ("Erik Hort", "birthplace", "Montebello").
Definition erik_new : Fact := ("Erik Hort", "birthplace", "Rockland County").
Definition resolver : ConflictResolver := mkResolver "keep_new" true None [].

  (** The record [resolve_conflict] builds before it looks at the strategy. *)
Definition blank_record (strategy : string) : ConflictRecord :=
  mkConflictRecord 0 erik_old erik_new "fact-1" "fact-2" 3 3 strategy "" None.

Definition ctx (q : string) : ContextEvent := mkContextEvent 0 q [1%R; 0%R].




  (** A stand-in for [compute_mdhash_id] (the prefix followed by the text)
      and an embedding model that maps every text to the same unit vector. *)
Definition hasher : MdHash := fun content prefix => prefix +:+ content.
Definition model : EmbeddingModel := fun txts => (fun _ => [1%R; 0%R]) <$> txts.

  (** The manager [ContextAwareMemoryManager()] builds from its default
      arguments. *)
Definition manager : Manager :=
  mkManager 10
    ((3 / 10) / (3 / 10 + 2 / 10 + 5 / 10))
    ((2 / 10) / (3 / 10 + 2 / 10 + 5 / 10))
    ((5 / 10) / (3 / 10 + 2 / 10 + 5 / 10))
    (3 / 10) (1 / 100) 0.

  (** A store of three texts, each retrieved once at time [0] by a query
      without embedding. *)
Definition texts3 : list string := ["alpha"; "beta"; "gamma"].
Definition ids3 : list string := ["mem-alpha"; "mem-beta"; "mem-gamma"].

Definition store3 : EmbeddingStore :=
  (Store.insert_strings (hasher := hasher) (model := model) texts3
     (Store.new "mem")).1.

Definition touch (id : string) : M EmbeddingStore unit :=
  Store.record_access 0 id (Some "who is alpha?") None (-1) None.

Definition accessed3 : EmbeddingStore :=
  (for_each ids3 touch store3).1.

Definition access : AccessEvent :=
  mkAccessEvent 0 (Some "who is alpha?") (-1) None None.

  (** A thousand days later, in seconds, and a query orthogonal to every
      stored embedding. *)
Definition late : R := 86400000.
Definition query : array_like := NdArray [0%R; 1%R].

  (** The score of each of the three records then. *)
Definition stale_score (id : string) : Scores :=
  mkScores id 0 (exp (- 10)) 0 (3 / 10 * exp (- 10)) false.

  (** An access recorded a hundred days after the time the score is asked
      for. *)
Definition future_access : AccessEvent :=
  mkAccessEvent 8640000 (Some "who is alpha?") (-1) None None.

  (** A stand-in for Python's rendering of a fact. *)
Definition fact_key : FactStr :=
  fun f => f.1.1 +:+ "|" +:+ f.1.2 +:+ "|" +:+ f.2.

Definition montebello : Fact := ("Montebello", "location", "New York").

  (** A fact written with capitals, an accented capital (code point 201)
      and whitespace around its elements, and its normal form (code point
      233 is the lower-case letter). *)
Definition padded : Fact :=
  ("  Erik HORT", String "201"%char "COLE ", " Montebello ").
Definition padded_normal : Fact :=
  ("erik hort", String "233"%char "cole", "montebello").

  (** Two facts about one street, written with the sharp s (code point
      223) and in capitals. *)
Definition street_old : Fact :=
  ("stra" +:+ String "223"%char "e", "liegt in", "Bonn").
Definition street_new : Fact := ("STRASSE", "liegt in", "Berlin").

End Sample.

(* ===================================================================== *)
(** * Part III: properties                                                 *)
(* ===================================================================== *)

(** ** Lists, enumerations and the error monad *)

Lemma elem_of_enumerate {A} (l : list A) (i : nat) (a : A) :
  (i, a) ∈ enumerate l <-> l !! i = Some a.
Proof.
  unfold enumerate. rewrite elem_of_lookup_imap. split.
  - intros (j & y & Heq & Hl). by simplify_eq.
  - intros Hl. by exists i, a.
Qed.

Lemma enumerate_fst {A} (l : list A) :
  (enumerate l).*1 = seq 0 (length l).
Proof.
  unfold enumerate. rewrite fmap_imap.
  change (imap _ l) with (imap (fun (j : nat) (_ : A) => j) l).
  rewrite (imap_seq_0 l (fun j => j)). by rewrite list_fmap_id.
Qed.

Lemma NoDup_enumerate {A} (l : list A) : NoDup (enumerate l).
Proof.
  apply (NoDup_fmap_1 fst). rewrite enumerate_fst. apply NoDup_seq.
Qed.

Lemma NoDup_flat_map {A B} (f : A -> list B) (l : list A) :
  NoDup l ->
  (forall x, x ∈ l -> NoDup (f x)) ->
  (forall x y b, x ∈ l -> y ∈ l -> b ∈ f x -> b ∈ f y -> x = y) ->
  NoDup (flat_map f l).
Proof.
  induction 1 as [|x l Hx Hl IH]; intros Hf Hdisj; simpl.
  - constructor.
  - apply NoDup_app. split_and!.
    + apply Hf. by left.
    + intros b Hb Hb'. apply list_elem_of_In, in_flat_map in Hb'.
      destruct Hb' as (y & Hy & Hby). apply list_elem_of_In in Hy, Hby.
      assert (x = y) as -> by (eapply Hdisj; eauto; by constructor).
      done.
    + apply IH.
      * intros y Hy. apply Hf. by right.
      * intros y z b Hy Hz. apply Hdisj; by right.
Qed.

(** ** Conflict resolver *)

(** C1, as the specification states it, fails: with the strategy ["latest"],
    which is none of the four, [resolve_conflict] raises nothing. It returns a
    conflict record whose result is the empty string and appends it to the
    audit history. *)
Lemma resolve_conflict_latest_returns_record :
  ("latest" ∉ known_strategies) /\
  Resolver.resolve_conflict 0 Sample.erik_old Sample.erik_new
      "fact-1" "fact-2" 3 3 (Some "latest") Sample.resolver
  = (mkResolver "keep_new" true None [Sample.blank_record "latest"],
     Ok (Sample.blank_record "latest")).
Proof.
  split.
  - unfold known_strategies. rewrite !elem_of_cons, elem_of_nil.
    intros [?|[?|[?|[?|[]]]]]; discriminate.
  - reflexivity.
Qed.

(** C1 (amended): for a strategy that is none of ['keep_new'], ['keep_old'],
    ['merge'], ['keep_frequent'] (given explicitly, or the resolver's default
    when none is given), [resolve_conflict] does not fail: it returns the
    record it built before looking at the strategy, with that strategy, an
    empty [resolution_result] and no notes, and appends it to the history. *)
Theorem resolve_conflict_unrecognized_strategy
    (now : R) (old new : Fact) (old_id new_id : string) (oc nc : Z)
    (strategy : option string) (self : ConflictResolver) :
  let effective := default self.(default_strategy) strategy in
  let record :=
    mkConflictRecord now old new old_id new_id oc nc effective "" None in
  effective ∉ known_strategies ->
  Resolver.resolve_conflict now old new old_id new_id oc nc strategy self
  = (mkResolver self.(default_strategy) self.(enable_audit_log)
       self.(audit_log_file) (self.(conflict_history) ++ [record]),
     Ok record).
Proof.
  intros effective record Hnot.
  unfold known_strategies in Hnot.
  rewrite !elem_of_cons, elem_of_nil in Hnot.
  unfold Resolver.resolve_conflict, bind, get, put, ret. simpl.
  fold effective.
  repeat (case_decide; [exfalso; tauto|]).
  reflexivity.
Qed.

Lemma resolve_conflict_unrecognized_strategy_witness :
  Resolver.resolve_conflict 0 Sample.erik_old Sample.erik_new
      "fact-1" "fact-2" 3 3 None
      (mkResolver "newest_wins" true None [])
  = (mkResolver "newest_wins" true None [Sample.blank_record "newest_wins"],
     Ok (Sample.blank_record "newest_wins")).
Proof.
  apply (resolve_conflict_unrecognized_strategy 0 Sample.erik_old
           Sample.erik_new "fact-1" "fact-2" 3 3 None
           (mkResolver "newest_wins" true None [])).
  simpl. unfold known_strategies.
  rewrite !elem_of_cons, elem_of_nil.
  intros [?|[?|[?|[?|[]]]]]; discriminate.
Defined.

Lemma conflicting_spec (e n : Fact) :
  Resolver.conflicting e n = true <->
  (Resolver.normalize_fact e).1.1 = (Resolver.normalize_fact n).1.1 /\
  (Resolver.normalize_fact e).1.2 = (Resolver.normalize_fact n).1.2 /\
  (Resolver.normalize_fact e).2 <> (Resolver.normalize_fact n).2.
Proof.
  unfold Resolver.conflicting.
  rewrite !andb_true_iff, negb_true_iff, !bool_decide_eq_true,
    bool_decide_eq_false.
  intuition congruence.
Qed.

Lemma elem_of_detect_conflicts (existing new : list Fact) (i j : nat) :
  (i, j) ∈ Resolver.detect_conflicts existing new <->
  exists e n, existing !! i = Some e /\ new !! j = Some n /\
              Resolver.conflicting e n = true.
Proof.
  unfold Resolver.detect_conflicts.
  rewrite list_elem_of_In, in_flat_map. split.
  - intros ([j' n] & Hn & Hin). apply in_flat_map in Hin.
    destruct Hin as ([i' e] & He & Hin). simpl in Hin.
    apply list_elem_of_In, elem_of_enumerate in Hn, He.
    destruct (Resolver.conflicting e n) eqn:Hc; [|by destruct Hin].
    destruct Hin as [Heq|[]]. simplify_eq. eauto.
  - intros (e & n & He & Hn & Hc). exists (j, n). split.
    + by apply list_elem_of_In, elem_of_enumerate.
    + apply in_flat_map. exists (i, e). split.
      * by apply list_elem_of_In, elem_of_enumerate.
      * simpl. rewrite Hc. by left.
Qed.

Lemma NoDup_detect_conflicts (existing new : list Fact) :
  NoDup (Resolver.detect_conflicts existing new).
Proof.
  unfold Resolver.detect_conflicts. apply NoDup_flat_map.
  - apply NoDup_enumerate.
  - intros [j n] _. apply NoDup_flat_map.
    + apply NoDup_enumerate.
    + intros [i e] _. simpl. destruct (Resolver.conflicting e n).
      * apply NoDup_singleton.
      * constructor.
    + intros [i e] [i' e'] b Hx Hy Hb Hb'. simpl in *.
      apply elem_of_enumerate in Hx, Hy.
      destruct (Resolver.conflicting e n); [|by apply elem_of_nil in Hb].
      destruct (Resolver.conflicting e' n); [|by apply elem_of_nil in Hb'].
      apply list_elem_of_singleton in Hb, Hb'. simplify_eq. done.
  - intros [j n] [j' n'] b Hx Hy Hb Hb'.
    apply elem_of_enumerate in Hx, Hy.
    apply list_elem_of_In, in_flat_map in Hb, Hb'.
    destruct Hb as ([i e] & _ & Hb), Hb' as ([i' e'] & _ & Hb').
    simpl in *.
    destruct (Resolver.conflicting e n); [|done].
    destruct (Resolver.conflicting e' n'); [|done].
    destruct Hb as [Hb|[]], Hb' as [Hb'|[]]. simplify_eq. done.
Qed.

(** *** What normalization does *)

Lemma lower_char_spec (c : ascii) :
  Resolver.lower_char c
  = if upper_case_letter c then ascii_of_nat (nat_of_ascii c + 32) else c.
Proof. destruct c as [[] [] [] [] [] [] [] []]; reflexivity. Qed.

Lemma is_space_spec (c : ascii) : Resolver.is_space c = whitespace c.
Proof. destruct c as [[] [] [] [] [] [] [] []]; reflexivity. Qed.

Lemma lower_spec (s : string) :
  list_ascii_of_string (Resolver.lower s)
  = (fun c => if upper_case_letter c
              then ascii_of_nat (nat_of_ascii c + 32) else c)
      <$> list_ascii_of_string s.
Proof.
  induction s as [|c s IH]; [done|].
  cbn [Resolver.lower list_ascii_of_string]. rewrite fmap_cons.
  by rewrite IH, lower_char_spec.
Qed.

Lemma lstrip_split (s : string) :
  exists pre,
    s = pre +:+ Resolver.lstrip s /\
    Forall (fun c => whitespace c = true) (list_ascii_of_string pre) /\
    (forall c, head (list_ascii_of_string (Resolver.lstrip s)) = Some c ->
       whitespace c = false).
Proof.
  induction s as [|c s (pre & Hs & Hpre & Hhead)]; simpl.
  - exists EmptyString. by split_and!.
  - destruct (Resolver.is_space c) eqn:Hc.
    + exists (String c pre).
      split_and!;
        [change (String c s = String c (pre +:+ Resolver.lstrip s));
         congruence| |done].
      simpl.
      constructor; [by rewrite <- is_space_spec|done].
    + exists EmptyString. simpl. split_and!; [done|done|].
      intros c' [= <-]. by rewrite <- is_space_spec.
Qed.

Lemma rstrip_split (s : string) :
  exists post,
    s = Resolver.rstrip s +:+ post /\
    Forall (fun c => whitespace c = true) (list_ascii_of_string post) /\
    (forall c, last (list_ascii_of_string (Resolver.rstrip s)) = Some c ->
       whitespace c = false).
Proof.
  induction s as [|c s (post & Hs & Hpost & Hlast)]; simpl.
  - exists EmptyString. by split_and!.
  - destruct (Resolver.rstrip s) as [|c' r] eqn:Hr.
    + change (s = post) in Hs. subst post. destruct (Resolver.is_space c) eqn:Hc.
      * exists (String c s). simpl. split_and!; [done| |done].
        constructor; [by rewrite <- is_space_spec|done].
      * exists s. simpl. split_and!; [done|done|].
        intros c' [= <-]. by rewrite <- is_space_spec.
    + exists post.
      split_and!;
        [change (String c s = String c (String c' r +:+ post));
         congruence|done|].
      intros c0 Hc0. apply Hlast. by destruct (list_ascii_of_string r).
Qed.

Lemma head_rstrip (s : string) (c : ascii) :
  head (list_ascii_of_string (Resolver.rstrip s)) = Some c ->
  head (list_ascii_of_string s) = Some c.
Proof.
  destruct s as [|c0 s]; simpl; [done|].
  destruct (Resolver.rstrip s); [|done].
  by destruct (Resolver.is_space c0).
Qed.

Lemma strip_split (s : string) :
  exists pre post,
    s = pre +:+ (Resolver.strip s +:+ post) /\
    Forall (fun c => whitespace c = true) (list_ascii_of_string pre) /\
    Forall (fun c => whitespace c = true) (list_ascii_of_string post) /\
    trimmed (Resolver.strip s).
Proof.
  destruct (lstrip_split s) as (pre & Hs & Hpre & Hhead).
  destruct (rstrip_split (Resolver.lstrip s)) as (post & Hl & Hpost & Hlast).
  exists pre, post. unfold Resolver.strip, trimmed.
  split_and!; try done.
  - by rewrite <- Hl.
  - intros c Hc. apply Hhead. by apply head_rstrip.
Qed.

(** C6, as the specification states it, fails: the code lower-cases, it
    does not case-fold. The two facts about one street have, case-folded and
    trimmed, the same subject (the sharp s folds to [ss]) and the same
    predicate, and different objects, so they conflict as the specification
    defines it; [detect_conflicts] reports no pair, because [str.lower]
    leaves the sharp s as it is. *)
Lemma detect_conflicts_misses_case_folded_pair :
  Spec.conflict Sample.street_old Sample.street_new /\
  Spec.normalize Sample.street_old.1.1 = Some "strasse" /\
  Spec.normalize Sample.street_new.1.1 = Some "strasse" /\
  (Resolver.normalize_fact Sample.street_old).1.1
  = "stra" +:+ String "223"%char "e" /\
  (Resolver.normalize_fact Sample.street_new).1.1 = "strasse" /\
  Resolver.detect_conflicts [Sample.street_old] [Sample.street_new] = [].
Proof.
  split_and!; try reflexivity.
  exists "strasse", "liegt in", "bonn", "strasse", "liegt in", "berlin".
  split_and!; try reflexivity. discriminate.
Qed.

(** C6 (amended): [detect_conflicts existing new] is, without repetition,
    exactly the index pairs [(existing_index, new_index)] of triples whose
    normalized subjects are equal, whose normalized predicates are equal,
    and whose normalized objects differ, where normalization is Python's
    lower-casing followed by trimming, on every element. On the text
    modelled (code points below 256), [lower] replaces each upper-case
    letter by its lower-case letter and changes nothing else, and [strip]
    removes the whitespace before the first and after the last character
    that is not whitespace, and nothing else. Normalization only feeds the
    comparison: the indices point into the lists as they were given. *)
Theorem detect_conflicts_exact (existing new : list Fact) :
  NoDup (Resolver.detect_conflicts existing new) /\
  (forall i j,
     (i, j) ∈ Resolver.detect_conflicts existing new <->
     exists e n,
       existing !! i = Some e /\ new !! j = Some n /\
       (Resolver.normalize_fact e).1.1 = (Resolver.normalize_fact n).1.1 /\
       (Resolver.normalize_fact e).1.2 = (Resolver.normalize_fact n).1.2 /\
       (Resolver.normalize_fact e).2 <> (Resolver.normalize_fact n).2) /\
  (forall f,
     Resolver.normalize_fact f
     = (Resolver.strip (Resolver.lower f.1.1),
        Resolver.strip (Resolver.lower f.1.2),
        Resolver.strip (Resolver.lower f.2))) /\
  (forall s,
     list_ascii_of_string (Resolver.lower s)
     = (fun c => if upper_case_letter c
                 then ascii_of_nat (nat_of_ascii c + 32) else c)
         <$> list_ascii_of_string s) /\
  (forall s, exists pre post,
     s = pre +:+ (Resolver.strip s +:+ post) /\
     Forall (fun c => whitespace c = true) (list_ascii_of_string pre) /\
     Forall (fun c => whitespace c = true) (list_ascii_of_string post) /\
     trimmed (Resolver.strip s)) /\
  Resolver.normalize_fact Sample.padded = Sample.padded_normal.
Proof.
  split_and!.
  - apply NoDup_detect_conflicts.
  - intros i j. rewrite elem_of_detect_conflicts.
    split; intros (e & n & He & Hn & Hc); exists e, n; split_and!; try done;
      by apply conflicting_spec.
  - done.
  - apply lower_spec.
  - apply strip_split.
  - reflexivity.
Qed.
(** ** Embedding store: the access log *)

Lemma last_item_nonempty {A} (l : list A) :
  l <> [] -> exists a, last_item l = Ok a.
Proof.
  intros Hl. unfold last_item.
  destruct (last l) as [a|] eqn:Hlast; [by exists a|].
  by apply last_None in Hlast.
Qed.

(** C10: the three read projections of the access log return for every
    identifier, known to the store or not, and never raise:
    [get_access_history] returns the recorded events, [get_access_count]
    their number and [get_last_access_time] the timestamp of the last one;
    when no event is recorded for the identifier (no log, or an empty one)
    they return the empty list, [0] and [None]. [get_embedding], in
    contrast, raises [KeyError] on an identifier the store does not know. *)
Theorem access_log_projections_total (s : EmbeddingStore) (h : string) :
  (exists events t,
     Store.get_access_history s h = Ok events /\
     Store.get_access_count s h = Ok (length events) /\
     Store.get_last_access_time s h = Ok t /\
     t = timestamp <$> last events) /\
  (s.(access_history) !! h = None \/ s.(access_history) !! h = Some [] ->
     Store.get_access_history s h = Ok [] /\
     Store.get_access_count s h = Ok 0 /\
     Store.get_last_access_time s h = Ok None) /\
  (s.(hash_id_to_idx) !! h = None ->
     Store.get_embedding s h = Raise KeyError).
Proof.
  split_and!.
  - exists (default [] (s.(access_history) !! h)).
    unfold Store.get_access_history, Store.get_access_count,
      Store.get_last_access_time.
    destruct (default [] (s.(access_history) !! h)) as [|a l] eqn:Hd.
    + exists None. by rewrite decide_True.
    + rewrite decide_False by done.
      destruct (last_item_nonempty (a :: l)) as [ev Hev]; [done|].
      exists (Some ev.(timestamp)). rewrite Hev. split_and!; try done.
      unfold last_item in Hev. by destruct (last (a :: l)); simplify_eq.
  - unfold Store.get_access_history, Store.get_access_count,
      Store.get_last_access_time.
    by intros [-> | ->].
  - intros Hidx. unfold Store.get_embedding, getitem. by rewrite Hidx.
Qed.
(** ** Activation engine: the context window and the exported state *)

Lemma deref_alloc (h : Heap) (l : list ContextEvent) :
  Manager.deref (h ++ [l]) (length h) = l.
Proof.
  unfold Manager.deref.
  by rewrite (list_lookup_middle h [] l (length h) eq_refl).
Qed.

Lemma deref_alloc_old (h : Heap) (l : list ContextEvent) (r : nat) :
  r < length h -> Manager.deref (h ++ [l]) r = Manager.deref h r.
Proof. intros Hr. unfold Manager.deref. by rewrite lookup_app_l. Qed.

(** C8: for every manager (configuration and window contents) and every
    fresh manager, [export_state] returns a state that [load_state] accepts
    on the fresh manager, and the restored manager has the window size, the
    three weights, the relevance threshold and the decay rate of the
    original and a window of equal contents; hence every call of
    [calculate_activation_score] gives on the restored manager what it gives
    on the original one for the same arguments. *)
Theorem export_load_round_trip (self fresh : Manager) (h : Heap) :
  exists h1 st h2 restored,
    Manager.export_state self h = (h1, Ok st) /\
    Manager.load_state st fresh h1 = (h2, Ok restored) /\
    restored.(context_window_size) = self.(context_window_size) /\
    restored.(recency_weight) = self.(recency_weight) /\
    restored.(frequency_weight) = self.(frequency_weight) /\
    restored.(relevance_weight) = self.(relevance_weight) /\
    restored.(relevance_threshold) = self.(relevance_threshold) /\
    restored.(decay_rate) = self.(decay_rate) /\
    Manager.deref h2 restored.(query_history)
      = Manager.deref h self.(query_history) /\
    forall now id history q m current_time,
      Manager.calculate_activation_score restored now id history q m
        current_time
      = Manager.calculate_activation_score self now id history q m
          current_time.
Proof.
  do 4 eexists. split; [reflexivity|]. split; [reflexivity|].
  simpl. split_and!; try reflexivity.
  apply deref_alloc.
Qed.

Lemma Reqb_false (x y : R) : x <> y -> Reqb x y = false.
Proof. intros Hxy. unfold Reqb. by destruct (Req_dec_T x y). Qed.

Lemma Reqb_true (x y : R) : x = y -> Reqb x y = true.
Proof. intros Hxy. unfold Reqb. by destruct (Req_dec_T x y). Qed.

Lemma Rleb_true (x y : R) : (x <= y)%R -> Rleb x y = true.
Proof. intros Hxy. unfold Rleb. by destruct (Rle_dec x y). Qed.

Lemma Rleb_false (x y : R) : (y < x)%R -> Rleb x y = false.
Proof. intros Hxy. unfold Rleb. destruct (Rle_dec x y); [lra|done]. Qed.













(** ** Vectors: the cosine lies between -1 and 1 *)

Lemma dot_sum_nonneg (v : list R) : (0 <= Np.dot_sum v v)%R.
Proof.
  induction v as [|x v IH]; simpl; [lra|].
  pose proof (Rle_0_sqr x) as Hx. unfold Rsqr in Hx. lra.
Qed.

Lemma cauchy_schwarz (u v : list R) :
  (Np.dot_sum u v * Np.dot_sum u v <= Np.dot_sum u u * Np.dot_sum v v)%R.
Proof.
  revert v. induction u as [|x u IH]; intros [|y v]; simpl.
  - lra.
  - lra.
  - pose proof (dot_sum_nonneg u) as Hu.
    pose proof (Rle_0_sqr x) as Hx. unfold Rsqr in Hx. nra.
  - specialize (IH v).
    pose proof (dot_sum_nonneg u) as Hu.
    pose proof (dot_sum_nonneg v) as Hv.
    set (a := Np.dot_sum u u) in *. set (b := Np.dot_sum v v) in *.
    set (c := Np.dot_sum u v) in *.
    assert (2 * c * x * y <= a * (y * y) + b * (x * x))%R as Hmix.
    { apply Rsqr_incr_0_var.
      - unfold Rsqr.
        pose proof (Rle_0_sqr (a * (y * y) - b * (x * x))) as Hsq.
        unfold Rsqr in Hsq.
        pose proof (Rle_0_sqr (x * y)) as Hxy. unfold Rsqr in Hxy.
        assert (c * c * (x * y * (x * y)) <= a * b * (x * y * (x * y)))%R
          by (apply Rmult_le_compat_r; lra).
        nra.
      - pose proof (Rle_0_sqr x) as Hx. pose proof (Rle_0_sqr y) as Hy.
        unfold Rsqr in *. nra. }
    nra.
Qed.

Lemma dot_sum_le_norms (u v : list R) :
  (Np.dot_sum u v <= Np.norm u * Np.norm v)%R /\
  (- (Np.norm u * Np.norm v) <= Np.dot_sum u v)%R.
Proof.
  pose proof (cauchy_schwarz u v) as Hcs.
  pose proof (dot_sum_nonneg u) as Hu. pose proof (dot_sum_nonneg v) as Hv.
  assert (0 <= Np.norm u * Np.norm v)%R as Hn.
  { apply Rmult_le_pos; apply sqrt_pos. }
  assert ((Np.norm u * Np.norm v)² = Np.dot_sum u u * Np.dot_sum v v)%R as Hsq.
  { unfold Np.norm. rewrite Rsqr_mult, !Rsqr_sqrt by done. done. }
  split.
  - apply Rsqr_incr_0_var; [|done]. rewrite Hsq. unfold Rsqr. lra.
  - apply Ropp_le_cancel. rewrite Ropp_involutive.
    apply Rsqr_incr_0_var; [|done]. rewrite Hsq, <- Rsqr_neg. unfold Rsqr. lra.
Qed.

(** In exact arithmetic the cosine similarity lies between [-1] and [1]
    (Cauchy-Schwarz); the arithmetic of the code does not keep the bound,
    see [cosine_similarity_exceeds_one_in_binary64] below. *)
Lemma cosine_similarity_bounds (u v : list R) (c : R) :
  Manager._cosine_similarity u v = Ok c -> (-1 <= c <= 1)%R.
Proof.
  unfold Manager._cosine_similarity, Np.dot.
  destruct (Reqb (Np.norm u) 0) eqn:Hu; simpl.
  { intros [= <-]. lra. }
  destruct (Reqb (Np.norm v) 0) eqn:Hv; simpl.
  { intros [= <-]. lra. }
  case_decide; simpl; [|done]. intros [= <-].
  unfold Reqb in Hu, Hv.
  destruct (Req_dec_T (Np.norm u) 0) as [|Hu']; [done|].
  destruct (Req_dec_T (Np.norm v) 0) as [|Hv']; [done|].
  assert (0 < Np.norm u * Np.norm v)%R as Hpos.
  { pose proof (sqrt_pos (Np.dot_sum u u)). pose proof (sqrt_pos (Np.dot_sum v v)).
    unfold Np.norm in *. apply Rmult_lt_0_compat; lra. }
  destruct (dot_sum_le_norms u v) as [Hle Hge].
  split.
  - apply Rmult_le_reg_r with (Np.norm u * Np.norm v)%R; [done|].
    unfold Rdiv. rewrite Rmult_assoc, Rinv_l by lra. lra.
  - apply Rmult_le_reg_r with (Np.norm u * Np.norm v)%R; [done|].
    unfold Rdiv. rewrite Rmult_assoc, Rinv_l by lra. lra.
Qed.

Lemma rbind_Ok {A B} (c : result A) (k : A -> result B) (b : B) :
  rbind c k = Ok b -> exists a, c = Ok a /\ k a = Ok b.
Proof. destruct c as [a|e]; simpl; [eauto|done]. Qed.

(** ** Activation scores *)

Lemma init_weights (size : Z) (w_rec w_freq w_rel thr decay : R)
    (h h' : Heap) (self : Manager) :
  Manager.__init__ size w_rec w_freq w_rel thr decay h = (h', Ok self) ->
  (w_rec + w_freq + w_rel <> 0)%R /\
  self = mkManager size (w_rec / (w_rec + w_freq + w_rel))
           (w_freq / (w_rec + w_freq + w_rel))
           (w_rel / (w_rec + w_freq + w_rel)) thr decay (length h) /\
  h' = h ++ [[]].
Proof.
  unfold Manager.__init__, Reqb.
  destruct (Req_dec_T _ 0) as [|Hne]; [done|].
  unfold bind, Manager.alloc, ret. simpl. by intros [= <- <-].
Qed.

Lemma context_frequency_bounds (n : nat) :
  (0 <= Rmin 1 (INR n / 5) <= 1)%R.
Proof.
  pose proof (pos_INR n) as Hn. unfold Rmin.
  destruct (Rle_dec 1 (INR n / 5)); lra.
Qed.

Lemma recency_bonus_bounds (decay now last : R) :
  (0 <= decay)%R -> (last <= now)%R ->
  (0 <= exp (- decay * ((now - last) / (24 * 3600))) <= 1)%R.
Proof.
  intros Hd Ht. split; [left; apply exp_pos|].
  rewrite <- exp_0.
  assert (0 <= decay * ((now - last) / (24 * 3600)))%R as Hprod.
  { apply Rmult_le_pos; [done|]. apply Rmult_le_pos; [lra|].
    left. apply Rinv_0_lt_compat. lra. }
  destruct (Req_dec_T (- decay * ((now - last) / (24 * 3600))) 0) as [->|Hne].
  - lra.
  - left. apply exp_increasing. lra.
Qed.

(** C4 (amended): for a manager built by the constructor from weights none of
    which is negative and whose sum is positive, with a decay rate that is
    not negative, and for any access history, any embeddings and any current
    time that is not earlier than the last recorded access, every score
    [calculate_activation_score] returns has a recency bonus and a context
    frequency in the unit interval and a semantic relevance that is not
    negative: it is the larger of zero and the cosine similarity computed
    for two arrays (zero when one of the embeddings is not an array), hence
    at most one whenever that cosine similarity is. The total activation is
    the combination of the three components under the normalized weights,
    which are not negative and sum to one; the recency bonus of an empty
    access history is zero. *)
Theorem activation_score_bounds
    (size : Z) (w_rec w_freq w_rel thr decay : R) (h h' : Heap)
    (self : Manager) (now : R) (id : string) (history : list AccessEvent)
    (q m : array_like) (current_time : option R) (sc : Scores) :
  valid_weights w_rec w_freq w_rel ->
  (0 <= decay)%R ->
  (forall ev, last history = Some ev ->
     (ev.(timestamp) <= default now current_time)%R) ->
  Manager.__init__ size w_rec w_freq w_rel thr decay h = (h', Ok self) ->
  Manager.calculate_activation_score self now id history q m current_time
    = Ok sc ->
  (0 <= sc.(semantic_relevance))%R /\
  (forall qv mv, q = NdArray qv -> m = NdArray mv ->
     exists c,
       Manager._cosine_similarity qv mv = Ok c /\
       sc.(semantic_relevance) = Rmax 0 c /\
       ((c <= 1)%R -> (sc.(semantic_relevance) <= 1)%R)) /\
  ((forall qv, q <> NdArray qv) \/ (forall mv, m <> NdArray mv) ->
     sc.(semantic_relevance) = 0%R) /\
  (0 <= sc.(recency_bonus) <= 1)%R /\
  (0 <= sc.(context_frequency) <= 1)%R /\
  (0 <= self.(relevance_weight))%R /\
  (0 <= self.(recency_weight))%R /\
  (0 <= self.(frequency_weight))%R /\
  (self.(relevance_weight) + self.(recency_weight)
   + self.(frequency_weight) = 1)%R /\
  sc.(total_activation)
  = (self.(relevance_weight) * sc.(semantic_relevance)
     + self.(recency_weight) * sc.(recency_bonus)
     + self.(frequency_weight) * sc.(context_frequency))%R /\
  (history = [] -> sc.(recency_bonus) = 0%R).
Proof.
  intros (Hrec & Hfreq & Hrel & Hsum) Hdecay Htime Hinit Hscore.
  apply init_weights in Hinit as (Hne & -> & _).
  unfold Manager.calculate_activation_score in Hscore.
  apply rbind_Ok in Hscore as (sem & Hsem & Hscore).
  apply rbind_Ok in Hscore as (rec & Hrecency & Hscore).
  injection Hscore as <-. simpl.
  assert ((0 <= sem)%R /\
          (forall qv mv, q = NdArray qv -> m = NdArray mv ->
             exists c,
               Manager._cosine_similarity qv mv = Ok c /\
               sem = Rmax 0 c /\ ((c <= 1)%R -> (sem <= 1)%R)) /\
          ((forall qv, q <> NdArray qv) \/ (forall mv, m <> NdArray mv) ->
             sem = 0%R)) as (Hsem_pos & Hsem_cos & Hsem_zero).
  { destruct q as [qv|qv], m as [mv|mv];
      try (injection Hsem as <-; split_and!; [lra| |done];
           intros qv' mv' Hq Hm; discriminate).
    apply rbind_Ok in Hsem as (c & Hc & [= <-]). split_and!.
    - apply Rmax_l.
    - intros qv' mv' [= <-] [= <-]. exists c. split_and!; [done|done|].
      intros Hle. apply Rmax_lub; lra.
    - intros [Hq|Hm]; [by destruct (Hq qv)|by destruct (Hm mv)]. }
  assert ((0 <= rec <= 1)%R /\ (history = [] -> rec = 0%R)) as [Hrec_bounds Hnil].
  { case_decide as Hhist.
    - injection Hrecency as <-. split; [lra|done].
    - apply rbind_Ok in Hrecency as (ev & Hev & [= <-]).
      split; [|done]. simpl. apply recency_bonus_bounds; [done|].
      apply Htime. unfold last_item in Hev.
      by destruct (last history); simplify_eq. }
  assert (0 < / (w_rec + w_freq + w_rel))%R as Hinv
    by (by apply Rinv_0_lt_compat).
  split_and!; try done; try lra.
  - case_decide; [lra|apply context_frequency_bounds].
  - case_decide; [lra|apply context_frequency_bounds].
  - unfold Rdiv. apply Rmult_le_pos; lra.
  - unfold Rdiv. apply Rmult_le_pos; lra.
  - unfold Rdiv. apply Rmult_le_pos; lra.
  - field. lra.
Qed.

(** The cosine similarity is at most one in exact arithmetic
    ([cosine_similarity_bounds]), not in the arithmetic of the code: for the
    vector [[1, 1, 1]] against itself the dot product is [3], both norms are
    the square root of [3] rounded, their product is below [3], and the
    quotient is the float next above [1], which [max(0, .)] keeps as the
    semantic relevance. *)
Example cosine_similarity_exceeds_one_in_binary64 :
  let ones := [PrimFloat.one; PrimFloat.one; PrimFloat.one] in
  Binary64._cosine_similarity ones ones
  = Ok (PrimFloat.next_up PrimFloat.one) /\
  PrimFloat.ltb PrimFloat.one (PrimFloat.next_up PrimFloat.one) = true.
Proof. split; reflexivity. Qed.

(** ** The sample objects, evaluated *)

Lemma sample_manager_init :
  Manager.__init__ 10 (3 / 10) (2 / 10) (5 / 10) (3 / 10) (1 / 100) []
  = ([[]], Ok Sample.manager).
Proof.
  unfold Manager.__init__. rewrite Reqb_false by lra. reflexivity.
Qed.

Lemma sample_store3 :
  Sample.store3.(hash_ids) = Sample.ids3 /\
  Sample.store3.(texts) = Sample.texts3 /\
  Sample.store3.(embeddings) = [[1; 0]; [1; 0]; [1; 0]]%R /\
  (Store.insert_strings (hasher := Sample.hasher) (model := Sample.model)
     Sample.texts3 (Store.new "mem")).2
  = Ok (Store.mkInsertReport 3 0 Sample.texts3).
Proof. vm_compute. done. Qed.

Lemma sample_accessed3 :
  Sample.accessed3.(hash_ids) = Sample.ids3 /\
  (forall id, id ∈ Sample.ids3 ->
     Store.get_embedding Sample.accessed3 id = Ok [1; 0]%R /\
     Store.get_access_history Sample.accessed3 id = Ok [Sample.access]).
Proof.
  split; [by vm_compute|].
  intros id Hid. unfold Sample.ids3 in Hid.
  rewrite !elem_of_cons, elem_of_nil in Hid.
  destruct Hid as [->|[->|[->|[]]]]; by vm_compute.
Qed.

Lemma norm_unit_x : Np.norm [1; 0]%R = 1%R.
Proof.
  unfold Np.norm. simpl.
  replace (1 * 1 + (0 * 0 + 0))%R with 1%R by lra. apply sqrt_1.
Qed.

Lemma norm_unit_y : Np.norm [0; 1]%R = 1%R.
Proof.
  unfold Np.norm. simpl.
  replace (0 * 0 + (1 * 1 + 0))%R with 1%R by lra. apply sqrt_1.
Qed.

Lemma cosine_orthogonal :
  Manager._cosine_similarity [0; 1]%R [1; 0]%R = Ok 0%R.
Proof.
  unfold Manager._cosine_similarity. rewrite norm_unit_x, norm_unit_y.
  rewrite Reqb_false by lra. simpl. f_equal. lra.
Qed.

Lemma exp_minus_10_small : (0 < exp (- 10) < 1 / 11)%R.
Proof.
  split; [apply exp_pos|].
  change (-10)%R with (Ropp 10). rewrite exp_Ropp.
  assert (11 < exp 10)%R as H by (pose proof (exp_ineq1 10); lra).
  unfold Rdiv. rewrite Rmult_1_l.
  apply Rinv_lt_contravar; [|done].
  apply Rmult_lt_0_compat; lra.
Qed.

Lemma sample_stale_score (id : string) :
  Manager.calculate_activation_score Sample.manager Sample.late id
    [Sample.access] Sample.query (NdArray [1; 0]%R) None
  = Ok (Sample.stale_score id).
Proof.
  unfold Manager.calculate_activation_score, Sample.query.
  rewrite cosine_orthogonal. simpl.
  unfold Manager._count_relevant_contexts. simpl.
  pose proof exp_minus_10_small as Hexp.
  assert (Rmax 0 0 = 0)%R as -> by (unfold Rmax; destruct (Rle_dec 0 0); lra).
  assert (Rmin 1 (0 / 5) = 0)%R as ->
    by (unfold Rmin; destruct (Rle_dec 1 (0 / 5)); lra).
  assert (- (1 / 100) * ((Sample.late - 0) / (24 * 3600)) = - 10)%R as ->
    by (unfold Sample.late; lra).
  unfold Sample.stale_score. f_equal. f_equal.
  - lra.
  - rewrite Rleb_false by lra. reflexivity.
Qed.

(** ** Insertion-ordered dictionaries *)

Lemma okeys_oset {V} (k : string) (v : V) (d : odict V) :
  okeys (oset k v d)
  = if decide (k ∈ okeys d) then okeys d else okeys d ++ [k].
Proof.
  unfold okeys. induction d as [|[k' v'] d IH]; [done|].
  cbn [oset]. rewrite fmap_cons. cbn [fst].
  destruct (decide (k = k')) as [->|Hne].
  - rewrite fmap_cons. cbn [fst].
    rewrite decide_True; [done|]. by left.
  - rewrite fmap_cons, IH. cbn [fst].
    destruct (decide (k ∈ d.*1)) as [Hin|Hnin].
    + rewrite decide_True; [done|]. by right.
    + rewrite decide_False; [done|].
      intros [?|?]%elem_of_cons; done.
Qed.

Lemma NoDup_okeys_oset {V} (k : string) (v : V) (d : odict V) :
  NoDup (okeys d) -> NoDup (okeys (oset k v d)).
Proof.
  intros Hd. rewrite okeys_oset. case_decide as Hin; [done|].
  apply NoDup_app. split_and!; [done| |apply NoDup_singleton].
  intros x Hx ->%list_elem_of_singleton. done.
Qed.

Lemma elem_of_oset {V} (h k : string) (sc v : V) (d : odict V) :
  (h, sc) ∈ oset k v d -> (h, sc) = (k, v) \/ (h, sc) ∈ d.
Proof.
  induction d as [|[k' v'] d IH]; simpl.
  - intros ->%list_elem_of_singleton. by left.
  - destruct (decide (k = k')) as [->|Hne].
    + intros [->|Hin]%elem_of_cons; [by left|]. right. by right.
    + intros [->|Hin]%elem_of_cons; [right; by left|].
      destruct (IH Hin) as [?|?]; [by left|]. right. by right.
Qed.

Lemma oget_Some_elem_of {V} (d : odict V) (k : string) (v : V) :
  oget d k = Some v -> (k, v) ∈ d.
Proof.
  induction d as [|[k' v'] d IH]; simpl; [done|].
  destruct (decide (k = k')) as [->|Hne].
  - intros [= ->]. by left.
  - intros Hget. right. by apply IH.
Qed.

Lemma elem_of_oget {V} (d : odict V) (k : string) (v : V) :
  NoDup (okeys d) -> (k, v) ∈ d -> oget d k = Some v.
Proof.
  unfold okeys. induction d as [|[k' v'] d IH]; simpl.
  - intros _ Hin. by apply elem_of_nil in Hin.
  - intros [Hk' Hd]%NoDup_cons [Heq|Hin]%elem_of_cons.
    + simplify_eq. by rewrite decide_True.
    + rewrite decide_False; [by apply IH|].
      intros ->. apply Hk'. apply list_elem_of_fmap. by exists (k', v).
Qed.

(** ** Ranking and forgetting *)

Lemma Rleb_spec (x y : R) : Rleb x y = true <-> (x <= y)%R.
Proof. unfold Rleb. by destruct (Rle_dec x y). Qed.

Lemma should_retain_spec (self : Manager) (now : R) (id : string)
    (history : list AccessEvent) (q m : array_like)
    (current_time : option R) (sc : Scores) :
  Manager.calculate_activation_score self now id history q m current_time
    = Ok sc ->
  (sc.(should_retain) = true <->
   (5 / 100 <= sc.(total_activation))%R \/ history = []).
Proof.
  unfold Manager.calculate_activation_score. intros Hscore.
  apply rbind_Ok in Hscore as (sem & _ & Hscore).
  apply rbind_Ok in Hscore as (rec & _ & Hscore).
  injection Hscore as <-. simpl.
  rewrite orb_true_iff, Rleb_spec, bool_decide_eq_true.
  by rewrite length_zero_iff_nil.
Qed.

Lemma batch_loop_spec (self : Manager) (clock : nat -> R)
    (store : EmbeddingStore) (q : array_like) (ids : list string) :
  forall (k : nat) (acc res : odict Scores),
    Manager.batch_loop self clock store q k ids acc = Ok res ->
    NoDup (okeys acc) ->
    NoDup (okeys res) /\
    (forall h, h ∈ okeys res <-> h ∈ okeys acc \/ h ∈ ids) /\
    (forall h sc, (h, sc) ∈ res ->
       (h, sc) ∈ acc \/ scored_by self clock store q h sc).
Proof.
  induction ids as [|id ids IH]; intros k acc res Hloop Hacc; simpl in Hloop.
  - injection Hloop as <-. split_and!; [done| |by left].
    intros h. rewrite elem_of_nil. tauto.
  - apply rbind_Ok in Hloop as (emb & Hemb & Hloop).
    apply rbind_Ok in Hloop as (scores & Hscores & Hloop).
    apply IH in Hloop as (Hres & Hkeys & Hitems);
      [|by apply NoDup_okeys_oset].
    split_and!; [done| |].
    + intros h. rewrite Hkeys, okeys_oset, elem_of_cons.
      case_decide as Hin.
      * split; [tauto|]. intros [?|[->|?]]; tauto.
      * rewrite elem_of_app, list_elem_of_singleton. tauto.
    + intros h sc Hin. destruct (Hitems h sc Hin) as [Hacc'|?]; [|by right].
      apply elem_of_oset in Hacc' as [[= -> ->]|?]; [|by left].
      right. by exists k, emb, (default [] (store.(access_history) !! id)).
Qed.

Lemma insert_desc_perm (x : string * Scores) (l : list (string * Scores)) :
  Manager.insert_desc x l ≡ₚ x :: l.
Proof.
  induction l as [|y l IH]; simpl; [done|].
  destruct (Rleb _ _); [done|]. rewrite IH. apply Permutation_swap.
Qed.

Lemma sorted_by_activation_perm (items : list (string * Scores)) :
  Manager.sorted_by_activation items ≡ₚ items.
Proof.
  unfold Manager.sorted_by_activation.
  induction items as [|x items IH]; simpl; [done|].
  by rewrite insert_desc_perm, IH.
Qed.

Lemma insert_desc_sorted (x : string * Scores) (l : list (string * Scores)) :
  StronglySorted outranks l -> StronglySorted outranks (Manager.insert_desc x l).
Proof.
  induction 1 as [|y l Hl IH Hy]; simpl.
  - repeat constructor.
  - destruct (Rleb _ _) eqn:Hle.
    + apply Rleb_spec in Hle. constructor; [by constructor|].
      constructor; [done|].
      eapply Forall_impl; [exact Hy|]. unfold outranks. intros z Hz. lra.
    + constructor; [done|]. rewrite insert_desc_perm.
      constructor; [|done]. unfold outranks.
      unfold Rleb in Hle. destruct (Rle_dec _ _); [done|]. lra.
Qed.

Lemma sorted_by_activation_sorted (items : list (string * Scores)) :
  StronglySorted outranks (Manager.sorted_by_activation items).
Proof.
  unfold Manager.sorted_by_activation.
  induction items as [|x items IH]; simpl; [constructor|].
  by apply insert_desc_sorted.
Qed.

Lemma py_int_nonneg (x : R) : (0 <= x)%R -> py_int x = Zfloor x.
Proof. intros Hx. unfold py_int. by destruct (Rle_dec 0 x). Qed.

Lemma elem_of_drop_inv {A} (n : nat) (l : list A) (x : A) :
  x ∈ drop n l -> x ∈ l.
Proof.
  intros Hx. rewrite <- (take_drop n l). apply elem_of_app. by right.
Qed.

Lemma batch_activation_spec (self : Manager) (clock : nat -> R)
    (store : EmbeddingStore) (q : array_like) (scores : odict Scores) :
  Manager.calculate_batch_activation self clock store q = Ok scores ->
  NoDup (okeys scores) /\
  (forall h, h ∈ okeys scores <-> h ∈ store.(hash_ids)) /\
  (forall h sc, (h, sc) ∈ scores -> scored_by self clock store q h sc).
Proof.
  unfold Manager.calculate_batch_activation, Store.get_all_ids.
  intros Hbatch.
  apply batch_loop_spec in Hbatch as (Hnodup & Hkeys & Hitems);
    [|constructor].
  split_and!; [done| |].
  - intros h. rewrite Hkeys. unfold okeys. simpl. rewrite elem_of_nil. tauto.
  - intros h sc Hin. destruct (Hitems h sc Hin) as [Hnil|?]; [|done].
    by apply elem_of_nil in Hnil.
Qed.

Lemma forget_spec (self : Manager) (clock : nat -> R)
    (store : EmbeddingStore) (q : array_like) (r : R)
    (forget : list string) :
  Manager.get_memories_to_forget self clock store q r = Ok forget ->
  exists scores,
    Manager.calculate_batch_activation self clock store q = Ok scores /\
    forget
    = (filter (fun item => item.2.(should_retain) = false)
         (drop (Z.to_nat (Manager.retain_count_of (length scores) r))
            (Manager.sorted_by_activation scores))).*1.
Proof.
  unfold Manager.get_memories_to_forget. intros Hforget.
  apply rbind_Ok in Hforget as (scores & Hscores & [= <-]).
  exists scores. split; [done|].
  by rewrite (Permutation_length (sorted_by_activation_perm scores)).
Qed.

(** C3: an identifier [get_memories_to_forget] returns has, in the batch of
    scores the call computed, a score whose [should_retain] is false; the
    record has been accessed (its access log is not empty) and its total
    activation is below [0.05]. For [calculate_activation_score] sets
    [should_retain] to true exactly when the total activation is at least
    [0.05] or the access history it was given is empty. *)
Theorem forgotten_records_not_retained (self : Manager) (clock : nat -> R)
    (store : EmbeddingStore) (q : array_like) (r : R)
    (forget : list string) :
  Manager.get_memories_to_forget self clock store q r = Ok forget ->
  (forall h, h ∈ forget ->
     exists scores sc events,
       Manager.calculate_batch_activation self clock store q = Ok scores /\
       oget scores h = Some sc /\
       sc.(should_retain) = false /\
       Store.get_access_history store h = Ok events /\
       events <> [] /\
       (sc.(total_activation) < 5 / 100)%R) /\
  (forall now id history q' m current_time sc,
     Manager.calculate_activation_score self now id history q' m
       current_time = Ok sc ->
     (sc.(should_retain) = true <->
      (5 / 100 <= sc.(total_activation))%R \/ history = [])).
Proof.
  intros Hforget. split; [|intros; by eapply should_retain_spec].
  intros h Hh.
  apply forget_spec in Hforget as (scores & Hscores & ->).
  destruct (batch_activation_spec _ _ _ _ _ Hscores) as (Hnodup & _ & Hitems).
  apply list_elem_of_fmap in Hh as ([h' sc] & -> & Hin).
  apply list_elem_of_filter in Hin as [Hflag Hin]. simpl in *.
  apply elem_of_drop_inv in Hin.
  rewrite sorted_by_activation_perm in Hin.
  destruct (Hitems h' sc Hin) as (k & emb & events & Hemb & Hevents & Hsc).
  exists scores, sc, events. split_and!; try done.
  - by apply elem_of_oget.
  - intros ->. apply should_retain_spec in Hsc.
    rewrite Hflag in Hsc. destruct Hsc as [_ Hsc]. by specialize (Hsc (or_intror eq_refl)).
  - apply should_retain_spec in Hsc. rewrite Hflag in Hsc.
    destruct Hsc as [_ Hsc].
    destruct (Rlt_dec (total_activation sc) (5 / 100)) as [|Hge]; [done|].
    exfalso. assert (true = false) by (symmetry; apply Hsc; left; lra).
    done.
Qed.

(** C2 (amended): for a retention ratio in (0,1], [get_memories_to_forget]
    ranks the scores of the store's identifiers (one per distinct
    identifier) by total activation, descending, retains the first
    [max(1, floor(total_count * retention_ratio))] of the ranking, and
    returns the identifiers of the rest whose [should_retain] is false: none
    of the retained ones, and no more than
    [total_count - max(1, floor(total_count * retention_ratio))]. *)
Theorem forget_quota_floor (self : Manager) (clock : nat -> R)
    (store : EmbeddingStore) (q : array_like) (r : R)
    (forget : list string) :
  (0 < r <= 1)%R ->
  Manager.get_memories_to_forget self clock store q r = Ok forget ->
  exists scores,
    Manager.calculate_batch_activation self clock store q = Ok scores /\
    NoDup (okeys scores) /\
    (forall h, h ∈ okeys scores <-> h ∈ store.(hash_ids)) /\
    let ranked := Manager.sorted_by_activation scores in
    let total_count := length scores in
    let retain_count :=
      Z.to_nat (Z.max 1 (Zfloor (INR total_count * r))) in
    ranked ≡ₚ scores /\
    StronglySorted outranks ranked /\
    forget
    = (filter (fun item => item.2.(should_retain) = false)
         (drop retain_count ranked)).*1 /\
    (forall h, h ∈ (take retain_count ranked).*1 -> h ∉ forget) /\
    length forget <= total_count - retain_count.
Proof.
  intros Hr Hforget.
  apply forget_spec in Hforget as (scores & Hscores & ->).
  destruct (batch_activation_spec _ _ _ _ _ Hscores) as (Hnodup & Hkeys & _).
  exists scores. split_and!; try done.
  intros ranked total_count retain_count.
  assert (Z.to_nat (Manager.retain_count_of (length scores) r) = retain_count)
    as ->.
  { unfold Manager.retain_count_of, retain_count, total_count.
    rewrite py_int_nonneg; [done|].
    apply Rmult_le_pos; [apply pos_INR|lra]. }
  assert (ranked ≡ₚ scores) as Hperm by apply sorted_by_activation_perm.
  split_and!.
  - done.
  - apply sorted_by_activation_sorted.
  - done.
  - intros h Htake Hdrop.
    assert (NoDup ranked.*1) as Hranked
      by (by rewrite Hperm).
    rewrite <- (take_drop retain_count ranked), fmap_app in Hranked.
    apply NoDup_app in Hranked as (_ & Hdisj & _).
    apply (Hdisj h Htake).
    apply list_elem_of_fmap in Hdrop as (item & -> & Hin).
    apply list_elem_of_filter in Hin as [_ Hin].
    apply list_elem_of_fmap. by exists item.
  - rewrite length_fmap.
    etrans; [apply length_filter|].
    rewrite length_drop. pose proof (Permutation_length Hperm) as Hlen.
    clearbody retain_count. unfold ranked, total_count in *. lia.
Qed.

Lemma sample_batch :
  Manager.calculate_batch_activation Sample.manager (fun _ => Sample.late)
    Sample.accessed3 Sample.query
  = Ok [("mem-alpha", Sample.stale_score "mem-alpha");
        ("mem-beta", Sample.stale_score "mem-beta");
        ("mem-gamma", Sample.stale_score "mem-gamma")].
Proof.
  destruct sample_accessed3 as [Hids Hrec].
  unfold Manager.calculate_batch_activation, Store.get_all_ids.
  rewrite Hids. unfold Sample.ids3.
  assert (forall id, id ∈ Sample.ids3 -> forall k acc rest,
            Manager.batch_loop Sample.manager (fun _ => Sample.late)
              Sample.accessed3 Sample.query k (id :: rest) acc
            = Manager.batch_loop Sample.manager (fun _ => Sample.late)
                Sample.accessed3 Sample.query (S k) rest
                (oset id (Sample.stale_score id) acc)) as Hstep.
  { intros id Hid k acc rest. destruct (Hrec id Hid) as [Hemb Hlog].
    cbn [Manager.batch_loop]. rewrite Hemb, Hlog. cbn [rbind].
    by rewrite sample_stale_score. }
  rewrite !Hstep
    by repeat first [apply list_elem_of_here | apply list_elem_of_further].
  cbn [Manager.batch_loop oset].
  repeat (case_decide as Heq; [by simplify_eq|]). reflexivity.
Qed.

Lemma sample_retain_count : Manager.retain_count_of 3 (1 / 2) = 1%Z.
Proof.
  unfold Manager.retain_count_of. simpl.
  rewrite py_int_nonneg by lra.
  rewrite (Zfloor_eq 1) by lra. done.
Qed.

Lemma sample_forget :
  Manager.get_memories_to_forget Sample.manager (fun _ => Sample.late)
    Sample.accessed3 Sample.query (1 / 2)
  = Ok ["mem-beta"; "mem-gamma"].
Proof.
  unfold Manager.get_memories_to_forget. rewrite sample_batch.
  cbn [rbind]. unfold Manager.sorted_by_activation.
  repeat (cbn [foldr Manager.insert_desc];
          rewrite Rleb_true by apply Rle_refl).
  cbn [length]. rewrite sample_retain_count. reflexivity.
Qed.

(** C2, as the specification states it, fails: of three records, each
    accessed once a thousand days ago and unrelated to the query, a
    retention ratio of one half retains [max(1, int(1.5)) = 1] and forgets
    two, more than [3 - ceil(1.5) = 1]. *)
Lemma forget_exceeds_ceiling_quota :
  Manager.__init__ 10 (3 / 10) (2 / 10) (5 / 10) (3 / 10) (1 / 100) []
  = ([[]], Ok Sample.manager) /\
  length Sample.accessed3.(hash_ids) = 3 /\
  Manager.get_memories_to_forget Sample.manager (fun _ => Sample.late)
    Sample.accessed3 Sample.query (1 / 2)
  = Ok ["mem-beta"; "mem-gamma"] /\
  (3 - Zceil (INR 3 * (1 / 2)) < Z.of_nat (length ["mem-beta"; "mem-gamma"]))%Z.
Proof.
  split_and!.
  - apply sample_manager_init.
  - by rewrite (proj1 sample_accessed3).
  - apply sample_forget.
  - rewrite (Zceil_eq 2); [simpl; lia|]. simpl. lra.
Qed.

Lemma forget_quota_floor_witness :
  exists scores,
    Manager.calculate_batch_activation Sample.manager (fun _ => Sample.late)
      Sample.accessed3 Sample.query = Ok scores /\
    NoDup (okeys scores) /\
    (forall h, h ∈ okeys scores <-> h ∈ Sample.accessed3.(hash_ids)) /\
    let ranked := Manager.sorted_by_activation scores in
    let total_count := length scores in
    let retain_count :=
      Z.to_nat (Z.max 1 (Zfloor (INR total_count * (1 / 2)))) in
    ranked ≡ₚ scores /\
    StronglySorted outranks ranked /\
    ["mem-beta"; "mem-gamma"]
    = (filter (fun item => item.2.(should_retain) = false)
         (drop retain_count ranked)).*1 /\
    (forall h, h ∈ (take retain_count ranked).*1 ->
       h ∉ ["mem-beta"; "mem-gamma"]) /\
    length ["mem-beta"; "mem-gamma"] <= total_count - retain_count.
Proof.
  apply (forget_quota_floor Sample.manager (fun _ => Sample.late)
           Sample.accessed3 Sample.query (1 / 2) ["mem-beta"; "mem-gamma"]).
  - lra.
  - apply sample_forget.
Defined.

Lemma forgotten_records_not_retained_witness :
  (forall h, h ∈ ["mem-beta"; "mem-gamma"] ->
     exists scores sc events,
       Manager.calculate_batch_activation Sample.manager
         (fun _ => Sample.late) Sample.accessed3 Sample.query = Ok scores /\
       oget scores h = Some sc /\
       sc.(should_retain) = false /\
       Store.get_access_history Sample.accessed3 h = Ok events /\
       events <> [] /\
       (sc.(total_activation) < 5 / 100)%R) /\
  (forall now id history q' m current_time sc,
     Manager.calculate_activation_score Sample.manager now id history q' m
       current_time = Ok sc ->
     (sc.(should_retain) = true <->
      (5 / 100 <= sc.(total_activation))%R \/ history = [])).
Proof.
  apply (forgotten_records_not_retained Sample.manager (fun _ => Sample.late)
           Sample.accessed3 Sample.query (1 / 2) ["mem-beta"; "mem-gamma"]).
  apply sample_forget.
Defined.

(** C4, as the specification states it, fails: a current time earlier than
    the last recorded access makes the recency bonus exceed one. Here the
    last access lies a hundred days after the current time and the bonus is
    [exp 1]. *)
Lemma recency_bonus_exceeds_one :
  Manager.__init__ 10 (3 / 10) (2 / 10) (5 / 10) (3 / 10) (1 / 100) []
  = ([[]], Ok Sample.manager) /\
  exists sc,
    Manager.calculate_activation_score Sample.manager 0 "mem-alpha"
      [Sample.future_access] Sample.query (NdArray [1; 0]%R) (Some 0%R)
    = Ok sc /\
    (1 < sc.(recency_bonus))%R.
Proof.
  split; [apply sample_manager_init|].
  unfold Manager.calculate_activation_score, Sample.query.
  rewrite cosine_orthogonal. simpl. eexists. split; [reflexivity|]. simpl.
  assert (- (1 / 100) * ((0 - 8640000) / (24 * 3600)) = 1)%R as -> by lra.
  pose proof (exp_ineq1 1). lra.
Qed.

Lemma activation_score_bounds_witness :
  let self := Sample.manager in
  let sc := Sample.stale_score "mem-alpha" in
  (0 <= sc.(semantic_relevance))%R /\
  (forall qv mv, Sample.query = NdArray qv -> NdArray [1; 0]%R = NdArray mv ->
     exists c,
       Manager._cosine_similarity qv mv = Ok c /\
       sc.(semantic_relevance) = Rmax 0 c /\
       ((c <= 1)%R -> (sc.(semantic_relevance) <= 1)%R)) /\
  ((forall qv, Sample.query <> NdArray qv)
   \/ (forall mv, NdArray [1; 0]%R <> NdArray mv) ->
     sc.(semantic_relevance) = 0%R) /\
  (0 <= sc.(recency_bonus) <= 1)%R /\
  (0 <= sc.(context_frequency) <= 1)%R /\
  (0 <= self.(relevance_weight))%R /\
  (0 <= self.(recency_weight))%R /\
  (0 <= self.(frequency_weight))%R /\
  (self.(relevance_weight) + self.(recency_weight)
   + self.(frequency_weight) = 1)%R /\
  sc.(total_activation)
  = (self.(relevance_weight) * sc.(semantic_relevance)
     + self.(recency_weight) * sc.(recency_bonus)
     + self.(frequency_weight) * sc.(context_frequency))%R /\
  ([Sample.access] = [] -> sc.(recency_bonus) = 0%R).
Proof.
  apply (activation_score_bounds 10 (3 / 10) (2 / 10) (5 / 10) (3 / 10)
           (1 / 100) [] [[]] Sample.manager Sample.late "mem-alpha"
           [Sample.access] Sample.query (NdArray [1; 0]%R) None
           (Sample.stale_score "mem-alpha")).
  - unfold valid_weights. lra.
  - lra.
  - intros ev [= <-]. simpl. unfold Sample.late. lra.
  - apply sample_manager_init.
  - apply sample_stale_score.
Defined.

(** ** Embedding store: the derived dictionaries *)

Lemma enumerate_snd {A} (l : list A) : (enumerate l).*2 = l.
Proof.
  unfold enumerate. rewrite fmap_imap.
  change (imap _ l) with (imap (const (fun x : A => x)) l).
  rewrite imap_const. apply list_fmap_id.
Qed.

Lemma foldl_idx_sound (l : list (nat * string)) (m0 : gmap string nat)
    (h : string) (i : nat) :
  foldl (fun m ih => <[ih.2 := ih.1]> m) m0 l !! h = Some i ->
  (i, h) ∈ l \/ m0 !! h = Some i.
Proof.
  revert m0. induction l as [|[i0 h0] l IH]; intros m0; simpl; [by right|].
  intros Hl. destruct (IH _ Hl) as [Hin|Hm0].
  - left. by right.
  - apply lookup_insert_Some in Hm0 as [[<- <-]|[_ Hm0]].
    + left. by left.
    + by right.
Qed.

Lemma foldl_idx_is_Some (l : list (nat * string)) (m0 : gmap string nat)
    (h : string) :
  h ∈ l.*2 \/ is_Some (m0 !! h) ->
  is_Some (foldl (fun m ih => <[ih.2 := ih.1]> m) m0 l !! h).
Proof.
  revert m0. induction l as [|[i0 h0] l IH]; intros m0; simpl.
  - intros [Hin|?]; [by apply elem_of_nil in Hin|done].
  - intros [Hin|Hm0]; apply IH.
    + apply elem_of_cons in Hin as [->|?]; [right|by left].
      rewrite lookup_insert_eq. by eexists.
    + right. destruct (decide (h0 = h)) as [->|Hne].
      * rewrite lookup_insert_eq. by eexists.
      * by rewrite lookup_insert_ne.
Qed.

Lemma foldl_idx_complete (l : list (nat * string)) (m0 : gmap string nat)
    (h : string) (i : nat) :
  NoDup l.*2 -> (i, h) ∈ l ->
  foldl (fun m ih => <[ih.2 := ih.1]> m) m0 l !! h = Some i.
Proof.
  revert m0. induction l as [|[i0 h0] l IH]; intros m0; simpl.
  - intros _ Hin. by apply elem_of_nil in Hin.
  - intros [Hh0 Hl]%NoDup_cons [[= -> ->]|Hin]%elem_of_cons.
    + destruct (foldl_idx_is_Some l (<[h0:=i0]> m0) h0) as [j Hj].
      { right. rewrite lookup_insert_eq. by eexists. }
      rewrite Hj. apply foldl_idx_sound in Hj as [Hin|Hj].
      * exfalso. apply Hh0. apply list_elem_of_fmap. by exists (j, h0).
      * rewrite lookup_insert_eq in Hj. done.
    + by apply IH.
Qed.

Lemma build_idx_sound (hs : list string) (h : string) (i : nat) :
  Store.build_hash_id_to_idx hs !! h = Some i -> hs !! i = Some h.
Proof.
  unfold Store.build_hash_id_to_idx. intros Hl.
  apply foldl_idx_sound in Hl as [Hin|Hempty]; [|done].
  by apply elem_of_enumerate.
Qed.

Lemma build_idx_is_Some (hs : list string) (h : string) :
  h ∈ hs -> is_Some (Store.build_hash_id_to_idx hs !! h).
Proof.
  intros Hin. apply foldl_idx_is_Some. left. by rewrite enumerate_snd.
Qed.

Lemma build_idx_complete (hs : list string) (h : string) (i : nat) :
  NoDup hs -> hs !! i = Some h -> Store.build_hash_id_to_idx hs !! h = Some i.
Proof.
  intros Hnd Hl. apply foldl_idx_complete.
  - by rewrite enumerate_snd.
  - by apply elem_of_enumerate.
Qed.

Lemma foldl_row_is_Some {B} (l : list (string * B)) (f : string * B -> Row)
    (m0 : gmap string Row) (h : string) :
  is_Some (foldl (fun m p => <[p.1 := f p]> m) m0 l !! h)
  <-> h ∈ l.*1 \/ is_Some (m0 !! h).
Proof.
  revert m0. induction l as [|[h0 b] l IH]; intros m0; simpl.
  - rewrite elem_of_nil. tauto.
  - rewrite IH, elem_of_cons. destruct (decide (h0 = h)) as [->|Hne].
    + rewrite lookup_insert_eq. split; [by left; left|]. intros _. right. by eexists.
    + rewrite lookup_insert_ne by done. split; [tauto|].
      intros [[->|?]|?]; tauto.
Qed.

Lemma build_row_is_Some (hs ts : list string) (es : list (list R))
    (h : string) :
  length hs = length ts -> length ts = length es ->
  (is_Some (Store.build_hash_id_to_row hs ts es !! h) <-> h ∈ hs).
Proof.
  intros Hts Hes. unfold Store.build_hash_id_to_row.
  rewrite (foldl_row_is_Some (zip hs (zip ts es))
             (fun hte => mkRow hte.1 hte.2.1)).
  rewrite fst_zip.
  - rewrite lookup_empty. split; [intros [?|[? ?]]; done|by left].
  - rewrite length_zip_with. lia.
Qed.

Lemma save_data_ok (s : EmbeddingStore) :
  parallel s -> Store._save_data s = (rebuilt s, Ok tt).
Proof.
  intros Hp. unfold Store._save_data, bind, get. simpl.
  by rewrite decide_True.
Qed.

Lemma save_data_inv (s s' : EmbeddingStore) :
  Store._save_data s = (s', Ok tt) -> parallel s /\ s' = rebuilt s.
Proof.
  unfold Store._save_data, bind, get. simpl.
  case_decide as Hp; [|done]. by intros [= <-].
Qed.

Lemma rebuilt_consistent (s : EmbeddingStore) :
  index_consistent (rebuilt s).
Proof.
  split; simpl.
  - apply build_idx_sound.
  - apply build_idx_is_Some.
Qed.

Lemma rebuilt_inv (s : EmbeddingStore) :
  parallel s -> NoDup s.(hash_ids) -> store_inv (rebuilt s).
Proof.
  intros Hp Hnd. split_and!; simpl; try done.
  - intros h i. split; [apply build_idx_sound|by apply build_idx_complete].
  - intros h. by apply build_row_is_Some; destruct Hp.
Qed.

(** ** Embedding store: [delete] *)

Lemma length_delete_eq {A B} (l : list A) (k : list B) (i : nat) :
  length l = length k -> length (delete i l) = length (delete i k).
Proof.
  revert k i. induction l as [|a l IH]; intros [|b k] [|i]; simpl; try done.
  - by intros [= ?].
  - intros [= ?]. f_equal. by apply IH.
Qed.

Lemma delete_at_ok (s : EmbeddingStore) (idx : nat) (h : string) :
  parallel s -> s.(hash_ids) !! idx = Some h ->
  Store.delete_at idx s = (popped [idx] s, Ok tt).
Proof.
  intros [Hts Hes] Hh. pose proof (lookup_lt_Some _ _ _ Hh) as Hlt.
  unfold Store.delete_at, popped, bind, get, put, lift, index, pop. simpl.
  rewrite Hh. simpl.
  repeat (case_decide; [|lia]). done.
Qed.

Lemma filter_all {A} (P : A -> Prop) `{forall x, Decision (P x)} (l : list A) :
  (forall x, x ∈ l -> P x) -> filter P l = l.
Proof.
  induction l as [|x l IH]; intros Hall; [done|].
  rewrite filter_cons_True by (apply Hall; by left).
  f_equal. apply IH. intros y Hy. apply Hall. by right.
Qed.

Lemma delete_is_filter (l : list string) (i : nat) (h : string) :
  NoDup l -> l !! i = Some h -> delete i l = filter (fun x => x <> h) l.
Proof.
  revert i. induction l as [|x l IH]; intros [|i] Hnd Hl; simpl in *; try done.
  - injection Hl as ->. apply NoDup_cons in Hnd as [Hh Hnd].
    rewrite filter_cons_False by (intros Hne; by apply Hne).
    symmetry. apply filter_all. intros y Hy ->. done.
  - apply NoDup_cons in Hnd as [Hx Hnd].
    rewrite filter_cons_True.
    + f_equal. by apply IH.
    + intros ->. apply Hx. by eapply list_elem_of_lookup_2.
Qed.

Lemma omap_lookup_delete {A} (l : list A) (i : nat) (idxs : list nat) :
  Forall (fun j => j < i) idxs ->
  omap (fun j => delete i l !! j) idxs = omap (fun j => l !! j) idxs.
Proof.
  induction 1 as [|j idxs Hj _ IH]; csimpl; [done|].
  rewrite list_lookup_delete_lt by done. by rewrite IH.
Qed.

Lemma delete_loop_ok (idxs : list nat) :
  forall s : EmbeddingStore,
    parallel s ->
    StronglySorted (fun a b => b < a) idxs ->
    Forall (fun i => i < length s.(hash_ids)) idxs ->
    for_each idxs Store.delete_at s = (popped idxs s, Ok tt).
Proof.
  induction idxs as [|i idxs IH]; intros s Hp Hsorted Hrange.
  - by destruct s.
  - apply StronglySorted_inv in Hsorted as [Hsorted Hlt].
    apply Forall_cons in Hrange as [Hi Hrange].
    destruct (lookup_lt_is_Some_2 _ _ Hi) as [h Hh].
    cbn [for_each]. unfold bind. rewrite (delete_at_ok s i h Hp Hh).
    rewrite IH; try done.
    + unfold popped. simpl. rewrite Hh. simpl.
      by rewrite omap_lookup_delete.
    + destruct Hp as [Hts Hes]. split; simpl; by apply length_delete_eq.
    + simpl. rewrite length_delete by (by eexists).
      eapply Forall_impl; [exact Hlt|]. simpl. intros j Hj. lia.
Qed.

Lemma delete_desc_filter (idxs : list nat) :
  forall l : list string,
    NoDup l ->
    StronglySorted (fun a b => b < a) idxs ->
    Forall (fun i => i < length l) idxs ->
    foldl (fun l i => delete i l) l idxs
    = filter (fun h => h ∉ omap (fun i => l !! i) idxs) l.
Proof.
  induction idxs as [|i idxs IH]; intros l Hnd Hsorted Hrange; simpl.
  - symmetry. apply filter_all. intros x _. apply not_elem_of_nil.
  - apply StronglySorted_inv in Hsorted as [Hsorted Hlt].
    apply Forall_cons in Hrange as [Hi Hrange].
    destruct (lookup_lt_is_Some_2 _ _ Hi) as [h Hh]. rewrite Hh. simpl.
    rewrite IH; try done.
    + rewrite omap_lookup_delete by done.
      rewrite (delete_is_filter l i h) by done.
      rewrite list_filter_filter. apply list_filter_iff.
      intros x. rewrite not_elem_of_cons. tauto.
    + rewrite (delete_is_filter l i h) by done. by apply NoDup_filter.
    + rewrite length_delete by (by eexists).
      eapply Forall_impl; [exact Hlt|]. simpl. intros j Hj. lia.
Qed.

Lemma foldl_delete_aligned {A B C} (idxs : list nat) :
  forall (l : list A) (k : list B) (m : list C) (i : nat),
    exists j,
      foldl (fun l i => delete i l) l idxs !! i = l !! j /\
      foldl (fun l i => delete i l) k idxs !! i = k !! j /\
      foldl (fun l i => delete i l) m idxs !! i = m !! j.
Proof.
  induction idxs as [|a idxs IH]; intros l k m i; simpl.
  - by exists i.
  - destruct (IH (delete a l) (delete a k) (delete a m) i)
      as (j & -> & -> & ->).
    rewrite !list_lookup_delete. case_decide; eauto.
Qed.

Lemma foldl_delete_lookup {V} (hs : list string) (m0 : gmap string V)
    (k : string) :
  foldl (fun m h => delete h m) m0 hs !! k
  = if decide (k ∈ hs) then None else m0 !! k.
Proof.
  revert m0. induction hs as [|h hs IH]; intros m0.
  - destruct (decide (k ∈ [])) as [Hin|]; [by apply elem_of_nil in Hin|done].
  - simpl. rewrite IH. destruct (decide (k ∈ hs)) as [Hin|Hnin].
    + rewrite decide_True; [done|by right].
    + destruct (decide (h = k)) as [->|Hne].
      * rewrite lookup_delete_eq. rewrite decide_True; [done|by left].
      * rewrite lookup_delete_ne by done. rewrite decide_False; [done|].
        intros [?|?]%elem_of_cons; done.
Qed.

(** [np.sort] and the reversal of its result. *)

Lemma insert_sorted_perm (n : nat) (l : list nat) :
  Np.insert_sorted n l ≡ₚ n :: l.
Proof.
  induction l as [|m l IH]; simpl; [done|].
  case_decide; [done|]. rewrite IH. apply Permutation_swap.
Qed.

Lemma sort_perm (l : list nat) : Np.sort l ≡ₚ l.
Proof.
  unfold Np.sort. induction l as [|n l IH]; simpl; [done|].
  by rewrite insert_sorted_perm, IH.
Qed.

Lemma insert_sorted_sorted (n : nat) (l : list nat) :
  StronglySorted le l -> StronglySorted le (Np.insert_sorted n l).
Proof.
  induction 1 as [|m l Hl IH Hm]; simpl.
  - repeat constructor.
  - case_decide as Hle.
    + constructor; [by constructor|]. constructor; [done|].
      eapply Forall_impl; [exact Hm|]. simpl. intros; lia.
    + constructor; [done|]. rewrite insert_sorted_perm.
      constructor; [lia|done].
Qed.

Lemma sort_sorted (l : list nat) : StronglySorted le (Np.sort l).
Proof.
  unfold Np.sort. induction l as [|n l IH]; simpl; [constructor|].
  by apply insert_sorted_sorted.
Qed.

Lemma StronglySorted_snoc {A} (R : A -> A -> Prop) (l : list A) (a : A) :
  StronglySorted R l -> Forall (fun x => R x a) l ->
  StronglySorted R (l ++ [a]).
Proof.
  induction 1 as [|x l Hl IH Hx]; intros Hall; simpl.
  - repeat constructor.
  - apply Forall_cons in Hall as [Hxa Hall].
    constructor; [by apply IH|].
    apply Forall_app. split; [done|]. by constructor.
Qed.

Lemma StronglySorted_rev {A} (R : A -> A -> Prop) (l : list A) :
  StronglySorted R l -> StronglySorted (fun a b => R b a) (rev l).
Proof.
  induction 1 as [|x l Hl IH Hx]; simpl; [constructor|].
  apply StronglySorted_snoc; [done|].
  apply Forall_forall. intros y Hy.
  rewrite Forall_forall in Hx. apply Hx.
  by apply list_elem_of_In, in_rev, list_elem_of_In.
Qed.

Lemma StronglySorted_strict (l : list nat) :
  StronglySorted (fun a b => b <= a) l -> NoDup l ->
  StronglySorted (fun a b => b < a) l.
Proof.
  induction 1 as [|x l Hl IH Hx]; intros Hnd; [constructor|].
  apply NoDup_cons in Hnd as [Hnin Hnd].
  constructor; [by apply IH|].
  apply Forall_forall. intros y Hy. rewrite Forall_forall in Hx.
  specialize (Hx y Hy). simpl in Hx.
  assert (y <> x) by (intros ->; done). lia.
Qed.

Lemma sorted_indices_descending (indices : list nat) :
  StronglySorted (fun a b => b <= a) (rev (Np.sort indices)) /\
  rev (Np.sort indices) ≡ₚ indices.
Proof.
  split.
  - apply (StronglySorted_rev le), sort_sorted.
  - by rewrite <- Permutation_rev, sort_perm.
Qed.

Lemma rmapM_getitem_ok (m : gmap string nat) (ids : list string) :
  (forall h, h ∈ ids -> is_Some (m !! h)) ->
  exists indices,
    rmapM (getitem m) ids = Ok indices /\
    Forall2 (fun h i => m !! h = Some i) ids indices.
Proof.
  induction ids as [|h ids IH]; intros Hknown; simpl.
  - by exists [].
  - destruct (Hknown h) as [i Hi]; [by left|].
    destruct IH as (indices & Hmap & Hall).
    { intros h' Hh'. apply Hknown. by right. }
    exists (i :: indices). unfold getitem at 1. rewrite Hi. simpl.
    rewrite Hmap. simpl. split; [done|by constructor].
Qed.

Lemma omap_lookup_Forall2 (l ids : list string) (indices : list nat) :
  Forall2 (fun h i => l !! i = Some h) ids indices ->
  omap (fun i => l !! i) indices = ids.
Proof.
  induction 1 as [|h i ids indices Hi _ IH]; csimpl; [done|].
  by rewrite Hi, IH.
Qed.

Lemma NoDup_indices (l ids : list string) (indices : list nat) :
  Forall2 (fun h i => l !! i = Some h) ids indices ->
  NoDup ids -> NoDup indices.
Proof.
  induction 1 as [|h i ids indices Hi Hall IH]; intros Hnd; [constructor|].
  apply NoDup_cons in Hnd as [Hh Hnd]. apply NoDup_cons. split; [|by apply IH].
  intros [j Hj]%list_elem_of_lookup.
  destruct (Forall2_lookup_r _ _ _ _ _ Hall Hj) as (h' & Hh' & Hl).
  simpl in Hl. simplify_eq. apply Hh. by eapply list_elem_of_lookup_2.
Qed.

Lemma length_foldl_delete_eq {A B} (idxs : list nat) :
  forall (l : list A) (k : list B),
    length l = length k ->
    length (foldl (fun l i => delete i l) l idxs)
    = length (foldl (fun l i => delete i l) k idxs).
Proof.
  induction idxs as [|i idxs IH]; intros l k Hlen; simpl; [done|].
  by apply IH, length_delete_eq.
Qed.

Lemma popped_parallel (idxs : list nat) (s : EmbeddingStore) :
  parallel s -> parallel (popped idxs s).
Proof.
  intros [Hts Hes]. split; simpl; by apply length_foldl_delete_eq.
Qed.

Lemma delete_spec (s : EmbeddingStore) (ids : list string) :
  store_inv s -> NoDup ids -> (forall h, h ∈ ids -> h ∈ s.(hash_ids)) ->
  exists s',
    Store.delete ids s = (s', Ok tt) /\
    store_inv s' /\
    s'.(hash_ids) = filter (fun h => h ∉ ids) s.(hash_ids) /\
    aligned s s' /\
    (forall k, s'.(access_history) !! k
               = if decide (k ∈ ids) then None else s.(access_history) !! k).
Proof.
  intros (Hp & Hnd & Hidx & Hrow) Hids Hknown.
  destruct (rmapM_getitem_ok s.(hash_id_to_idx) ids) as (indices & Hmap & Hall).
  { intros h Hh. destruct (list_elem_of_lookup_1 _ _ (Hknown h Hh)) as [i Hi].
    exists i. by apply Hidx. }
  assert (Forall2 (fun h i => s.(hash_ids) !! i = Some h) ids indices) as Hall'.
  { eapply Forall2_impl; [exact Hall|]. intros h i. apply Hidx. }
  pose proof (omap_lookup_Forall2 _ _ _ Hall') as Homap.
  pose proof (NoDup_indices _ _ _ Hall' Hids) as Hnd_indices.
  destruct (sorted_indices_descending indices) as [Hsorted Hperm].
  set (sorted := rev (Np.sort indices)) in *.
  assert (StronglySorted (fun a b => b < a) sorted) as Hstrict.
  { apply StronglySorted_strict; [done|]. by rewrite Hperm. }
  assert (Forall (fun i => i < length s.(hash_ids)) sorted) as Hrange.
  { rewrite Hperm. apply Forall_forall. intros i [j Hj]%list_elem_of_lookup.
    destruct (Forall2_lookup_r _ _ _ _ _ Hall' Hj) as (h & _ & Hl).
    by eapply lookup_lt_Some. }
  assert (forall x, x ∈ omap (fun i => s.(hash_ids) !! i) sorted <-> x ∈ ids)
    as Hmem.
  { intros x. by rewrite Hperm, Homap. }
  exists (rebuilt (popped sorted s)). split_and!.
  - unfold Store.delete, bind, get, lift. rewrite Hmap.
    fold sorted. rewrite (delete_loop_ok sorted s Hp Hstrict Hrange).
    by rewrite save_data_ok by by apply popped_parallel.
  - apply rebuilt_inv; [by apply popped_parallel|]. simpl.
    rewrite delete_desc_filter by done. by apply NoDup_filter.
  - simpl. rewrite delete_desc_filter by done.
    apply list_filter_iff. intros x. by rewrite Hmem.
  - intros i _. simpl. apply foldl_delete_aligned.
  - intros k. simpl. rewrite foldl_delete_lookup.
    destruct (decide (k ∈ ids)) as [Hin|Hnin].
    + rewrite decide_True; [done|]. by apply Hmem.
    + rewrite decide_False; [done|]. by rewrite Hmem.
Qed.

Lemma delete_returns_consistent (s s' : EmbeddingStore) (ids : list string) :
  Store.delete ids s = (s', Ok tt) -> parallel s' /\ index_consistent s'.
Proof.
  unfold Store.delete, bind, get, lift.
  destruct (rmapM _ ids) as [indices|e]; [|done].
  destruct (for_each _ _ s) as [s1 [[]|e]]; [|done].
  intros [Hp ->]%save_data_inv. split; [done|apply rebuilt_consistent].
Qed.

(** ** Embedding store: [insert_strings] *)

Section InsertStrings.
  Context {hasher : MdHash} {model : EmbeddingModel}.

Lemma nodes_dict_fold (ns : string) (txts : list string) :
  forall d : odict string,
    NoDup (okeys d) ->
    (forall h t, (h, t) ∈ d -> h = compute_mdhash_id t (ns ++ "-")) ->
    let d' := foldl (fun d text =>
                       oset (compute_mdhash_id text (ns ++ "-")) text d)
                d txts in
    NoDup (okeys d') /\
    (forall h t, (h, t) ∈ d' ->
       h = compute_mdhash_id t (ns ++ "-") /\ ((h, t) ∈ d \/ t ∈ txts)) /\
    (forall h, h ∈ okeys d' <->
       h ∈ okeys d \/ exists t, t ∈ txts /\ h = compute_mdhash_id t (ns ++ "-")).
Proof.
  induction txts as [|text txts IH]; intros d Hnd Hd; simpl.
  - split_and!; [done| |].
    + intros h t Hin. split; [by apply Hd|by left].
    + intros h. split; [by left|]. intros [?|(t & Ht & _)]; [done|].
      by apply elem_of_nil in Ht.
  - destruct (IH (oset (compute_mdhash_id text (ns ++ "-")) text d))
      as (Hnd' & Hitems & Hkeys).
    { by apply NoDup_okeys_oset. }
    { intros h t [[= -> ->]|Hin]%elem_of_oset; [done|by apply Hd]. }
    split_and!; [done| |].
    + intros h t Hin. destruct (Hitems h t Hin) as [Hh [Hin'|Ht]].
      * split; [done|].
        apply elem_of_oset in Hin' as [[= -> ->]|?]; [right; by left|by left].
      * split; [done|]. right. by right.
    + intros h. rewrite Hkeys, okeys_oset. split.
      * intros [Hin|(t & Ht & ->)].
        -- case_decide; [by left|].
           apply elem_of_app in Hin as [?| ->%list_elem_of_singleton];
             [by left|].
           right. exists text. split; [by left|done].
        -- right. exists t. split; [by right|done].
      * intros [Hin|(t & [->|Ht]%elem_of_cons & ->)].
        -- left. case_decide; [done|]. apply elem_of_app. by left.
        -- left. case_decide; [done|]. apply elem_of_app. right.
           by apply list_elem_of_singleton.
        -- right. by exists t.
Qed.

Lemma nodes_dict_spec (ns : string) (txts : list string) :
  NoDup (okeys (Store.nodes_dict_of ns txts)) /\
  (forall h t, (h, t) ∈ Store.nodes_dict_of ns txts ->
     h = compute_mdhash_id t (ns ++ "-") /\ t ∈ txts) /\
  (forall h, h ∈ okeys (Store.nodes_dict_of ns txts) <->
     exists t, t ∈ txts /\ h = compute_mdhash_id t (ns ++ "-")).
Proof.
  destruct (nodes_dict_fold ns txts []) as (Hnd & Hitems & Hkeys).
  { constructor. }
  { intros h t Hin. by apply elem_of_nil in Hin. }
  split_and!; [done| |].
  - intros h t Hin. destruct (Hitems h t Hin) as [Hh [Hnil|Ht]]; [|done].
    by apply elem_of_nil in Hnil.
  - intros h. rewrite Hkeys. split; [|by right].
    intros [Hnil|?]; [|done]. by apply elem_of_nil in Hnil.
Qed.

Lemma rmapM_ogetitem_ok {V} (d : odict V) (hs : list string) :
  (forall h, h ∈ hs -> h ∈ okeys d) ->
  exists vs,
    rmapM (ogetitem d) hs = Ok vs /\
    Forall2 (fun h v => (h, v) ∈ d) hs vs.
Proof.
  induction hs as [|h hs IH]; intros Hkeys; simpl.
  - by exists [].
  - destruct IH as (vs & Hmap & Hall).
    { intros h' Hh'. apply Hkeys. by right. }
    assert (exists v, oget d h = Some v) as [v Hv].
    { specialize (Hkeys h (list_elem_of_here _ _)).
      apply list_elem_of_fmap in Hkeys as ([h' v] & -> & Hin). simpl.
      clear -Hin. induction d as [|[k w] d IHd]; [by apply elem_of_nil in Hin|].
      simpl. case_decide; [by eexists|]. apply IHd.
      apply elem_of_cons in Hin as [[= ? ?]|?]; [by simplify_eq|done]. }
    exists (v :: vs). unfold ogetitem at 1. rewrite Hv. simpl.
    rewrite Hmap. simpl. split; [done|]. constructor; [|done].
    by apply oget_Some_elem_of.
Qed.

Lemma insert_spec (s : EmbeddingStore) (txts : list string) :
  store_inv s -> encodes_each model ->
  let missing :=
    filter (fun h => s.(hash_id_to_row) !! h = None)
      (okeys (Store.nodes_dict_of s.(namespace) txts)) in
  exists s' rep,
    Store.insert_strings txts s = (s', Ok rep) /\
    store_inv s' /\
    s'.(namespace) = s.(namespace) /\
    s'.(hash_ids) = s.(hash_ids) ++ missing /\
    s'.(texts) = s.(texts) ++ rep.(Store.encoded) /\
    s'.(embeddings) = s.(embeddings) ++ batch_encode rep.(Store.encoded) /\
    s'.(access_history) = s.(access_history) /\
    rep.(Store.inserted) = length missing /\
    Forall2 (fun h t => h = compute_mdhash_id t (s.(namespace) ++ "-")
                        /\ t ∈ txts) missing rep.(Store.encoded) /\
    (missing = [] -> s' = s).
Proof.
  intros (Hp & Hnd & Hidx & Hrow) Hmodel missing.
  destruct (nodes_dict_spec s.(namespace) txts) as (Hkeys_nd & Hitems & Hkeys).
  assert (batch_encode [] = []) as Hnil
    by (apply length_zero_iff_nil; by rewrite Hmodel).
  unfold Store.insert_strings, bind, get. simpl.
  case_decide as Hall.
  { exists s, (Store.mkInsertReport 0 0 []).
    assert (missing = []) as Hmissing by (unfold missing; by rewrite Hall).
    simpl. rewrite Hmissing, Hnil, !app_nil_r.
    split_and!; done. }
  fold missing. case_decide as Hmissing.
  { eexists s, _. split; [reflexivity|]. simpl.
    rewrite Hmissing, Hnil, !app_nil_r. simpl.
    split_and!; done. }
  destruct (rmapM_ogetitem_ok (Store.nodes_dict_of s.(namespace) txts) missing)
    as (enc & Hmap & Henc).
  { intros h Hh. by apply list_elem_of_filter in Hh as [_ ?]. }
  unfold lift. rewrite Hmap.
  pose proof (Forall2_length _ _ _ Henc) as Hlen.
  unfold Store._upsert, bind, get, put. simpl.
  rewrite save_data_ok.
  2:{ destruct Hp as [Hts Hes]. split; simpl;
        rewrite !length_app, ?Hmodel; lia. }
  eexists _, _. split; [reflexivity|]. simpl.
  split_and!; try done.
  - apply rebuilt_inv.
    + destruct Hp as [Hts Hes]. split; simpl;
        rewrite !length_app, ?Hmodel; lia.
    + simpl. apply NoDup_app. split_and!; [done| |].
      * intros h Hh Hh'. apply list_elem_of_filter in Hh' as [Hnone _].
        apply Hrow in Hh. rewrite Hnone in Hh. by destruct Hh.
      * by apply NoDup_filter.
  - eapply Forall2_impl; [exact Henc|]. intros h t Hin. by apply Hitems.
Qed.

End InsertStrings.

(** ** Embedding store: consistency and idempotence *)

Lemma new_inv (ns : string) : store_inv (Store.new ns).
Proof.
  unfold store_inv, parallel. simpl.
  split; [done|]. split; [constructor|]. split.
  - intros h i. by rewrite lookup_empty, lookup_nil.
  - intros h. rewrite lookup_empty, elem_of_nil. split; [by intros [? ?]|done].
Qed.

Lemma insert_returns_consistent {hasher : MdHash} {model : EmbeddingModel}
    (s s' : EmbeddingStore) (txts : list string) (rep : Store.InsertReport) :
  parallel s -> index_consistent s ->
  Store.insert_strings txts s = (s', Ok rep) ->
  parallel s' /\ index_consistent s'.
Proof.
  intros Hp Hc. unfold Store.insert_strings, bind, get, lift. simpl.
  case_decide; [by intros [= <- _]|].
  case_decide; [by intros [= <- _]|].
  destruct (rmapM _ _) as [enc|e]; [|done].
  unfold Store._upsert, bind, get, put. simpl.
  destruct (Store._save_data _) as [s1 [[]|e]] eqn:Hsave; [|done].
  intros [= <- _]. apply save_data_inv in Hsave as [Hp' ->].
  split; [done|apply rebuilt_consistent].
Qed.

Lemma filter_none {A} (P : A -> Prop) `{forall x, Decision (P x)}
    (l : list A) :
  (forall x, x ∈ l -> ~ P x) -> filter P l = [].
Proof.
  induction l as [|x l IH]; intros Hnone; [done|].
  rewrite filter_cons_False by (apply Hnone; by left).
  apply IH. intros y Hy. apply Hnone. by right.
Qed.

Lemma pop_keeps_lower_positions {A} (l l' : list A) (idx j : nat) :
  pop l idx = Ok l' -> j < idx -> l' !! j = l !! j.
Proof.
  unfold pop. case_decide; [|done]. intros [= <-] Hj.
  by apply list_lookup_delete_lt.
Qed.

(** X23: after [insert_strings] and after [delete] have returned, the three
    sequences of identifiers, texts and embeddings have equal length and the
    identifier-to-index mapping agrees with the identifier sequence (for
    [insert_strings], which returns early when it adds nothing, provided
    they did before). [delete] runs over the requested indices sorted in
    descending order, and a [pop] leaves every lower position as it was: on
    a store without repeated identifiers, asked to delete distinct
    identifiers it knows, [delete] returns, removes exactly the requested
    identifiers and their access logs, and keeps every other record with
    its text and embedding. *)
Theorem store_sequences_stay_consistent
    {hasher : MdHash} {model : EmbeddingModel} :
  (forall s txts s' rep,
     parallel s -> index_consistent s ->
     Store.insert_strings txts s = (s', Ok rep) ->
     parallel s' /\ index_consistent s') /\
  (forall s ids s',
     Store.delete ids s = (s', Ok tt) ->
     parallel s' /\ index_consistent s') /\
  (forall indices,
     StronglySorted (fun a b => b <= a) (rev (Np.sort indices)) /\
     rev (Np.sort indices) ≡ₚ indices) /\
  (forall (l l' : list string) idx j,
     pop l idx = Ok l' -> j < idx -> l' !! j = l !! j) /\
  (forall s ids,
     store_inv s -> NoDup ids -> (forall h, h ∈ ids -> h ∈ s.(hash_ids)) ->
     exists s',
       Store.delete ids s = (s', Ok tt) /\
       store_inv s' /\
       s'.(hash_ids) = filter (fun h => h ∉ ids) s.(hash_ids) /\
       aligned s s' /\
       (forall k, s'.(access_history) !! k
                  = if decide (k ∈ ids) then None
                    else s.(access_history) !! k)).
Proof.
  split_and!.
  - intros s txts s' rep. apply insert_returns_consistent.
  - intros s ids s'. apply delete_returns_consistent.
  - apply sorted_indices_descending.
  - intros l l' idx j. apply pop_keeps_lower_positions.
  - apply delete_spec.
Qed.

(** The store of three accessed records loses its middle record. *)
Example delete_middle_record :
  let s' := (Store.delete ["mem-beta"] Sample.accessed3).1 in
  (Store.delete ["mem-beta"] Sample.accessed3).2 = Ok tt /\
  s'.(hash_ids) = ["mem-alpha"; "mem-gamma"] /\
  s'.(texts) = ["alpha"; "gamma"] /\
  s'.(hash_id_to_idx) !! "mem-gamma" = Some 1 /\
  s'.(access_history) !! "mem-beta" = None.
Proof. vm_compute. done. Qed.

(** C9: upserting a text twice, in one call or in two, leaves exactly one
    record under the text's content-hash identifier. After a call of
    [insert_strings] that contained the text, a second call that contains it
    does not hand it to the embedding model and leaves every stored record,
    with its text and embedding, where it was; when every text of the second
    call was in the first, the second call inserts nothing, encodes nothing
    and leaves the store unchanged. *)
Theorem upsert_idempotent {hasher : MdHash} {model : EmbeddingModel}
    (s : EmbeddingStore) (txts txts' : list string) (t : string) :
  store_inv s -> encodes_each model -> t ∈ txts -> t ∈ txts' ->
  let h := compute_mdhash_id t (s.(namespace) ++ "-") in
  exists s1 rep1 s2 rep2,
    Store.insert_strings txts s = (s1, Ok rep1) /\
    Store.insert_strings txts' s1 = (s2, Ok rep2) /\
    length (filter (fun x => x = h) s1.(hash_ids)) = 1 /\
    length (filter (fun x => x = h) s2.(hash_ids)) = 1 /\
    (t ∉ rep2.(Store.encoded)) /\
    (forall i, i < length s1.(hash_ids) ->
       s2.(hash_ids) !! i = s1.(hash_ids) !! i /\
       s2.(texts) !! i = s1.(texts) !! i /\
       s2.(embeddings) !! i = s1.(embeddings) !! i) /\
    ((forall t', t' ∈ txts' -> t' ∈ txts) ->
       s2 = s1 /\ rep2.(Store.inserted) = 0 /\ rep2.(Store.encoded) = []).
Proof.
  intros Hinv Hmodel Ht Ht' h.
  destruct (insert_spec s txts Hinv Hmodel)
    as (s1 & rep1 & Hins1 & Hinv1 & Hns1 & Hids1 & _ & _ & _ & _ & Henc1 & _).
  destruct (insert_spec s1 txts' Hinv1 Hmodel)
    as (s2 & rep2 & Hins2 & Hinv2 & Hns2 & Hids2 & Htxt2 & Hemb2 & _
        & Hcount2 & Henc2 & Hsame2).
  destruct (nodes_dict_spec s.(namespace) txts) as (_ & _ & Hkeys).
  destruct Hinv as (Hp & Hnd & Hidx & Hrow).
  assert (forall u, u ∈ txts ->
            compute_mdhash_id u (s.(namespace) ++ "-") ∈ s1.(hash_ids))
    as Hstored.
  { intros u Hu. rewrite Hids1.
    destruct (decide (compute_mdhash_id u (s.(namespace) ++ "-")
                      ∈ s.(hash_ids))) as [Hin|Hnin].
    - apply elem_of_app. by left.
    - apply elem_of_app. right. apply list_elem_of_filter. split.
      + apply eq_None_not_Some. by rewrite Hrow.
      + apply Hkeys. by exists u. }
  assert (forall l : list string, NoDup l -> h ∈ l ->
            length (filter (fun x => x = h) l) = 1) as Honce.
  { intros l Hl Hin. induction Hl as [|x l Hx Hl IH].
    - by apply elem_of_nil in Hin.
    - destruct (decide (x = h)) as [->|Hne].
      + rewrite filter_cons_True by done. simpl. f_equal.
        apply length_zero_iff_nil. apply filter_none.
        intros y Hy ->. done.
      + rewrite filter_cons_False by done. apply IH.
        apply elem_of_cons in Hin as [?|?]; [by subst|done]. }
  exists s1, rep1, s2, rep2. split_and!; try done.
  - apply Honce; [by destruct Hinv1 as (_ & ? & _)|by apply Hstored].
  - apply Honce; [by destruct Hinv2 as (_ & ? & _)|].
    rewrite Hids2. apply elem_of_app. left. by apply Hstored.
  - intros [j Hj]%list_elem_of_lookup.
    destruct (Forall2_lookup_r _ _ _ _ _ Henc2 Hj) as (h' & Hh' & -> & _).
    apply list_elem_of_lookup_2, list_elem_of_filter in Hh' as [Hnone _].
    destruct Hinv1 as (_ & _ & _ & Hrow1).
    assert (is_Some (s1.(hash_id_to_row)
                     !! compute_mdhash_id t (s1.(namespace) ++ "-"))) as [? Hsome].
    { apply Hrow1. rewrite Hns1. by apply Hstored. }
    by rewrite Hnone in Hsome.
  - intros i Hi. destruct Hinv1 as ([Hts1 Hes1] & _).
    rewrite Hids2, Htxt2, Hemb2. rewrite !lookup_app_l by lia. done.
  - intros Hsub. assert (filter (fun h => s1.(hash_id_to_row) !! h = None)
                           (okeys (Store.nodes_dict_of s1.(namespace) txts'))
                         = []) as Hnone.
    { apply filter_none. intros k Hk Hnone.
      apply (nodes_dict_spec s1.(namespace) txts') in Hk as (u & Hu & ->).
      destruct Hinv1 as (_ & _ & _ & Hrow1).
      assert (is_Some (s1.(hash_id_to_row)
                       !! compute_mdhash_id u (s1.(namespace) ++ "-")))
        as [? Hsome].
      { apply Hrow1. rewrite Hns1. by apply Hstored, Hsub. }
      by rewrite Hnone in Hsome. }
    rewrite Hnone in Hcount2, Henc2. apply Forall2_nil_inv_l in Henc2.
    split_and!; [by apply Hsame2|done|done].
Qed.

Lemma sample_model_encodes_each : encodes_each Sample.model.
Proof. intros txts. unfold batch_encode, Sample.model. apply length_fmap. Qed.

Lemma upsert_idempotent_witness :
  let h := Sample.hasher "alpha" "mem-" in
  exists s1 rep1 s2 rep2,
    Store.insert_strings (hasher := Sample.hasher) (model := Sample.model)
      ["alpha"; "beta"; "alpha"] (Store.new "mem") = (s1, Ok rep1) /\
    Store.insert_strings (hasher := Sample.hasher) (model := Sample.model)
      ["alpha"] s1 = (s2, Ok rep2) /\
    length (filter (fun x => x = h) s1.(hash_ids)) = 1 /\
    length (filter (fun x => x = h) s2.(hash_ids)) = 1 /\
    ("alpha" ∉ rep2.(Store.encoded)) /\
    (forall i, i < length s1.(hash_ids) ->
       s2.(hash_ids) !! i = s1.(hash_ids) !! i /\
       s2.(texts) !! i = s1.(texts) !! i /\
       s2.(embeddings) !! i = s1.(embeddings) !! i) /\
    ((forall t', t' ∈ ["alpha"] -> t' ∈ ["alpha"; "beta"; "alpha"]) ->
       s2 = s1 /\ rep2.(Store.inserted) = 0 /\ rep2.(Store.encoded) = []).
Proof.
  apply (upsert_idempotent (hasher := Sample.hasher) (model := Sample.model)
           (Store.new "mem") ["alpha"; "beta"; "alpha"] ["alpha"] "alpha").
  - apply new_inv.
  - apply sample_model_encodes_each.
  - by left.
  - by left.
Defined.

(* ===================================================================== *)
(** * Part IV: further properties of the code                              *)
(* ===================================================================== *)

(** ** Conflict resolver: batches and the summary *)

Lemma zindex_in_range {A} (l : list A) (i : Z) :
  in_range l i -> exists a, zindex l i = Ok a.
Proof.
  unfold in_range, zindex, index. intros Hi.
  case_decide.
  - destruct (lookup_lt_is_Some_2 l (Z.to_nat i)) as [a Ha]; [lia|].
    rewrite Ha. by exists a.
  - rewrite decide_True by lia.
    destruct (lookup_lt_is_Some_2 l (Z.to_nat (Z.of_nat (length l) + i)))
      as [a Ha]; [lia|].
    rewrite Ha. by exists a.
Qed.

Lemma zindex_out_of_range {A} (l : list A) (i : Z) :
  ~ in_range l i -> zindex l i = Raise IndexError.
Proof.
  unfold in_range, zindex, index. intros Hi.
  case_decide.
  - rewrite lookup_ge_None_2; [done|lia].
  - case_decide; [|done]. lia.
Qed.

Lemma zindex_of_nat {A} (l : list A) (i : nat) (a : A) :
  l !! i = Some a -> zindex l (Z.of_nat i) = Ok a.
Proof.
  intros Hl. unfold zindex, index. rewrite decide_True by lia.
  by rewrite Nat2Z.id, Hl.
Qed.

Lemma resolve_conflict_returns (now : R) (old new : Fact)
    (old_id new_id : string) (oc nc : Z) (strategy : string)
    (self : ConflictResolver) :
  exists record,
    Resolver.resolve_conflict now old new old_id new_id oc nc (Some strategy)
      self
    = (mkResolver self.(default_strategy) self.(enable_audit_log)
         self.(audit_log_file) (self.(conflict_history) ++ [record]),
       Ok record) /\
    record.(old_fact) = old /\ record.(new_fact) = new /\
    record.(old_hash_id) = old_id /\ record.(new_hash_id) = new_id /\
    record.(resolution_strategy) = strategy.
Proof.
  unfold Resolver.resolve_conflict, bind, get, put, ret. simpl.
  repeat case_decide; eexists; (split; [reflexivity|done]).
Qed.

Section Batches.
  Context {fact_key : FactStr}.
  Variables (clock : nat -> R) (existing new : list Fact)
    (fact_to_hash_id : gmap string string) (access_counts : gmap string Z)
    (strategy : string).

Lemma resolve_loop_inv (conflicts : list (Z * Z)) :
  forall k results self self' res,
    Resolver.resolve_loop clock k conflicts existing new fact_to_hash_id
      access_counts strategy results self = (self', Ok res) ->
    exists records,
      res.(conflicts_detected) = results.(conflicts_detected) /\
      res.(conflict_records) = results.(conflict_records) ++ records /\
      self'.(conflict_history) = self.(conflict_history) ++ records /\
      Forall2 (fun c r =>
                 zindex existing c.1 = Ok r.(old_fact) /\
                 zindex new c.2 = Ok r.(new_fact) /\
                 r.(resolution_strategy) = strategy)
        conflicts records /\
      res.(facts_to_delete)
      = results.(facts_to_delete)
        ++ (if decide (strategy = "keep_new") then old_hash_id <$> records
            else if decide (strategy = "keep_old")
                 then new_hash_id <$> records else []) /\
      res.(facts_to_merge)
      = results.(facts_to_merge)
        ++ (if decide (strategy = "merge")
            then (fun r => mkMergeEntry r.(old_hash_id) r.(new_hash_id)
                             r.(resolution_result)) <$> records
            else []).
Proof.
  induction conflicts as [|c conflicts IH]; intros k results self self' res.
  - simpl. intros [= <- <-]. exists [].
    rewrite !app_nil_r. split_and!; try done; repeat case_decide; by rewrite ?app_nil_r.
  - cbn [Resolver.resolve_loop]. unfold bind at 1, lift at 1.
    destruct (zindex existing c.1) as [o|e] eqn:Ho; [|done].
    unfold bind at 1, lift at 1.
    destruct (zindex new c.2) as [n|e] eqn:Hn; [|done].
    unfold bind at 1.
    destruct (resolve_conflict_returns (clock k) o n
                (default "unknown" (fact_to_hash_id !! fact_str o))
                (default "unknown" (fact_to_hash_id !! fact_str n))
                (default 0%Z (access_counts
                                !! default "unknown" (fact_to_hash_id !! fact_str o)))
                (default 0%Z (access_counts
                                !! default "unknown" (fact_to_hash_id !! fact_str n)))
                strategy self)
      as (r & -> & Hro & Hrn & Hroid & Hrnid & Hrs).
    intros Hloop. apply IH in Hloop
      as (records & Hcd & Hcr & Hhist & Hall & Hdel & Hmrg).
    simpl in *. exists (r :: records).
    rewrite Hcr, Hhist, Hdel, Hmrg, <- !app_assoc. simpl.
    split_and!; try done.
    + constructor; [|done]. by rewrite Hro, Hrn.
    + repeat case_decide; simplify_eq; simpl;
        by rewrite ?Hroid, ?Hrnid, <- ?app_assoc, ?app_nil_r.
    + repeat case_decide; simplify_eq; simpl;
        by rewrite ?Hroid, ?Hrnid, <- ?app_assoc, ?app_nil_r.
Qed.

Lemma resolve_loop_total (conflicts : list (Z * Z)) :
  Forall (valid_conflict existing new) conflicts ->
  forall k results self,
    exists self' res,
      Resolver.resolve_loop clock k conflicts existing new fact_to_hash_id
        access_counts strategy results self = (self', Ok res).
Proof.
  induction 1 as [|c conflicts [Hc1 Hc2] _ IH]; intros k results self.
  - by eexists _, _.
  - cbn [Resolver.resolve_loop]. unfold bind at 1, lift at 1.
    destruct (zindex_in_range _ _ Hc1) as [o ->].
    unfold bind at 1, lift at 1.
    destruct (zindex_in_range _ _ Hc2) as [n ->].
    unfold bind at 1.
    destruct (resolve_conflict_returns (clock k) o n
                (default "unknown" (fact_to_hash_id !! fact_str o))
                (default "unknown" (fact_to_hash_id !! fact_str n))
                (default 0%Z (access_counts
                                !! default "unknown" (fact_to_hash_id !! fact_str o)))
                (default 0%Z (access_counts
                                !! default "unknown" (fact_to_hash_id !! fact_str n)))
                strategy self)
      as (r & -> & _).
    apply IH.
Qed.

Lemma resolve_loop_fails (pre post : list (Z * Z)) (c : Z * Z) :
  Forall (valid_conflict existing new) pre ->
  ~ valid_conflict existing new c ->
  forall k results self,
    exists self' records,
      Resolver.resolve_loop clock k (pre ++ c :: post) existing new
        fact_to_hash_id access_counts strategy results self
      = (self', Raise IndexError) /\
      self'.(conflict_history) = self.(conflict_history) ++ records /\
      length records = length pre.
Proof.
  intros Hpre Hc. induction Hpre as [|c0 pre [Hc1 Hc2] _ IH];
    intros k results self.
  - simpl. exists self, []. rewrite app_nil_r.
    unfold bind at 1, lift at 1.
    destruct (decide (in_range existing c.1)) as [Hin|Hout].
    + destruct (zindex_in_range _ _ Hin) as [o ->].
      unfold bind at 1, lift at 1.
      rewrite zindex_out_of_range; [done|].
      intros Hin2. apply Hc. by split.
    + by rewrite zindex_out_of_range.
  - cbn [app Resolver.resolve_loop]. unfold bind at 1, lift at 1.
    destruct (zindex_in_range _ _ Hc1) as [o ->].
    unfold bind at 1, lift at 1.
    destruct (zindex_in_range _ _ Hc2) as [n ->].
    unfold bind at 1.
    destruct (resolve_conflict_returns (clock k) o n
                (default "unknown" (fact_to_hash_id !! fact_str o))
                (default "unknown" (fact_to_hash_id !! fact_str n))
                (default 0%Z (access_counts
                                !! default "unknown" (fact_to_hash_id !! fact_str o)))
                (default 0%Z (access_counts
                                !! default "unknown" (fact_to_hash_id !! fact_str n)))
                strategy self)
      as (r & -> & _).
    edestruct IH as (self' & records & -> & Hhist & Hlen).
    exists self', (r :: records). simpl in *.
    rewrite Hhist, <- app_assoc. split_and!; try done. by rewrite Hlen.
Qed.

End Batches.

Lemma detected_conflicts_valid (existing new : list Fact) :
  Forall (valid_conflict existing new)
    (int_pairs (Resolver.detect_conflicts existing new)).
Proof.
  unfold int_pairs. apply Forall_fmap, Forall_forall. intros [i j] Hin.
  apply elem_of_detect_conflicts in Hin as (e & n & He & Hn & _).
  apply lookup_lt_Some in He, Hn.
  unfold valid_conflict, in_range. simpl. lia.
Qed.

(** X1: [batch_resolve_conflicts] applied to the pairs [detect_conflicts]
    returns for the same two lists never raises: it returns one record per
    detected pair, in order, each holding the two facts the pair points to,
    counts them in ['conflicts_detected'], and appends exactly these records
    to the resolver's history. *)
Theorem batch_resolves_detected_conflicts {fact_key : FactStr}
    (clock : nat -> R) (existing new : list Fact)
    (fact_to_hash_id : gmap string string) (access_counts : gmap string Z)
    (strategy : string) (self : ConflictResolver) :
  let detected := Resolver.detect_conflicts existing new in
  exists self' res,
    Resolver.batch_resolve_conflicts clock (int_pairs detected) existing new
      fact_to_hash_id access_counts strategy self = (self', Ok res) /\
    res.(conflicts_detected) = length detected /\
    length res.(conflict_records) = length detected /\
    self'.(conflict_history) = self.(conflict_history) ++ res.(conflict_records) /\
    Forall2 (fun p r =>
               existing !! p.1 = Some r.(old_fact) /\
               new !! p.2 = Some r.(new_fact) /\
               r.(resolution_strategy) = strategy)
      detected res.(conflict_records).
Proof.
  intros detected. unfold Resolver.batch_resolve_conflicts.
  destruct (resolve_loop_total clock existing new fact_to_hash_id
              access_counts strategy (int_pairs detected)
              (detected_conflicts_valid existing new) 0
              (mkBatchResult (length (int_pairs detected)) [] [] []) self)
    as (self' & res & Hloop).
  exists self', res. split; [done|].
  apply resolve_loop_inv in Hloop
    as (records & Hcd & Hcr & Hhist & Hall & _ & _).
  simpl in Hcd, Hcr, Hhist. rewrite Hcr, Hhist, Hcd.
  unfold int_pairs in *. rewrite length_fmap.
  apply Forall2_fmap_l in Hall.
  split_and!; try done.
  - symmetry. by eapply Forall2_length.
  - apply Forall2_same_length_lookup_2; [by eapply Forall2_length|].
    intros idx [i j] r Hp Hr.
    destruct (Forall2_lookup_lr _ _ _ _ _ _ Hall Hp Hr) as (Ho & Hn & Hs).
    simpl in Ho, Hn. apply list_elem_of_lookup_2 in Hp as Hin.
    apply elem_of_detect_conflicts in Hin as (e & n & He & Hn' & _).
    rewrite (zindex_of_nat _ _ _ He) in Ho.
    rewrite (zindex_of_nat _ _ _ Hn') in Hn.
    by simplify_eq.
Qed.

(** X2: what a returned batch lists besides the records depends on the
    strategy alone. ['keep_new'] lists the old identifier of every record
    for deletion, ['keep_old'] the new one, and neither lists a merge;
    ['merge'] lists one merge per record, with both identifiers and the
    record's result, and no deletion; every other strategy, ['keep_frequent']
    among them, lists nothing at all. *)
Theorem batch_lists_by_strategy {fact_key : FactStr}
    (clock : nat -> R) (conflicts : list (Z * Z)) (existing new : list Fact)
    (fact_to_hash_id : gmap string string) (access_counts : gmap string Z)
    (strategy : string) (self self' : ConflictResolver) (res : BatchResult) :
  Resolver.batch_resolve_conflicts clock conflicts existing new
    fact_to_hash_id access_counts strategy self = (self', Ok res) ->
  (strategy = "keep_new" ->
     res.(facts_to_delete) = old_hash_id <$> res.(conflict_records) /\
     res.(facts_to_merge) = []) /\
  (strategy = "keep_old" ->
     res.(facts_to_delete) = new_hash_id <$> res.(conflict_records) /\
     res.(facts_to_merge) = []) /\
  (strategy = "merge" ->
     res.(facts_to_delete) = [] /\
     res.(facts_to_merge)
     = (fun r => mkMergeEntry r.(old_hash_id) r.(new_hash_id)
                   r.(resolution_result)) <$> res.(conflict_records)) /\
  (strategy <> "keep_new" -> strategy <> "keep_old" -> strategy <> "merge" ->
     res.(facts_to_delete) = [] /\ res.(facts_to_merge) = []).
Proof.
  unfold Resolver.batch_resolve_conflicts. intros Hloop.
  apply resolve_loop_inv in Hloop
    as (records & _ & Hcr & _ & _ & Hdel & Hmrg).
  simpl in *. rewrite Hcr, Hdel, Hmrg.
  split_and!; intros; repeat case_decide; simplify_eq; done.
Qed.

Lemma batch_lists_by_strategy_witness :
  exists res,
    (Resolver.batch_resolve_conflicts (fact_key := Sample.fact_key)
       (fun _ => 0%R) [(0, 0)%Z] [Sample.erik_old] [Sample.erik_new]
       {[ "Erik Hort|birthplace|Montebello" := "fact-1" ]} ∅ "keep_new"
       Sample.resolver).2 = Ok res /\
    res.(facts_to_delete) = ["fact-1"] /\
    res.(facts_to_merge) = [].
Proof.
  eexists. split; [vm_compute; reflexivity|].
  refine (proj1 (batch_lists_by_strategy (fact_key := Sample.fact_key)
            (fun _ => 0%R) [(0, 0)%Z] [Sample.erik_old] [Sample.erik_new]
            {[ "Erik Hort|birthplace|Montebello" := "fact-1" ]} ∅ "keep_new"
            Sample.resolver _ _ _) eq_refl).
  vm_compute. reflexivity.
Defined.

(** X3: a pair whose index does not index its fact list makes
    [batch_resolve_conflicts] raise [IndexError]; the records of the pairs
    before it, which have been resolved by then, stay in the resolver's
    history, and no result is returned for them. *)
Theorem batch_invalid_index_raises {fact_key : FactStr}
    (clock : nat -> R) (pre post : list (Z * Z)) (c : Z * Z)
    (existing new : list Fact)
    (fact_to_hash_id : gmap string string) (access_counts : gmap string Z)
    (strategy : string) (self : ConflictResolver) :
  Forall (valid_conflict existing new) pre ->
  ~ valid_conflict existing new c ->
  exists self' records,
    Resolver.batch_resolve_conflicts clock (pre ++ c :: post) existing new
      fact_to_hash_id access_counts strategy self
    = (self', Raise IndexError) /\
    self'.(conflict_history) = self.(conflict_history) ++ records /\
    length records = length pre.
Proof.
  intros Hpre Hc. unfold Resolver.batch_resolve_conflicts.
  by apply resolve_loop_fails.
Qed.

Lemma batch_invalid_index_raises_witness :
  exists self' records,
    Resolver.batch_resolve_conflicts (fact_key := Sample.fact_key)
      (fun _ => 0%R) ([(0, 0)%Z] ++ (1, 0)%Z :: []) [Sample.erik_old]
      [Sample.erik_new] ∅ ∅ "merge" Sample.resolver
    = (self', Raise IndexError) /\
    self'.(conflict_history) = Sample.resolver.(conflict_history) ++ records /\
    length records = length [(0, 0)%Z].
Proof.
  apply (batch_invalid_index_raises (fact_key := Sample.fact_key)
           (fun _ => 0%R) [(0, 0)%Z] [] (1, 0)%Z [Sample.erik_old]
           [Sample.erik_new] ∅ ∅ "merge" Sample.resolver).
  - repeat constructor; unfold in_range; simpl; lia.
  - intros [H1 _]. unfold in_range in H1. simpl in H1. lia.
Defined.

Lemma oget_oset {V} (k s : string) (v : V) (d : odict V) :
  oget (oset k v d) s = if decide (s = k) then Some v else oget d s.
Proof.
  induction d as [|[k' v'] d IH]; simpl.
  - by case_decide.
  - destruct (decide (k = k')) as [->|Hne]; simpl.
    + repeat case_decide; by simplify_eq.
    + rewrite IH. repeat case_decide; by simplify_eq.
Qed.

Lemma sum_list_oset_incr (k : string) (d : odict nat) :
  sum_list (oset k (default 0 (oget d k) + 1) d).*2 = S (sum_list d.*2).
Proof.
  induction d as [|[k' v'] d IH]; [done|].
  cbn [oset oget]. destruct (decide (k = k')) as [->|Hne].
  - rewrite !fmap_cons. simpl. lia.
  - rewrite !fmap_cons. cbn [sum_list snd]. rewrite IH. lia.
Qed.

Lemma count_strategies_fold (history : list ConflictRecord) :
  forall d : odict nat,
    NoDup (okeys d) ->
    let d' := foldl (fun strategies_used record =>
                       oset record.(resolution_strategy)
                         (default 0 (oget strategies_used
                                       record.(resolution_strategy)) + 1)
                         strategies_used) d history in
    NoDup (okeys d') /\
    (forall s, default 0 (oget d' s)
               = default 0 (oget d s)
                 + length (filter (fun r => r.(resolution_strategy) = s) history)) /\
    sum_list d'.*2 = sum_list d.*2 + length history.
Proof.
  induction history as [|r history IH]; intros d Hd; simpl.
  - split_and!; [done|intros; lia|lia].
  - destruct (IH (oset r.(resolution_strategy)
                    (default 0 (oget d r.(resolution_strategy)) + 1) d))
      as (Hnd & Hcount & Hsum).
    { by apply NoDup_okeys_oset. }
    split_and!; [done| |].
    + intros s. rewrite Hcount, oget_oset.
      destruct (decide (s = resolution_strategy r)) as [->|Hne].
      * rewrite filter_cons_True by done. simpl. lia.
      * rewrite filter_cons_False by done. done.
    + rewrite Hsum, sum_list_oset_incr. lia.
Qed.

(** X4: [get_conflict_summary] reports the length of the history as
    ['total_conflicts']. For a history that is not empty, ['strategies_used']
    holds each strategy once, with the number of records resolved under it,
    these numbers add up to the total, and ['latest_conflict'] is the
    timestamp of the last record; for an empty history both keys are
    absent. *)
Theorem conflict_summary_counts (self : ConflictResolver) :
  let summary := Resolver.get_conflict_summary self in
  summary.(total_conflicts) = length self.(conflict_history) /\
  (self.(conflict_history) = [] ->
     summary.(strategies_used) = None /\ summary.(latest_conflict) = None) /\
  (self.(conflict_history) <> [] ->
     exists d record,
       summary.(strategies_used) = Some d /\
       NoDup (okeys d) /\
       (forall s, default 0 (oget d s)
                  = length (filter (fun r => r.(resolution_strategy) = s)
                              self.(conflict_history))) /\
       sum_list d.*2 = length self.(conflict_history) /\
       last self.(conflict_history) = Some record /\
       summary.(latest_conflict) = Some record.(cr_timestamp)).
Proof.
  intros summary. unfold summary, Resolver.get_conflict_summary.
  case_decide as Hhist.
  - rewrite Hhist. simpl. by split_and!.
  - simpl. split_and!; try done. intros _.
    destruct (count_strategies_fold self.(conflict_history) [])
      as (Hnd & Hcount & Hsum); [constructor|].
    destruct (last self.(conflict_history)) as [record|] eqn:Hlast;
      [|by apply last_None in Hlast].
    exists (Resolver.count_strategies self.(conflict_history)), record.
    split_and!; try done.
Qed.

(** ** Conflict resolver: normalization *)

Lemma lower_char_space (c : ascii) :
  Resolver.is_space (Resolver.lower_char c) = Resolver.is_space c.
Proof. destruct c as [[] [] [] [] [] [] [] []]; reflexivity. Qed.

Lemma lower_char_idem (c : ascii) :
  Resolver.lower_char (Resolver.lower_char c) = Resolver.lower_char c.
Proof. destruct c as [[] [] [] [] [] [] [] []]; reflexivity. Qed.

Lemma lower_idem (s : string) : Resolver.lower (Resolver.lower s) = Resolver.lower s.
Proof.
  induction s as [|c s IH]; simpl; [done|]. by rewrite lower_char_idem, IH.
Qed.

Lemma lstrip_lower (s : string) :
  Resolver.lstrip (Resolver.lower s) = Resolver.lower (Resolver.lstrip s).
Proof.
  induction s as [|c s IH]; simpl; [done|].
  rewrite lower_char_space. by destruct (Resolver.is_space c).
Qed.

Lemma rstrip_lower (s : string) :
  Resolver.rstrip (Resolver.lower s) = Resolver.lower (Resolver.rstrip s).
Proof.
  induction s as [|c s IH]; simpl; [done|].
  rewrite IH, lower_char_space.
  destruct (Resolver.rstrip s); simpl; [|done].
  by destruct (Resolver.is_space c).
Qed.

Lemma rstrip_idem (s : string) :
  Resolver.rstrip (Resolver.rstrip s) = Resolver.rstrip s.
Proof.
  induction s as [|c s IH]; simpl; [done|].
  destruct (Resolver.rstrip s) as [|c' r] eqn:Hr.
  - destruct (Resolver.is_space c) eqn:Hc; simpl; [done|]. by rewrite Hc.
  - change (Resolver.rstrip (String c (String c' r)))
      with (match Resolver.rstrip (String c' r) with
            | EmptyString =>
                if Resolver.is_space c then EmptyString
                else String c EmptyString
            | r' => String c r'
            end).
    by rewrite IH.
Qed.

Lemma lstrip_rstrip_lstrip (s : string) :
  Resolver.lstrip (Resolver.rstrip (Resolver.lstrip s))
  = Resolver.rstrip (Resolver.lstrip s).
Proof.
  induction s as [|c s IH]; simpl; [done|].
  destruct (Resolver.is_space c) eqn:Hc; [done|].
  simpl. destruct (Resolver.rstrip s); rewrite ?Hc; simpl; by rewrite ?Hc.
Qed.

Lemma strip_idem (s : string) :
  Resolver.strip (Resolver.strip s) = Resolver.strip s.
Proof.
  unfold Resolver.strip. by rewrite lstrip_rstrip_lstrip, rstrip_idem.
Qed.

Lemma strip_lower (s : string) :
  Resolver.strip (Resolver.lower s) = Resolver.lower (Resolver.strip s).
Proof. unfold Resolver.strip. by rewrite lstrip_lower, rstrip_lower. Qed.

Lemma normalize_fact_idem (f : Fact) :
  Resolver.normalize_fact (Resolver.normalize_fact f)
  = Resolver.normalize_fact f.
Proof.
  unfold Resolver.normalize_fact. simpl.
  by rewrite !strip_lower, !strip_idem, <- !strip_lower, !lower_idem.
Qed.

(** X5: normalization is idempotent, and [detect_conflicts] does not
    distinguish facts from their normalized forms: on the normalized lists it
    reports the same index pairs as on the lists themselves, and the same
    number of them. *)
Theorem detect_conflicts_of_normalized (existing new : list Fact) :
  (forall f, Resolver.normalize_fact (Resolver.normalize_fact f)
             = Resolver.normalize_fact f) /\
  Resolver.detect_conflicts (Resolver.normalize_fact <$> existing)
    (Resolver.normalize_fact <$> new)
  ≡ₚ Resolver.detect_conflicts existing new.
Proof.
  split; [apply normalize_fact_idem|].
  apply NoDup_Permutation; try apply NoDup_detect_conflicts.
  intros [i j]. rewrite !elem_of_detect_conflicts. split.
  - intros (e & n & He & Hn & Hc).
    rewrite list_lookup_fmap in He, Hn.
    destruct (existing !! i) as [e'|] eqn:He'; [|done].
    destruct (new !! j) as [n'|] eqn:Hn'; [|done].
    simpl in *. simplify_eq. exists e', n'. split_and!; try done.
    unfold Resolver.conflicting in *. by rewrite !normalize_fact_idem in Hc.
  - intros (e & n & He & Hn & Hc).
    exists (Resolver.normalize_fact e), (Resolver.normalize_fact n).
    rewrite !list_lookup_fmap, He, Hn. split_and!; try done.
    unfold Resolver.conflicting in *. by rewrite !normalize_fact_idem.
Qed.

(** X6: detection is symmetric in its two lists: a pair is reported for
    [existing] against [new] exactly when the mirrored pair is reported for
    [new] against [existing]; and no fact conflicts with itself. *)
Theorem detect_conflicts_symmetric (existing new : list Fact) :
  (forall i j,
     (i, j) ∈ Resolver.detect_conflicts existing new <->
     (j, i) ∈ Resolver.detect_conflicts new existing) /\
  (forall i, (i, i) ∉ Resolver.detect_conflicts existing existing).
Proof.
  assert (forall a b, Resolver.conflicting a b = Resolver.conflicting b a)
    as Hsym.
  { intros a b. unfold Resolver.conflicting.
    rewrite !(bool_decide_ext ((Resolver.normalize_fact b).1.1 = _)
                ((Resolver.normalize_fact a).1.1
                 = (Resolver.normalize_fact b).1.1)) by done.
    rewrite !(bool_decide_ext ((Resolver.normalize_fact b).1.2 = _)
                ((Resolver.normalize_fact a).1.2
                 = (Resolver.normalize_fact b).1.2)) by done.
    rewrite !(bool_decide_ext ((Resolver.normalize_fact b).2 = _)
                ((Resolver.normalize_fact a).2
                 = (Resolver.normalize_fact b).2)) by done.
    done. }
  split.
  - intros i j. rewrite !elem_of_detect_conflicts.
    split; intros (e & n & He & Hn & Hc); exists n, e;
      split_and!; try done; by rewrite Hsym.
  - intros i. rewrite elem_of_detect_conflicts.
    intros (e & n & He & Hn & Hc). simplify_eq.
    apply conflicting_spec in Hc as (_ & _ & Hne). done.
Qed.

(** ** Embedding store: recording accesses *)

Lemma record_access_inv (now : R) (h : string) (q : option string)
    (qe : option (list R)) (rank : Z) (score : option R)
    (s s' : EmbeddingStore) :
  Store.record_access now h q qe rank score s = (s', Ok tt) ->
  exists sim,
    s' = Store.set_access_history
           (<[h := default [] (s.(access_history) !! h)
                   ++ [mkAccessEvent now q rank score sim]]>
              s.(access_history)) s /\
    (qe = None \/ s.(hash_id_to_idx) !! h = None -> sim = None) /\
    (is_Some qe -> is_Some (s.(hash_id_to_idx) !! h) -> is_Some sim) /\
    (forall v, sim = Some v ->
       exists qv i m,
         qe = Some qv /\ s.(hash_id_to_idx) !! h = Some i /\
         s.(embeddings) !! i = Some m /\ length qv = length m /\
         v = (Np.dot_sum qv m / (Np.norm qv * Np.norm m + / 10 ^ 10))%R).
Proof.
  unfold Store.record_access, bind, get, put, ret, lift, getitem. simpl.
  destruct (s.(access_history) !! h) as [log|] eqn:Hlog; simpl.
  - destruct qe as [qv|]; [destruct (s.(hash_id_to_idx) !! h) as [i|] eqn:Hi|];
      simpl; rewrite ?Hlog; simpl.
    + unfold index. destruct (s.(embeddings) !! i) as [m|] eqn:Hm; [|done].
      simpl. unfold Np.dot. case_decide as Hlen; [|done]. simpl.
      rewrite ?Hlog. intros [= <-]. eexists. split; [reflexivity|].
      split; [by intros [?|?]|]. split; [by eauto|]. intros v [= <-].
      by exists qv, i, m.
    + intros [= <-]. exists None. split_and!; try done; by intros _ [? ?].
    + intros [= <-]. exists None. split_and!; try done; by intros [? ?].
  - destruct qe as [qv|]; [destruct (s.(hash_id_to_idx) !! h) as [i|] eqn:Hi|];
      simpl; rewrite ?lookup_insert_eq; simpl.
    + unfold index. destruct (s.(embeddings) !! i) as [m|] eqn:Hm; [|done].
      simpl. unfold Np.dot. case_decide as Hlen; [|done]. simpl.
      rewrite ?lookup_insert_eq. intros [= <-]. eexists.
      split; [by rewrite insert_insert_eq|].
      split; [by intros [?|?]|]. split; [by eauto|]. intros v [= <-].
      by exists qv, i, m.
    + intros [= <-]. exists None. rewrite insert_insert_eq.
      split_and!; try done; by intros _ [? ?].
    + intros [= <-]. exists None. rewrite insert_insert_eq.
      split_and!; try done; by intros [? ?].
Qed.

Lemma record_access_succeeds (now : R) (h : string) (q : option string)
    (qe : option (list R)) (rank : Z) (score : option R)
    (s : EmbeddingStore) :
  (qe = None \/ s.(hash_id_to_idx) !! h = None \/
   exists qv i m,
     qe = Some qv /\ s.(hash_id_to_idx) !! h = Some i /\
     s.(embeddings) !! i = Some m /\ length qv = length m) ->
  (Store.record_access now h q qe rank score s).2 = Ok tt.
Proof.
  intros Hcase.
  unfold Store.record_access, bind, get, put, ret, lift, getitem. simpl.
  destruct (s.(access_history) !! h) as [log|] eqn:Hlog; simpl;
    destruct Hcase as [->|[Hnone|(qv & i & m & -> & Hi & Hm & Hlen)]];
    rewrite ?Hnone, ?Hi; simpl; unfold index, Np.dot;
    rewrite ?Hm; simpl; rewrite ?decide_True by done; simpl;
    rewrite ?Hlog, ?lookup_insert_eq; try done;
    destruct qe; simpl; by rewrite ?Hlog, ?lookup_insert_eq.
Qed.

Lemma record_access_mismatch (now : R) (h : string) (q : option string)
    (qv : list R) (rank : Z) (score : option R) (s : EmbeddingStore)
    (i : nat) (m : list R) :
  s.(hash_id_to_idx) !! h = Some i -> s.(embeddings) !! i = Some m ->
  length qv <> length m ->
  Store.record_access now h q (Some qv) rank score s
  = (Store.set_access_history
       (<[h := default [] (s.(access_history) !! h)]> s.(access_history)) s,
     Raise ValueError).
Proof.
  intros Hi Hm Hlen.
  unfold Store.record_access, bind, get, put, ret, lift, getitem. simpl.
  destruct (s.(access_history) !! h) as [log|] eqn:Hlog; simpl;
    rewrite Hi; unfold index; simpl; rewrite Hm; simpl; unfold Np.dot;
    rewrite decide_False by done; simpl.
  - rewrite insert_id by done. by destruct s.
  - done.
Qed.

(** X7: a call of [record_access] that returns has appended one event to
    the log of the identifier, with the given time, query, rank and score:
    [get_access_history] then returns the old events followed by it,
    [get_access_count] one more than before and [get_last_access_time] the
    time of the call. The logs of all other identifiers, the three
    sequences and the two derived dictionaries are as before. *)
Theorem record_access_appends_event (now : R) (h : string)
    (q : option string) (qe : option (list R)) (rank : Z) (score : option R)
    (s s' : EmbeddingStore) :
  Store.record_access now h q qe rank score s = (s', Ok tt) ->
  exists events ev,
    Store.get_access_history s h = Ok events /\
    Store.get_access_history s' h = Ok (events ++ [ev]) /\
    ev.(timestamp) = now /\ ev.(query) = q /\
    ev.(ranking_position) = rank /\ ev.(similarity_score) = score /\
    Store.get_access_count s' h = Ok (S (length events)) /\
    Store.get_last_access_time s' h = Ok (Some now) /\
    (forall h', h' <> h ->
       Store.get_access_history s' h' = Store.get_access_history s h') /\
    s'.(hash_ids) = s.(hash_ids) /\ s'.(texts) = s.(texts) /\
    s'.(embeddings) = s.(embeddings) /\
    s'.(hash_id_to_idx) = s.(hash_id_to_idx) /\
    s'.(hash_id_to_row) = s.(hash_id_to_row).
Proof.
  intros Hrec. apply record_access_inv in Hrec as (sim & -> & _).
  exists (default [] (s.(access_history) !! h)),
    (mkAccessEvent now q rank score sim).
  unfold Store.get_access_history, Store.get_access_count,
    Store.get_last_access_time. simpl.
  rewrite lookup_insert_eq. simpl.
  split_and!; try done.
  - by rewrite length_app, Nat.add_1_r.
  - rewrite decide_False by (by destruct (default [] _)).
    unfold last_item. by rewrite last_snoc.
  - intros h' Hne. by rewrite lookup_insert_ne.
Qed.

Lemma record_access_appends_event_witness :
  let s' := (Sample.touch "mem-alpha" Sample.store3).1 in
  exists events ev,
    Store.get_access_history Sample.store3 "mem-alpha" = Ok events /\
    Store.get_access_history s' "mem-alpha" = Ok (events ++ [ev]) /\
    ev.(timestamp) = 0%R /\ ev.(query) = Some "who is alpha?" /\
    ev.(ranking_position) = (-1)%Z /\ ev.(similarity_score) = None /\
    Store.get_access_count s' "mem-alpha" = Ok (S (length events)) /\
    Store.get_last_access_time s' "mem-alpha" = Ok (Some 0%R) /\
    (forall h', h' <> "mem-alpha" ->
       Store.get_access_history s' h'
       = Store.get_access_history Sample.store3 h') /\
    s'.(hash_ids) = Sample.store3.(hash_ids) /\
    s'.(texts) = Sample.store3.(texts) /\
    s'.(embeddings) = Sample.store3.(embeddings) /\
    s'.(hash_id_to_idx) = Sample.store3.(hash_id_to_idx) /\
    s'.(hash_id_to_row) = Sample.store3.(hash_id_to_row).
Proof.
  apply (record_access_appends_event 0 "mem-alpha" (Some "who is alpha?")
           None (-1) None Sample.store3).
  vm_compute. reflexivity.
Defined.

(** X8: the ['computed_similarity'] of the event a returning
    [record_access] appends. It is absent when no query embedding is given
    or the identifier has no index. When both are there the record's
    position holds an embedding (an array, as every stored embedding is)
    as long as the query embedding, and the similarity stored is the dot
    product of the two over the product of their norms plus [1e-10]. *)
Theorem record_access_stores_similarity (now : R) (h : string)
    (q : option string) (qe : option (list R)) (rank : Z) (score : option R)
    (s s' : EmbeddingStore) :
  Store.record_access now h q qe rank score s = (s', Ok tt) ->
  exists events ev,
    Store.get_access_history s' h = Ok (events ++ [ev]) /\
    (qe = None \/ s.(hash_id_to_idx) !! h = None ->
       ev.(computed_similarity) = None) /\
    (forall qv i, qe = Some qv -> s.(hash_id_to_idx) !! h = Some i ->
       exists m,
         s.(embeddings) !! i = Some m /\ length qv = length m /\
         ev.(computed_similarity)
         = Some (Np.dot_sum qv m
                 / (Np.norm qv * Np.norm m + / 10 ^ 10))%R).
Proof.
  intros Hrec.
  apply record_access_inv in Hrec as (sim & -> & Hnone & Hsim & Hsome).
  exists (default [] (s.(access_history) !! h)),
    (mkAccessEvent now q rank score sim).
  unfold Store.get_access_history. simpl. rewrite lookup_insert_eq. simpl.
  split_and!; try done.
  intros qv i -> Hi.
  destruct Hsim as [v ->]; [by eexists|by eexists|].
  destruct (Hsome v eq_refl) as (qv' & i' & m & [= <-] & Hi' & Hm & Hlen & ->).
  rewrite Hi in Hi'. injection Hi' as <-. by exists m.
Qed.

Lemma record_access_stores_similarity_witness :
  let s' := (Store.record_access 0 "mem-alpha" None (Some [0; 1]%R) 0 None
               Sample.store3).1 in
  exists events ev,
    Store.get_access_history s' "mem-alpha" = Ok (events ++ [ev]) /\
    (Some [0; 1]%R = None
     \/ Sample.store3.(hash_id_to_idx) !! "mem-alpha" = None ->
       ev.(computed_similarity) = None) /\
    (forall qv i, Some [0; 1]%R = Some qv ->
       Sample.store3.(hash_id_to_idx) !! "mem-alpha" = Some i ->
       exists m,
         Sample.store3.(embeddings) !! i = Some m /\ length qv = length m /\
         ev.(computed_similarity)
         = Some (Np.dot_sum qv m
                 / (Np.norm qv * Np.norm m + / 10 ^ 10))%R).
Proof.
  apply (record_access_stores_similarity 0 "mem-alpha" None
           (Some [0; 1]%R) 0 None Sample.store3).
  apply injective_projections; [reflexivity|].
  apply record_access_succeeds. right. right.
  exists [0; 1]%R, 0, [1; 0]%R. by vm_compute.
Defined.

(** X9: [record_access] returns whenever no query embedding is given or the
    identifier has no index, be the identifier stored or not, and whenever
    the query embedding is as long as the record's embedding. A query
    embedding of another length makes it raise [ValueError]; no event is
    recorded then, but an identifier without a log is left with an empty
    one. *)
Theorem record_access_outcomes (now : R) (h : string) (q : option string)
    (qe : option (list R)) (rank : Z) (score : option R)
    (s : EmbeddingStore) :
  (qe = None \/ s.(hash_id_to_idx) !! h = None ->
     (Store.record_access now h q qe rank score s).2 = Ok tt) /\
  (forall qv i m,
     qe = Some qv -> s.(hash_id_to_idx) !! h = Some i ->
     s.(embeddings) !! i = Some m ->
     (length qv = length m ->
        (Store.record_access now h q qe rank score s).2 = Ok tt) /\
     (length qv <> length m ->
        exists s',
          Store.record_access now h q qe rank score s
          = (s', Raise ValueError) /\
          Store.get_access_history s' h = Store.get_access_history s h /\
          is_Some (s'.(access_history) !! h) /\
          s'.(hash_ids) = s.(hash_ids) /\ s'.(texts) = s.(texts) /\
          s'.(embeddings) = s.(embeddings))).
Proof.
  split.
  - intros [?|?]; apply record_access_succeeds; auto.
  - intros qv i m -> Hi Hm. split.
    + intros Hlen. apply record_access_succeeds. right. right.
      by exists qv, i, m.
    + intros Hlen. eexists. split; [by eapply record_access_mismatch|].
      unfold Store.get_access_history. simpl. rewrite lookup_insert_eq.
      by split_and!.
Qed.

(** ** Embedding store: [delete] of an unknown identifier *)

Lemma rmapM_getitem_missing (m : gmap string nat) (ids : list string)
    (h : string) :
  h ∈ ids -> m !! h = None -> rmapM (getitem m) ids = Raise KeyError.
Proof.
  induction ids as [|h' ids IH]; intros Hin Hnone.
  - by apply elem_of_nil in Hin.
  - simpl. unfold getitem at 1.
    destruct (m !! h') as [i|] eqn:Hi; [|done]. simpl.
    apply elem_of_cons in Hin as [->|Hin]; [by simplify_eq|].
    by rewrite IH.
Qed.

(** X10: when one of the identifiers [delete] is given has no index, it
    raises [KeyError] before it removes anything: the store is left exactly
    as it was, also for the identifiers of the request it does know. *)
Theorem delete_unknown_identifier (s : EmbeddingStore) (ids : list string)
    (h : string) :
  h ∈ ids -> s.(hash_id_to_idx) !! h = None ->
  Store.delete ids s = (s, Raise KeyError).
Proof.
  intros Hin Hnone. unfold Store.delete, bind, get, lift.
  by rewrite (rmapM_getitem_missing _ _ _ Hin Hnone).
Qed.

Lemma delete_unknown_identifier_witness :
  Store.delete ["mem-alpha"; "mem-delta"] Sample.accessed3
  = (Sample.accessed3, Raise KeyError).
Proof.
  apply (delete_unknown_identifier Sample.accessed3
           ["mem-alpha"; "mem-delta"] "mem-delta").
  - by right; left.
  - by vm_compute.
Defined.

(** ** Embedding store: what [get_embedding] and [get_row] return after
    [insert_strings] and [delete] *)

Lemma foldl_row_other {B} (l : list (string * B)) (f : string * B -> Row)
    (m0 : gmap string Row) (h : string) :
  h ∉ l.*1 -> foldl (fun m p => <[p.1 := f p]> m) m0 l !! h = m0 !! h.
Proof.
  revert m0. induction l as [|[h0 b] l IH]; intros m0 Hnin; simpl; [done|].
  rewrite fmap_cons, not_elem_of_cons in Hnin. destruct Hnin as [Hne Hnin].
  rewrite IH by done. by rewrite lookup_insert_ne.
Qed.

Lemma foldl_row_lookup {B} (l : list (string * B)) (f : string * B -> Row)
    (m0 : gmap string Row) (p : string * B) :
  NoDup l.*1 -> p ∈ l ->
  foldl (fun m p => <[p.1 := f p]> m) m0 l !! p.1 = Some (f p).
Proof.
  revert m0. induction l as [|[h0 b] l IH]; intros m0; simpl.
  - intros _ Hin. by apply elem_of_nil in Hin.
  - intros [Hh0 Hl]%NoDup_cons [->|Hin]%elem_of_cons.
    + simpl. rewrite foldl_row_other by done. by rewrite lookup_insert_eq.
    + by apply IH.
Qed.

Lemma build_row_lookup (hs ts : list string) (es : list (list R))
    (h t : string) (i : nat) :
  NoDup hs -> length hs = length ts -> length ts = length es ->
  hs !! i = Some h -> ts !! i = Some t ->
  Store.build_hash_id_to_row hs ts es !! h = Some (mkRow h t).
Proof.
  intros Hnd Hts Hes Hh Ht.
  destruct (lookup_lt_is_Some_2 es i) as [e He].
  { rewrite <- Hes. by eapply lookup_lt_Some. }
  unfold Store.build_hash_id_to_row.
  apply (foldl_row_lookup (zip hs (zip ts es))
           (fun hte => mkRow hte.1 hte.2.1) ∅ (h, (t, e))).
  - rewrite fst_zip; [done|]. rewrite length_zip_with. lia.
  - apply list_elem_of_lookup_2 with i.
    rewrite lookup_zip_with, Hh. simpl.
    rewrite lookup_zip_with, Ht. simpl. by rewrite He.
Qed.

Lemma rebuilt_rows (s : EmbeddingStore) :
  parallel s -> NoDup s.(hash_ids) -> rows_match (rebuilt s).
Proof.
  intros [Hts Hes] Hnd h i t Hh Ht. simpl in *.
  by eapply build_row_lookup.
Qed.

Lemma delete_rows (s s' : EmbeddingStore) (ids : list string) :
  Store.delete ids s = (s', Ok tt) -> NoDup s'.(hash_ids) -> rows_match s'.
Proof.
  unfold Store.delete, bind, get, lift.
  destruct (rmapM _ ids) as [indices|e]; [|done].
  destruct (for_each _ _ s) as [s1 [[]|e]]; [|done].
  intros [Hp ->]%save_data_inv Hnd. by apply rebuilt_rows.
Qed.

Lemma insert_rows {hasher : MdHash} {model : EmbeddingModel}
    (s s' : EmbeddingStore) (txts : list string) (rep : Store.InsertReport) :
  Store.insert_strings txts s = (s', Ok rep) ->
  rows_match s -> NoDup s'.(hash_ids) -> rows_match s'.
Proof.
  unfold Store.insert_strings, bind, get, lift. simpl.
  case_decide; [by intros [= <- _]|].
  case_decide; [by intros [= <- _]|].
  destruct (rmapM _ _) as [enc|e]; [|done].
  unfold Store._upsert, bind, get, put. simpl.
  destruct (Store._save_data _) as [s1 [[]|e]] eqn:Hsave; [|done].
  intros [= <- _] _ Hnd. apply save_data_inv in Hsave as [Hp' ->].
  by apply rebuilt_rows.
Qed.

Lemma store_inv_known (s : EmbeddingStore) (h : string) :
  store_inv s -> h ∈ s.(hash_ids) ->
  exists i, s.(hash_id_to_idx) !! h = Some i /\ s.(hash_ids) !! i = Some h /\
            i < length s.(texts) /\ i < length s.(embeddings).
Proof.
  intros ([Hts Hes] & _ & Hidx & _) Hin.
  apply list_elem_of_lookup_1 in Hin as [i Hi]. exists i.
  pose proof (lookup_lt_Some _ _ _ Hi).
  split_and!; [by apply Hidx|done|lia|lia].
Qed.

Lemma store_inv_unknown (s : EmbeddingStore) (h : string) :
  store_inv s -> h ∉ s.(hash_ids) ->
  s.(hash_id_to_idx) !! h = None /\ s.(hash_id_to_row) !! h = None.
Proof.
  intros (_ & _ & Hidx & Hrow) Hnin. split.
  - destruct (s.(hash_id_to_idx) !! h) as [i|] eqn:Hi; [|done].
    exfalso. apply Hnin. apply Hidx in Hi. by eapply list_elem_of_lookup_2.
  - destruct (s.(hash_id_to_row) !! h) as [r|] eqn:Hr; [|done].
    exfalso. apply Hnin. apply Hrow. by eexists.
Qed.

Lemma sample_store3_inv : store_inv Sample.store3 /\ rows_match Sample.store3.
Proof.
  destruct (insert_spec (hasher := Sample.hasher) (model := Sample.model)
              (Store.new "mem") Sample.texts3 (new_inv "mem")
              sample_model_encodes_each)
    as (s' & rep & Hins & Hinv & _).
  unfold Sample.store3. rewrite Hins. simpl. split; [done|].
  eapply (insert_rows (hasher := Sample.hasher) (model := Sample.model)).
  - exact Hins.
  - intros h i t Hh. simpl in Hh. by rewrite lookup_nil in Hh.
  - by destruct Hinv as (_ & ? & _).
Qed.

Lemma sample_accessed3_inv :
  store_inv Sample.accessed3 /\ rows_match Sample.accessed3.
Proof.
  destruct sample_store3_inv as [(Hp & Hnd & Hidx & Hrow) Hrows].
  assert (Sample.accessed3.(hash_ids) = Sample.store3.(hash_ids) /\
          Sample.accessed3.(texts) = Sample.store3.(texts) /\
          Sample.accessed3.(embeddings) = Sample.store3.(embeddings) /\
          Sample.accessed3.(hash_id_to_idx) = Sample.store3.(hash_id_to_idx) /\
          Sample.accessed3.(hash_id_to_row) = Sample.store3.(hash_id_to_row))
    as (Hh & Ht & He & Hi & Hr) by (by vm_compute).
  unfold store_inv, parallel, rows_match.
  rewrite Hh, Ht, He, Hi, Hr. done.
Qed.

(** ** Embedding store: an identifier requested twice *)

(** C7: the invariant of the store (three sequences of equal length, an
    identifier-to-index mapping that agrees with the identifier sequence,
    rebuilt before a mutation returns) does not survive a [delete] whose
    request repeats an identifier. [delete] pops the position of the
    identifier once per occurrence. On the store of three records, which
    satisfies the invariant, requesting the last identifier twice pops the
    record and then raises [IndexError] at the second pop, before
    [_save_data]: the sequences hold two records while the mapping and the
    rows still know the removed identifier at position 2, where the
    sequence has nothing. Requesting the first identifier twice returns,
    and has removed the second record as well, which nobody requested. *)
Theorem delete_repeated_identifier_breaks_invariant :
  store_inv Sample.accessed3 /\
  (let s' := (Store.delete ["mem-gamma"; "mem-gamma"] Sample.accessed3).1 in
   (Store.delete ["mem-gamma"; "mem-gamma"] Sample.accessed3).2
   = Raise IndexError /\
   s'.(hash_ids) = ["mem-alpha"; "mem-beta"] /\
   s'.(texts) = ["alpha"; "beta"] /\
   length s'.(embeddings) = 2 /\
   s'.(hash_id_to_idx) !! "mem-gamma" = Some 2 /\
   is_Some (s'.(hash_id_to_row) !! "mem-gamma") /\
   ~ index_consistent s') /\
  (let s' := (Store.delete ["mem-alpha"; "mem-alpha"] Sample.accessed3).1 in
   (Store.delete ["mem-alpha"; "mem-alpha"] Sample.accessed3).2 = Ok tt /\
   s'.(hash_ids) = ["mem-gamma"] /\
   s'.(texts) = ["gamma"] /\
   ("mem-beta" ∈ Sample.accessed3.(hash_ids)) /\
   ("mem-beta" ∉ ["mem-alpha"; "mem-alpha"]) /\
   ("mem-beta" ∉ s'.(hash_ids))).
Proof.
  split; [apply sample_accessed3_inv|]. split.
  - split_and!; try (by vm_compute); try (vm_compute; by eexists).
    intros [Hsound _].
    specialize (Hsound "mem-gamma" 2).
    assert ((Store.delete ["mem-gamma"; "mem-gamma"] Sample.accessed3).1
              .(hash_ids) !! 2 = None) as Hnone by (by vm_compute).
    rewrite Hnone in Hsound.
    assert (@None string = Some "mem-gamma") as Habs
      by (apply Hsound; by vm_compute).
    discriminate Habs.
  - assert ((Store.delete ["mem-alpha"; "mem-alpha"] Sample.accessed3).1
              .(hash_ids) = ["mem-gamma"]) as Hids by (by vm_compute).
    split_and!; [by vm_compute|by vm_compute|by vm_compute| | |].
    + assert (Sample.accessed3.(hash_ids) = Sample.ids3) as ->
        by (by vm_compute).
      unfold Sample.ids3. by right; left.
    + rewrite !elem_of_cons, elem_of_nil.
      intros [?|[?|[]]]; discriminate.
    + rewrite Hids. rewrite elem_of_cons, elem_of_nil.
      intros [?|[]]; discriminate.
Qed.

(** X11: on a store without repeated identifiers, a [delete] of distinct
    known identifiers that has returned leaves nothing of the deleted
    records ([get_embedding] and [get_row] raise [KeyError], the access log
    is empty) and every other record as it was: [get_embedding] and
    [get_access_history] return what they returned before, and [get_row]
    the identifier with the text that stood at its position. *)
Theorem delete_forgets_exactly_the_requested (s s' : EmbeddingStore)
    (ids : list string) :
  store_inv s -> NoDup ids -> (forall h, h ∈ ids -> h ∈ s.(hash_ids)) ->
  Store.delete ids s = (s', Ok tt) ->
  (forall h, h ∈ ids ->
     Store.get_embedding s' h = Raise KeyError /\
     Store.get_row s' h = Raise KeyError /\
     Store.get_access_history s' h = Ok []) /\
  (forall h, h ∈ s.(hash_ids) -> h ∉ ids ->
     Store.get_embedding s' h = Store.get_embedding s h /\
     Store.get_access_history s' h = Store.get_access_history s h /\
     (forall i t, s.(hash_ids) !! i = Some h -> s.(texts) !! i = Some t ->
        Store.get_row s' h = Ok (mkRow h t))).
Proof.
  intros Hinv Hnd Hknown Hdel.
  destruct (delete_spec s ids Hinv Hnd Hknown)
    as (s'' & Hdel' & Hinv' & Hids' & Hal & Hlog).
  rewrite Hdel in Hdel'. injection Hdel' as <-.
  assert (NoDup s'.(hash_ids)) as Hnd' by (by destruct Hinv' as (_ & ? & _)).
  pose proof (delete_rows _ _ _ Hdel Hnd') as Hrows.
  unfold Store.get_embedding, Store.get_row, Store.get_access_history, getitem.
  split.
  - intros h Hh.
    destruct (store_inv_unknown s' h Hinv') as [-> ->].
    { rewrite Hids', list_elem_of_filter. tauto. }
    rewrite Hlog, decide_True by done. done.
  - intros h Hin Hnin.
    destruct (store_inv_known s' h Hinv') as (i' & Hi' & Hh' & Hlt & _).
    { rewrite Hids', list_elem_of_filter. tauto. }
    destruct (Hal i') as (j & Hhj & Htj & Hej); [by eapply lookup_lt_Some|].
    rewrite Hh' in Hhj. symmetry in Hhj.
    destruct Hinv as (_ & Hnds & Hidx & _).
    rewrite Hi', (proj2 (Hidx h j) Hhj). simpl. unfold index.
    rewrite Hej, Hlog, decide_False by done. split_and!; try done.
    intros i t Hi Ht.
    rewrite (NoDup_lookup _ _ _ _ Hnds Hi Hhj) in Ht.
    rewrite <- Htj in Ht. by rewrite (Hrows h i' t Hh' Ht).
Qed.

Lemma delete_forgets_exactly_the_requested_witness :
  let s' := (Store.delete ["mem-beta"] Sample.accessed3).1 in
  (forall h, h ∈ ["mem-beta"] ->
     Store.get_embedding s' h = Raise KeyError /\
     Store.get_row s' h = Raise KeyError /\
     Store.get_access_history s' h = Ok []) /\
  (forall h, h ∈ Sample.accessed3.(hash_ids) -> h ∉ ["mem-beta"] ->
     Store.get_embedding s' h = Store.get_embedding Sample.accessed3 h /\
     Store.get_access_history s' h
     = Store.get_access_history Sample.accessed3 h /\
     (forall i t, Sample.accessed3.(hash_ids) !! i = Some h ->
        Sample.accessed3.(texts) !! i = Some t ->
        Store.get_row s' h = Ok (mkRow h t))).
Proof.
  apply (delete_forgets_exactly_the_requested Sample.accessed3 _
           ["mem-beta"]).
  - apply sample_accessed3_inv.
  - apply NoDup_singleton.
  - intros h ->%list_elem_of_singleton. by vm_compute; right; left.
  - by vm_compute.
Defined.

(** X12: on a store without repeated identifiers whose rows match its
    texts, an [insert_strings] that has returned keeps every stored record
    ([get_embedding] and [get_row] return what they returned before) and
    every access log, and makes every text of the request retrievable: the
    identifier of a text that had no row now has the row of a text of the
    request with that identifier; the embedding stored at its index is the
    row of the model's answer at the position the text was encoded at, and
    [get_embedding] returns that row cast to the default [dtype]. *)
Theorem insert_keeps_and_adds {hasher : MdHash} {model : EmbeddingModel}
    (s s' : EmbeddingStore) (txts : list string) (rep : Store.InsertReport) :
  store_inv s -> rows_match s -> encodes_each model ->
  Store.insert_strings txts s = (s', Ok rep) ->
  (forall h, h ∈ s.(hash_ids) ->
     Store.get_embedding s' h = Store.get_embedding s h /\
     Store.get_row s' h = Store.get_row s h) /\
  (forall h, Store.get_access_history s' h = Store.get_access_history s h) /\
  (forall t, t ∈ txts ->
     let h := compute_mdhash_id t (s.(namespace) ++ "-") in
     h ∈ s'.(hash_ids) /\
     (h ∉ s.(hash_ids) ->
      exists k t' i e,
        rep.(Store.encoded) !! k = Some t' /\ t' ∈ txts /\
        compute_mdhash_id t' (s.(namespace) ++ "-") = h /\
        Store.get_row s' h = Ok (mkRow h t') /\
        batch_encode rep.(Store.encoded) !! k = Some e /\
        s'.(hash_id_to_idx) !! h = Some i /\
        s'.(embeddings) !! i = Some e /\
        Store.get_embedding s' h = Ok (Np.astype e))).
Proof.
  intros Hinv Hrows Hmodel Hins.
  destruct (insert_spec s txts Hinv Hmodel)
    as (s'' & rep' & Hins' & Hinv' & _ & Hids & Htexts & Hembs & Hlog
        & _ & Hall & _).
  rewrite Hins in Hins'. injection Hins' as <- <-.
  assert (NoDup s'.(hash_ids)) as Hnd' by (by destruct Hinv' as (_ & ? & _)).
  pose proof (insert_rows _ _ _ _ Hins Hrows Hnd') as Hrows'.
  pose proof Hinv as ([Hts Hes] & Hnd & Hidx & Hrow).
  pose proof Hinv' as ([Hts' Hes'] & _ & Hidx' & Hrow').
  unfold Store.get_embedding, Store.get_row, Store.get_access_history, getitem.
  split_and!.
  - intros h Hin.
    destruct (store_inv_known s h Hinv Hin) as (i & Hi & Hh & Hlt & Hle).
    assert (s'.(hash_ids) !! i = Some h) as Hh'
      by (rewrite Hids; by apply lookup_app_l_Some).
    rewrite Hi, (proj2 (Hidx' h i) Hh'). simpl. unfold index.
    rewrite Hembs, lookup_app_l by done. split; [done|].
    destruct (lookup_lt_is_Some_2 s.(texts) i Hlt) as [t Ht].
    rewrite (Hrows h i t Hh Ht), (Hrows' h i t Hh'); [done|].
    rewrite Htexts. by apply lookup_app_l_Some.
  - intros h. by rewrite Hlog.
  - intros t Ht. set (h := compute_mdhash_id t (s.(namespace) ++ "-")).
    destruct (nodes_dict_spec s.(namespace) txts) as (_ & _ & Hkeys).
    assert (h ∈ okeys (Store.nodes_dict_of s.(namespace) txts)) as Hkey
      by (apply Hkeys; by exists t).
    assert (h ∉ s.(hash_ids) ->
            h ∈ filter (fun h => s.(hash_id_to_row) !! h = None)
                  (okeys (Store.nodes_dict_of s.(namespace) txts))) as Hnew.
    { intros Hnin. apply list_elem_of_filter. split; [|done].
      by apply store_inv_unknown. }
    split.
    + rewrite Hids, elem_of_app.
      destruct (decide (h ∈ s.(hash_ids))); [by left|right; by apply Hnew].
    + intros Hnin. apply Hnew in Hnin.
      apply list_elem_of_lookup_1 in Hnin as [k Hk].
      destruct (Forall2_lookup_l _ _ _ _ _ Hall Hk) as (t' & Ht' & Heq & Hin').
      destruct (lookup_lt_is_Some_2 (batch_encode rep.(Store.encoded)) k)
        as [e He].
      { rewrite Hmodel. by eapply lookup_lt_Some. }
      assert (s'.(hash_ids) !! (length s.(hash_ids) + k) = Some h) as Hh'.
      { rewrite Hids, lookup_app_r by lia.
        by replace (length (hash_ids s) + k - length (hash_ids s)) with k
          by lia. }
      assert (s'.(embeddings) !! (length s.(hash_ids) + k) = Some e) as He'.
      { rewrite Hembs, lookup_app_r by lia.
        by replace (length (hash_ids s) + k - length (embeddings s)) with k
          by lia. }
      exists k, t', (length s.(hash_ids) + k), e.
      rewrite (proj2 (Hidx' h _) Hh'). simpl. unfold index. rewrite He'.
      split_and!; try done.
      rewrite (Hrows' h (length s.(hash_ids) + k) t' Hh'); [done|].
      rewrite Htexts, lookup_app_r by lia.
      by replace (length (hash_ids s) + k - length (texts s)) with k by lia.
Qed.

Lemma insert_keeps_and_adds_witness :
  let s' := (Store.insert_strings (hasher := Sample.hasher)
               (model := Sample.model) ["beta"; "delta"] Sample.store3).1 in
  let rep := Store.mkInsertReport 1 1 ["delta"] in
  (forall h, h ∈ Sample.store3.(hash_ids) ->
     Store.get_embedding s' h = Store.get_embedding Sample.store3 h /\
     Store.get_row s' h = Store.get_row Sample.store3 h) /\
  (forall h, Store.get_access_history s' h
             = Store.get_access_history Sample.store3 h) /\
  (forall t, t ∈ ["beta"; "delta"] ->
     let h := Sample.hasher t (Sample.store3.(namespace) +:+ "-") in
     h ∈ s'.(hash_ids) /\
     (h ∉ Sample.store3.(hash_ids) ->
      exists k t' i e,
        rep.(Store.encoded) !! k = Some t' /\ t' ∈ ["beta"; "delta"] /\
        Sample.hasher t' (Sample.store3.(namespace) +:+ "-") = h /\
        Store.get_row s' h = Ok (mkRow h t') /\
        Sample.model rep.(Store.encoded) !! k = Some e /\
        s'.(hash_id_to_idx) !! h = Some i /\
        s'.(embeddings) !! i = Some e /\
        Store.get_embedding s' h = Ok (Np.astype e))).
Proof.
  apply (insert_keeps_and_adds (hasher := Sample.hasher)
           (model := Sample.model) Sample.store3 _ ["beta"; "delta"]
           (Store.mkInsertReport 1 1 ["delta"])).
  - apply sample_store3_inv.
  - apply sample_store3_inv.
  - apply sample_model_encodes_each.
  - by vm_compute.
Defined.

(** ** Embedding store: [get_missing_string_hash_ids] and [insert_strings] *)

Lemma oset_fresh {V} (k : string) (v : V) (d : odict V) :
  k ∉ okeys d -> oset k v d = d ++ [(k, v)].
Proof.
  induction d as [|[k' v'] d IH]; intros Hnin; [done|].
  unfold okeys in Hnin. rewrite fmap_cons, not_elem_of_cons in Hnin.
  destruct Hnin as [Hne Hnin]. cbn [oset]. simpl in Hne.
  rewrite decide_False by done. simpl. f_equal. by apply IH.
Qed.

Lemma foldl_oset_rows (hs ts : list string) :
  forall d : odict Row,
    NoDup (okeys d ++ hs) -> length hs = length ts ->
    foldl (fun d ht => oset ht.1 (mkRow ht.1 ht.2) d) d (zip hs ts)
    = d ++ ((fun ht => (ht.1, mkRow ht.1 ht.2)) <$> zip hs ts).
Proof.
  revert ts. induction hs as [|h hs IH]; intros [|t ts] d Hnd Hlen;
    simpl in *; try done; try by rewrite app_nil_r.
  rewrite oset_fresh.
  - rewrite IH.
    + by rewrite <- app_assoc.
    + unfold okeys. rewrite fmap_app. simpl. by rewrite <- app_assoc.
    + lia.
  - apply NoDup_app in Hnd as (_ & Hdisj & _). intros Hin.
    apply (Hdisj h Hin). by left.
Qed.

Lemma insert_encoded {hasher : MdHash} {model : EmbeddingModel}
    (s s' : EmbeddingStore) (txts : list string) (rep : Store.InsertReport) :
  Store.insert_strings txts s = (s', Ok rep) ->
  rmapM (ogetitem (Store.nodes_dict_of s.(namespace) txts))
    (filter (fun h => s.(hash_id_to_row) !! h = None)
       (okeys (Store.nodes_dict_of s.(namespace) txts)))
  = Ok rep.(Store.encoded).
Proof.
  unfold Store.insert_strings, bind, get, lift. simpl.
  case_decide as Hall; [intros [= _ <-]; by rewrite Hall|].
  case_decide as Hmissing; [intros [= _ <-]; by rewrite Hmissing|].
  destruct (rmapM _ _) as [enc|e]; [|done].
  unfold Store._upsert, bind, get, put. simpl.
  destruct (Store._save_data _) as [s1 [[]|e]] eqn:Hsave; [|done].
  by intros [= _ <-].
Qed.

(** X13: [get_missing_string_hash_ids] announces what [insert_strings]
    does. On a store without repeated identifiers, the keys of the
    dictionary it returns are, in order, the identifiers an
    [insert_strings] of the same texts appends, the contents of its rows the
    texts appended, each row carries its key, and once the insertion has
    returned nothing is missing any more. *)
Theorem missing_ids_are_what_insert_adds
    {hasher : MdHash} {model : EmbeddingModel}
    (s s' : EmbeddingStore) (txts : list string) (rep : Store.InsertReport) :
  store_inv s -> encodes_each model ->
  Store.insert_strings txts s = (s', Ok rep) ->
  exists d,
    Store.get_missing_string_hash_ids txts s = Ok d /\
    s'.(hash_ids) = s.(hash_ids) ++ okeys d /\
    s'.(texts) = s.(texts) ++ (row_content <$> d.*2) /\
    (forall h r, (h, r) ∈ d -> r.(row_hash_id) = h) /\
    rep.(Store.inserted) = length d /\
    Store.get_missing_string_hash_ids txts s' = Ok [].
Proof.
  intros Hinv Hmodel Hins.
  destruct (insert_spec s txts Hinv Hmodel)
    as (s'' & rep' & Hins' & Hinv' & Hns & Hids & Htexts & _ & _
        & Hcount & Hall & _).
  rewrite Hins in Hins'. injection Hins' as <- <-.
  pose proof (insert_encoded _ _ _ _ Hins) as Henc.
  pose proof (Forall2_length _ _ _ Hall) as Hlen.
  set (nodes := Store.nodes_dict_of s.(namespace) txts) in *.
  set (missing := filter (fun h => s.(hash_id_to_row) !! h = None)
                    (okeys nodes)) in *.
  assert (NoDup missing) as Hnd.
  { apply NoDup_filter. apply (nodes_dict_spec s.(namespace) txts). }
  assert (foldl (fun d ht => oset ht.1 (mkRow ht.1 ht.2) d) []
            (zip missing rep.(Store.encoded))
          = (fun ht => (ht.1, mkRow ht.1 ht.2))
              <$> zip missing rep.(Store.encoded)) as Hfold
    by (by rewrite foldl_oset_rows).
  exists ((fun ht => (ht.1, mkRow ht.1 ht.2))
            <$> zip missing rep.(Store.encoded)).
  assert (Store.get_missing_string_hash_ids txts s
          = Ok ((fun ht => (ht.1, mkRow ht.1 ht.2))
                  <$> zip missing rep.(Store.encoded))) as Hget.
  { unfold Store.get_missing_string_hash_ids. fold nodes.
    case_decide as Hnil.
    - assert (missing = []) as Hm by (unfold missing; by rewrite Hnil).
      by rewrite Hm.
    - fold missing. rewrite Henc. simpl. by rewrite Hfold. }
  split_and!.
  - done.
  - rewrite Hids. f_equal. unfold okeys. rewrite <- list_fmap_compose.
    symmetry. transitivity ((zip missing rep.(Store.encoded)).*1);
      [reflexivity|apply fst_zip; lia].
  - rewrite Htexts. f_equal. rewrite <- !list_fmap_compose.
    symmetry. transitivity ((zip missing rep.(Store.encoded)).*2);
      [reflexivity|apply snd_zip; lia].
  - intros h r ((h0 & t0) & [= -> ->] & _)%list_elem_of_fmap. done.
  - rewrite Hcount, length_fmap, length_zip_with. lia.
  - unfold Store.get_missing_string_hash_ids. rewrite Hns. fold nodes.
    case_decide as Hnil; [done|].
    rewrite filter_none; [done|].
    intros h Hkey Hnone.
    destruct Hinv as (_ & _ & _ & Hrow).
    destruct Hinv' as (_ & _ & _ & Hrow').
    assert (h ∈ s'.(hash_ids)) as Hin.
    { rewrite Hids, elem_of_app.
      destruct (s.(hash_id_to_row) !! h) as [r|] eqn:Hr.
      - left. apply Hrow. by eexists.
      - right. by apply list_elem_of_filter. }
    apply Hrow' in Hin as [r Hr]. by rewrite Hr in Hnone.
Qed.

Lemma missing_ids_are_what_insert_adds_witness :
  let s' := (Store.insert_strings (hasher := Sample.hasher)
               (model := Sample.model) ["beta"; "delta"] Sample.store3).1 in
  exists d,
    Store.get_missing_string_hash_ids (hasher := Sample.hasher)
      ["beta"; "delta"] Sample.store3 = Ok d /\
    s'.(hash_ids) = Sample.store3.(hash_ids) ++ okeys d /\
    s'.(texts) = Sample.store3.(texts) ++ (row_content <$> d.*2) /\
    (forall h r, (h, r) ∈ d -> r.(row_hash_id) = h) /\
    (Store.mkInsertReport 1 1 ["delta"]).(Store.inserted) = length d /\
    Store.get_missing_string_hash_ids (hasher := Sample.hasher)
      ["beta"; "delta"] s' = Ok [].
Proof.
  apply (missing_ids_are_what_insert_adds (hasher := Sample.hasher)
           (model := Sample.model) Sample.store3 _ ["beta"; "delta"]
           (Store.mkInsertReport 1 1 ["delta"])).
  - apply sample_store3_inv.
  - apply sample_model_encodes_each.
  - by vm_compute.
Defined.

(** ** Embedding store: an insertion undone by a deletion *)

Lemma aligned_fixes_prefix (s s' : EmbeddingStore) (i : nat) :
  aligned s s' -> NoDup s.(hash_ids) ->
  i < length s'.(hash_ids) -> s'.(hash_ids) !! i = s.(hash_ids) !! i ->
  s'.(texts) !! i = s.(texts) !! i /\
  s'.(embeddings) !! i = s.(embeddings) !! i.
Proof.
  intros Hal Hnd Hlt Heq.
  destruct (Hal i Hlt) as (j & Hhj & Htj & Hej).
  destruct (lookup_lt_is_Some_2 _ _ Hlt) as [h Hh].
  rewrite Hh in Hhj, Heq. symmetry in Hhj, Heq.
  assert (i = j) as <- by exact (NoDup_lookup _ _ _ _ Hnd Heq Hhj). done.
Qed.

(** X14: deleting the identifiers an [insert_strings] has just appended
    undoes it. On a store without repeated identifiers whose rows match its
    texts, the deletion returns and the three sequences and the two derived
    dictionaries are what they were before the insertion; the access logs
    are too, but for the logs kept under one of the appended identifiers,
    which are gone. *)
Theorem insert_then_delete_restores
    {hasher : MdHash} {model : EmbeddingModel}
    (s s1 : EmbeddingStore) (txts : list string) (rep : Store.InsertReport) :
  store_inv s -> rows_match s -> encodes_each model ->
  Store.insert_strings txts s = (s1, Ok rep) ->
  exists s2,
    Store.delete (drop (length s.(hash_ids)) s1.(hash_ids)) s1
    = (s2, Ok tt) /\
    s2.(namespace) = s.(namespace) /\
    s2.(hash_ids) = s.(hash_ids) /\
    s2.(texts) = s.(texts) /\
    s2.(embeddings) = s.(embeddings) /\
    s2.(hash_id_to_idx) = s.(hash_id_to_idx) /\
    s2.(hash_id_to_row) = s.(hash_id_to_row) /\
    (forall h, s2.(access_history) !! h
               = if decide (h ∈ drop (length s.(hash_ids)) s1.(hash_ids))
                 then None else s.(access_history) !! h).
Proof.
  intros Hinv Hrows Hmodel Hins.
  destruct (insert_spec s txts Hinv Hmodel)
    as (s'' & rep' & Hins' & Hinv1 & Hns & Hids & Htexts & Hembs & Hlog1
        & _ & _ & _).
  rewrite Hins in Hins'. injection Hins' as <- <-.
  set (missing := filter (fun h => s.(hash_id_to_row) !! h = None)
                    (okeys (Store.nodes_dict_of s.(namespace) txts))) in *.
  assert (drop (length s.(hash_ids)) s1.(hash_ids) = missing) as ->
    by (by rewrite Hids, drop_app_length).
  pose proof Hinv as ([Hts Hes] & Hnd & Hidx & Hrow).
  pose proof Hinv1 as (Hp1 & Hnd1 & Hidx1 & Hrow1).
  rewrite Hids in Hnd1. apply NoDup_app in Hnd1 as (_ & Hdisj & Hndm).
  destruct (delete_spec s1 missing Hinv1 Hndm)
    as (s2 & Hdel & Hinv2 & Hids2 & Hal & Hlog2).
  { intros h Hh. rewrite Hids, elem_of_app. by right. }
  assert (s2.(hash_ids) = s.(hash_ids)) as Hids2'.
  { rewrite Hids2, Hids, filter_app.
    rewrite (filter_all _ s.(hash_ids)) by (intros h Hh; by apply Hdisj).
    rewrite (filter_none _ missing) by (intros h Hh Hnin; by apply Hnin).
    by rewrite app_nil_r. }
  pose proof Hinv2 as ([Hts2 Hes2] & Hnd2 & Hidx2 & Hrow2).
  assert (forall i,
            s2.(texts) !! i = s.(texts) !! i /\
            s2.(embeddings) !! i = s.(embeddings) !! i) as Hsame.
  { intros i. destruct (decide (i < length s.(hash_ids))) as [Hlt|Hge].
    - destruct (aligned_fixes_prefix s1 s2 i Hal) as [-> ->].
      + destruct Hinv1 as (_ & ? & _). done.
      + by rewrite Hids2'.
      + by rewrite Hids2', Hids, lookup_app_l.
      + rewrite Htexts, Hembs, !lookup_app_l by lia. done.
    - rewrite !lookup_ge_None_2; [done| | | |]; rewrite <- ?Hids2' in *; lia. }
  assert (s2.(texts) = s.(texts)) as Htexts2
    by (apply list_eq; intros i; apply Hsame).
  exists s2. split_and!; try done.
  - unfold Store.delete, bind, get, lift in Hdel. revert Hdel.
    destruct (rmapM _ missing) as [indices|e]; [|done].
    destruct (for_each _ _ s1) as [s3 [[]|e]] eqn:Hloop; [|done].
    intros [_ ->]%save_data_inv. simpl. rewrite <- Hns.
    clear -Hloop. revert s1 Hloop.
    induction (rev (Np.sort indices)) as [|i l IH]; intros s1; simpl.
    + by intros [= <-].
    + unfold bind at 1. unfold Store.delete_at at 1.
      unfold bind, get, put, lift, index, pop. simpl.
      destruct (s1.(hash_ids) !! i); [|done]. simpl.
      repeat (case_decide; [|done]). simpl.
      intros Hloop. by rewrite (IH _ Hloop).
  - apply list_eq. intros i. apply Hsame.
  - apply map_eq. intros h. apply option_eq. intros i.
    by rewrite Hidx2, Hidx, Hids2'.
  - apply map_eq. intros h.
    destruct (decide (h ∈ s.(hash_ids))) as [Hin|Hnin].
    + apply list_elem_of_lookup_1 in Hin as [i Hi].
      destruct (lookup_lt_is_Some_2 s.(texts) i) as [t Ht].
      { rewrite <- Hts. by eapply lookup_lt_Some. }
      rewrite (Hrows h i t Hi Ht).
      apply (delete_rows _ _ _ Hdel Hnd2 h i t); by rewrite ?Hids2', ?Htexts2.
    + destruct (store_inv_unknown s h Hinv Hnin) as [_ ->].
      apply (store_inv_unknown s2 h Hinv2). by rewrite Hids2'.
  - intros h. rewrite Hlog2, Hlog1. done.
Qed.

Lemma insert_then_delete_restores_witness :
  let s1 := (Store.insert_strings (hasher := Sample.hasher)
               (model := Sample.model) ["beta"; "delta"] Sample.store3).1 in
  exists s2,
    Store.delete (drop (length Sample.store3.(hash_ids)) s1.(hash_ids)) s1
    = (s2, Ok tt) /\
    s2.(namespace) = Sample.store3.(namespace) /\
    s2.(hash_ids) = Sample.store3.(hash_ids) /\
    s2.(texts) = Sample.store3.(texts) /\
    s2.(embeddings) = Sample.store3.(embeddings) /\
    s2.(hash_id_to_idx) = Sample.store3.(hash_id_to_idx) /\
    s2.(hash_id_to_row) = Sample.store3.(hash_id_to_row) /\
    (forall h, s2.(access_history) !! h
               = if decide (h ∈ drop (length Sample.store3.(hash_ids))
                                  s1.(hash_ids))
                 then None else Sample.store3.(access_history) !! h).
Proof.
  apply (insert_then_delete_restores (hasher := Sample.hasher)
           (model := Sample.model) Sample.store3 _ ["beta"; "delta"]
           (Store.mkInsertReport 1 1 ["delta"])).
  - apply sample_store3_inv.
  - apply sample_store3_inv.
  - apply sample_model_encodes_each.
  - by vm_compute.
Defined.

(** ** Embedding store: [get_rows] and [get_relevant_context_queries] *)

Lemma rows_loop_spec (s : EmbeddingStore) (ids : list string) :
  forall acc : odict Row,
    NoDup (okeys acc) ->
    (forall h, h ∈ ids -> is_Some (s.(hash_id_to_row) !! h)) ->
    exists d,
      Store.rows_loop s ids acc = Ok d /\
      NoDup (okeys d) /\
      (forall h, h ∈ okeys d <-> h ∈ okeys acc \/ h ∈ ids) /\
      (forall h, oget d h
                 = if decide (h ∈ ids) then s.(hash_id_to_row) !! h
                   else oget acc h).
Proof.
  induction ids as [|id ids IH]; intros acc Hnd Hknown; simpl.
  - exists acc. split_and!; try done.
    intros h. rewrite elem_of_nil. tauto.
  - destruct (Hknown id) as [row Hrow]; [by left|].
    unfold getitem. rewrite Hrow. simpl.
    destruct (IH (oset id row acc)) as (d & Hloop & Hnd' & Hkeys & Hget).
    { by apply NoDup_okeys_oset. }
    { intros h Hh. apply Hknown. by right. }
    exists d. split_and!; try done.
    + intros h. rewrite Hkeys, okeys_oset, elem_of_cons.
      case_decide as Hin; rewrite ?elem_of_app, ?list_elem_of_singleton.
      * split; [tauto|]. intros [?|[->|?]]; tauto.
      * tauto.
    + intros h. rewrite Hget, oget_oset.
      destruct (decide (h ∈ ids)) as [Hin|Hnin].
      * rewrite decide_True; [done|by right].
      * destruct (decide (h = id)) as [->|Hne].
        -- rewrite decide_True; [done|by left].
        -- rewrite decide_False; [done|].
           rewrite elem_of_cons. tauto.
Qed.

Lemma rows_loop_missing (s : EmbeddingStore) (ids : list string)
    (h : string) :
  h ∈ ids -> s.(hash_id_to_row) !! h = None ->
  forall acc, Store.rows_loop s ids acc = Raise KeyError.
Proof.
  induction ids as [|id ids IH]; intros Hin Hnone acc; simpl.
  - by apply elem_of_nil in Hin.
  - unfold getitem. destruct (s.(hash_id_to_row) !! id) as [row|] eqn:Hrow;
      [|done]. simpl.
    apply elem_of_cons in Hin as [->|Hin]; [by simplify_eq|].
    by apply IH.
Qed.

(** X15: [get_rows] agrees with [get_row] on every requested identifier.
    When each of them has a row, it returns a dictionary whose keys are
    the requested identifiers, each once, and whose value at an identifier
    is what [get_row] returns; when one of them has no row it raises
    [KeyError], as [get_row] does for that identifier. *)
Theorem get_rows_agrees_with_get_row (s : EmbeddingStore)
    (ids : list string) :
  ((forall h, h ∈ ids -> is_Some (s.(hash_id_to_row) !! h)) ->
   exists d,
     Store.get_rows s ids = Ok d /\
     NoDup (okeys d) /\
     (forall h, h ∈ okeys d <-> h ∈ ids) /\
     (forall h, h ∈ ids -> ogetitem d h = Store.get_row s h)) /\
  (forall h, h ∈ ids -> Store.get_row s h = Raise KeyError ->
     Store.get_rows s ids = Raise KeyError).
Proof.
  unfold Store.get_rows, Store.get_row. split.
  - intros Hknown. case_decide as Hnil.
    + exists []. subst ids. split_and!; try done.
      * constructor.
      * intros h Hh. by apply elem_of_nil in Hh.
    + destruct (rows_loop_spec s ids [] (NoDup_nil_2) Hknown)
        as (d & Hloop & Hnd & Hkeys & Hget).
      exists d. split_and!; try done.
      * intros h. rewrite Hkeys. unfold okeys. simpl. rewrite elem_of_nil.
        tauto.
      * intros h Hh. unfold ogetitem, getitem.
        by rewrite Hget, decide_True.
  - intros h Hin Hrow. rewrite decide_False by (by intros ->; apply elem_of_nil in Hin).
    apply (rows_loop_missing s ids h Hin).
    unfold getitem in Hrow. by destruct (s.(hash_id_to_row) !! h).
Qed.

Lemma filter_length_le {A} (f g : A -> bool) (l : list A) :
  (forall x, f x = true -> g x = true) ->
  length (List.filter f l) <= length (List.filter g l).
Proof.
  intros Himp. induction l as [|x l IH]; simpl; [done|].
  destruct (f x) eqn:Hf.
  - rewrite (Himp x Hf). simpl. lia.
  - destruct (g x); simpl; lia.
Qed.

(** X16: [get_relevant_context_queries] returns, in the order of the log,
    the events of the record whose stored similarity reaches the threshold,
    an event without stored similarity counting as similarity [0]. The
    activation engine's [_count_relevant_contexts] skips such events: on the
    same log and threshold it never counts more events than
    [get_relevant_context_queries] returns, and exactly as many when the
    threshold is positive. *)
Theorem relevant_queries_and_counted_contexts (s : EmbeddingStore)
    (h : string) (threshold : R) :
  exists events,
    Store.get_access_history s h = Ok events /\
    sublist (Store.get_relevant_context_queries s h threshold) events /\
    (forall ev,
       ev ∈ Store.get_relevant_context_queries s h threshold <->
       ev ∈ events /\
       (threshold <= default 0 ev.(computed_similarity))%R) /\
    Manager._count_relevant_contexts events threshold
    <= length (Store.get_relevant_context_queries s h threshold) /\
    ((0 < threshold)%R ->
     Manager._count_relevant_contexts events threshold
     = length (Store.get_relevant_context_queries s h threshold)).
Proof.
  exists (default [] (s.(access_history) !! h)).
  unfold Store.get_access_history, Store.get_relevant_context_queries,
    Manager._count_relevant_contexts.
  generalize (default [] (s.(access_history) !! h)). intros events.
  split_and!.
  - done.
  - induction events as [|ev events IH]; simpl; [done|].
    destruct (Rleb _ _); by constructor.
  - intros ev. rewrite !list_elem_of_In, filter_In.
    by rewrite Rleb_spec.
  - apply filter_length_le. intros ev.
    by destruct ev.(computed_similarity).
  - intros Hpos. apply Nat.le_antisymm.
    + apply filter_length_le. intros ev.
      by destruct ev.(computed_similarity).
    + apply filter_length_le. intros ev.
      destruct ev.(computed_similarity); simpl; [done|].
      rewrite Rleb_spec. lra.
Qed.

(** ** Context window: which queries it holds *)

Lemma push_window_latest (size : Z) (ev : ContextEvent)
    (l : list ContextEvent) :
  length l <= Z.to_nat size ->
  Manager.push_window size ev l
  = drop (length (l ++ [ev]) - Z.to_nat size) (l ++ [ev]).
Proof.
  intros Hfit. unfold Manager.push_window. rewrite length_app. simpl.
  case_decide as Hfull.
  - replace (length l + 1 - Z.to_nat size) with 1 by lia.
    by destruct (l ++ [ev]).
  - by replace (length l + 1 - Z.to_nat size) with 0 by lia.
Qed.

Lemma push_window_short (size : Z) (ev : ContextEvent)
    (l : list ContextEvent) :
  length l <= Z.to_nat size ->
  length (Manager.push_window size ev l) <= Z.to_nat size.
Proof.
  intros Hfit. rewrite push_window_latest by done.
  rewrite length_drop, length_app. simpl. lia.
Qed.

Lemma foldl_push_window_latest (size : Z) (evs : list ContextEvent) :
  forall l : list ContextEvent,
    length l <= Z.to_nat size ->
    foldl (fun l ev => Manager.push_window size ev l) l evs
    = drop (length (l ++ evs) - Z.to_nat size) (l ++ evs).
Proof.
  induction evs as [|ev evs IH]; intros l Hfit; simpl.
  - rewrite app_nil_r. by replace (length l - Z.to_nat size) with 0 by lia.
  - rewrite IH by (by apply push_window_short).
    rewrite push_window_latest by done.
    rewrite <- drop_app_le by (rewrite length_app; simpl; lia).
    rewrite drop_drop, <- app_assoc. simpl. f_equal.
    rewrite length_drop, !length_app. simpl. lia.
Qed.

Lemma add_query_contexts_run (self : Manager)
    (calls : list (R * string * array_like)) :
  forall h : Heap,
    self.(query_history) < length h ->
    for_each calls
      (fun c => Manager.add_query_context c.1.1 c.1.2 c.2 self) h
    = (<[self.(query_history) :=
           foldl (fun l ev =>
                    Manager.push_window self.(context_window_size) ev l)
             (Manager.deref h self.(query_history))
             ((fun c => mkContextEvent c.1.1 c.1.2 (tolist c.2)) <$> calls)]>
         h,
       Ok tt).
Proof.
  induction calls as [|c calls IH]; intros h Hr; simpl.
  - unfold ret. f_equal. symmetry. apply list_insert_id.
    unfold Manager.deref. by destruct (lookup_lt_is_Some_2 h _ Hr) as [l ->].
  - unfold bind at 1. unfold Manager.add_query_context at 1.
    unfold bind, get, put. rewrite IH by (by rewrite length_insert).
    unfold Manager.deref at 1. rewrite list_lookup_insert_eq by done. simpl.
    by rewrite list_insert_insert_eq.
Qed.

(** X17: the context window is first in, first out. After any number of
    calls of [add_query_context] on a manager whose window did not exceed
    its size, the window holds the last [context_window_size] entries of
    what it held followed by the queries added, in the order they were
    added (all of them while there are no more than that); no other list
    of the interpreter is touched. *)
Theorem window_holds_latest_queries (self : Manager) (h : Heap)
    (calls : list (R * string * array_like)) :
  self.(query_history) < length h ->
  length (Manager.deref h self.(query_history))
  <= Z.to_nat self.(context_window_size) ->
  exists h',
    for_each calls
      (fun c => Manager.add_query_context c.1.1 c.1.2 c.2 self) h
    = (h', Ok tt) /\
    Manager.deref h' self.(query_history)
    = drop (length (Manager.deref h self.(query_history)) + length calls
            - Z.to_nat self.(context_window_size))
        (Manager.deref h self.(query_history)
         ++ ((fun c => mkContextEvent c.1.1 c.1.2 (tolist c.2)) <$> calls)) /\
    length h' = length h /\
    (forall r, r <> self.(query_history) -> h' !! r = h !! r).
Proof.
  intros Hr Hfit. eexists. split; [by apply add_query_contexts_run|].
  split_and!.
  - unfold Manager.deref at 1. rewrite list_lookup_insert_eq by done. simpl.
    rewrite foldl_push_window_latest by done.
    by rewrite length_app, length_fmap.
  - by rewrite length_insert.
  - intros r Hne. by rewrite list_lookup_insert_ne.
Qed.

Lemma window_holds_latest_queries_witness :
  let self := mkManager 2 (3 / 10) (2 / 10) (5 / 10) (3 / 10) (1 / 100) 0 in
  let calls := [(1%R, "first", NdArray [1; 0]%R);
                (2%R, "second", FloatList [0; 1]%R);
                (3%R, "third", NdArray [1; 1]%R)] in
  exists h',
    for_each calls
      (fun c => Manager.add_query_context c.1.1 c.1.2 c.2 self) [[]]
    = (h', Ok tt) /\
    Manager.deref h' self.(query_history)
    = drop (length (Manager.deref [[]] self.(query_history)) + length calls
            - Z.to_nat self.(context_window_size))
        (Manager.deref [[]] self.(query_history)
         ++ ((fun c => mkContextEvent c.1.1 c.1.2 (tolist c.2)) <$> calls)) /\
    length h' = length [[] : list ContextEvent] /\
    (forall r, r <> self.(query_history) ->
       h' !! r = [[] : list ContextEvent] !! r).
Proof.
  apply (window_holds_latest_queries
           (mkManager 2 (3 / 10) (2 / 10) (5 / 10) (3 / 10) (1 / 100) 0)
           [[]]).
  - simpl. lia.
  - simpl. lia.
Defined.

(** ** Context window: the similarity matrix *)

Lemma rmapM_Ok_lookup {A B} (f : A -> result B) (l : list A) (bs : list B) :
  rmapM f l = Ok bs ->
  length bs = length l /\
  (forall i a, l !! i = Some a -> exists b, bs !! i = Some b /\ f a = Ok b).
Proof.
  revert bs. induction l as [|a l IH]; intros bs; simpl.
  - intros [= <-]. split; [done|]. intros i a. by rewrite lookup_nil.
  - intros Hmap. apply rbind_Ok in Hmap as (b & Hb & Hmap).
    apply rbind_Ok in Hmap as (bs' & Hbs' & [= <-]).
    destruct (IH bs' Hbs') as [Hlen Hall]. split; [simpl; lia|].
    intros [|i] a'; simpl; [|by apply Hall].
    intros [= <-]. by exists b.
Qed.

Lemma rmapM_total {A B} (f : A -> result B) (l : list A) :
  (forall a, a ∈ l -> exists b, f a = Ok b) ->
  exists bs, rmapM f l = Ok bs.
Proof.
  induction l as [|a l IH]; intros Hall; simpl; [by eexists|].
  destruct (Hall a) as [b ->]; [by left|]. simpl.
  destruct IH as [bs ->]; [intros a' Ha'; apply Hall; by right|].
  by eexists.
Qed.

Lemma dot_sum_comm (u v : list R) : Np.dot_sum u v = Np.dot_sum v u.
Proof.
  revert v. induction u as [|x u IH]; intros [|y v]; simpl; try done.
  rewrite IH. lra.
Qed.

Lemma cosine_similarity_sym (u v : list R) :
  Manager._cosine_similarity u v = Manager._cosine_similarity v u.
Proof.
  unfold Manager._cosine_similarity, Np.dot.
  rewrite (orb_comm (Reqb (Np.norm u) 0)).
  destruct (Reqb (Np.norm v) 0 || Reqb (Np.norm u) 0); [done|].
  rewrite (dot_sum_comm u v), (Rmult_comm (Np.norm u)).
  repeat case_decide; done || congruence.
Qed.

Lemma cosine_similarity_total (u v : list R) :
  length u = length v -> exists c, Manager._cosine_similarity u v = Ok c.
Proof.
  intros Hlen. unfold Manager._cosine_similarity, Np.dot.
  destruct (_ || _); [by eexists|].
  rewrite decide_True by done. by eexists.
Qed.

Lemma cosine_similarity_raises (u v : list R) (e : exn) :
  Manager._cosine_similarity u v = Raise e <->
  e = ValueError /\ Np.norm u <> 0%R /\ Np.norm v <> 0%R /\
  length u <> length v.
Proof.
  unfold Manager._cosine_similarity, Np.dot, Reqb.
  destruct (Req_dec_T (Np.norm u) 0) as [Hu|Hu]; simpl;
    [split; [done|tauto]|].
  destruct (Req_dec_T (Np.norm v) 0) as [Hv|Hv]; simpl;
    [split; [done|tauto]|].
  case_decide as Hlen; simpl.
  - split; [done|tauto].
  - split; [by intros [= <-]|by intros [-> _]].
Qed.

Lemma cosine_similarity_zero_norm (u v : list R) :
  Np.norm u = 0%R \/ Np.norm v = 0%R ->
  Manager._cosine_similarity u v = Ok 0%R.
Proof.
  intros Hzero. unfold Manager._cosine_similarity.
  destruct Hzero as [Hu|Hv].
  - by rewrite (Reqb_true _ _ Hu).
  - rewrite (Reqb_true _ _ Hv). by rewrite orb_true_r.
Qed.

Lemma cosine_similarity_value (u v : list R) (x : R) :
  Np.norm u <> 0%R -> Np.norm v <> 0%R ->
  Manager._cosine_similarity u v = Ok x ->
  length u = length v /\
  x = (Np.dot_sum u v / (Np.norm u * Np.norm v))%R.
Proof.
  intros Hu Hv. unfold Manager._cosine_similarity, Np.dot.
  rewrite (Reqb_false _ _ Hu), (Reqb_false _ _ Hv). simpl.
  case_decide; [|done]. simpl. by intros [= <-].
Qed.

Lemma rmapM_raises {A B} (f : A -> result B) (l : list A) (e : exn) :
  (exists a, a ∈ l /\ f a = Raise e) ->
  (forall a e', a ∈ l -> f a = Raise e' -> e' = e) ->
  rmapM f l = Raise e.
Proof.
  induction l as [|a l IH]; intros (a0 & Hin & Hraise) Hall.
  - by apply elem_of_nil in Hin.
  - simpl. destruct (f a) as [b|e'] eqn:Hfa; simpl.
    + rewrite IH; [done| |].
      * apply elem_of_cons in Hin as [->|Hin]; [congruence|by exists a0].
      * intros a' e' Ha'. apply Hall. by right.
    + f_equal. apply (Hall a); [by left|done].
Qed.

(** X18: with fewer than two queries in the window
    [get_context_similarity_matrix] returns the empty array. With at least
    two, all of whose embeddings have the same length, it returns a square
    matrix with one row per query; the entry of row [i] and column [j] is
    what [_cosine_similarity] returns for the embeddings of the queries [i]
    and [j]: the quotient of their dot product by the product of their
    norms, or [0] when one of the norms is zero; it equals the entry of row
    [j] and column [i]. With two embeddings of different lengths, neither of
    norm zero, in a window of at least two queries it raises
    [ValueError]. *)
Theorem context_similarity_matrix_spec (self : Manager) (h : Heap) :
  (length (Manager.deref h self.(query_history)) < 2 ->
   Manager.get_context_similarity_matrix self h = Ok []) /\
  (forall d,
     2 <= length (Manager.deref h self.(query_history)) ->
     (forall ev, ev ∈ Manager.deref h self.(query_history) ->
        length ev.(ctx_embedding) = d) ->
     exists m,
       Manager.get_context_similarity_matrix self h = Ok m /\
       length m = length (Manager.deref h self.(query_history)) /\
       (forall row, row ∈ m ->
          length row = length (Manager.deref h self.(query_history))) /\
       (forall i j ei ej,
          Manager.deref h self.(query_history) !! i = Some ei ->
          Manager.deref h self.(query_history) !! j = Some ej ->
          exists row_i row_j x,
            m !! i = Some row_i /\ row_i !! j = Some x /\
            m !! j = Some row_j /\ row_j !! i = Some x /\
            Manager._cosine_similarity ei.(ctx_embedding) ej.(ctx_embedding)
            = Ok x /\
            (Np.norm ei.(ctx_embedding) = 0%R
             \/ Np.norm ej.(ctx_embedding) = 0%R -> x = 0%R) /\
            (Np.norm ei.(ctx_embedding) <> 0%R ->
             Np.norm ej.(ctx_embedding) <> 0%R ->
             x = (Np.dot_sum ei.(ctx_embedding) ej.(ctx_embedding)
                  / (Np.norm ei.(ctx_embedding)
                     * Np.norm ej.(ctx_embedding)))%R))) /\
  (forall ei ej,
     2 <= length (Manager.deref h self.(query_history)) ->
     ei ∈ Manager.deref h self.(query_history) ->
     ej ∈ Manager.deref h self.(query_history) ->
     Np.norm ei.(ctx_embedding) <> 0%R ->
     Np.norm ej.(ctx_embedding) <> 0%R ->
     length ei.(ctx_embedding) <> length ej.(ctx_embedding) ->
     Manager.get_context_similarity_matrix self h = Raise ValueError).
Proof.
  unfold Manager.get_context_similarity_matrix.
  generalize (Manager.deref h self.(query_history)). intros window.
  split; [intros Hlt; by rewrite decide_True|]. split.
  - intros d Hlen Hdim. rewrite decide_False by lia.
    set (embs := ctx_embedding <$> window).
    assert (forall u, u ∈ embs -> length u = d) as Hdim'.
    { intros u (ev & -> & Hev)%list_elem_of_fmap. by apply Hdim. }
    destruct (rmapM_total
                (fun ei => rmapM (fun ej => Manager._cosine_similarity ei ej)
                             embs) embs) as [m Hm].
    { intros u Hu. apply rmapM_total. intros v Hv.
      apply cosine_similarity_total. by rewrite (Hdim' u), (Hdim' v). }
    exists m. split; [done|].
    destruct (rmapM_Ok_lookup _ _ _ Hm) as [Hlen_m Hrows].
    assert (length embs = length window) as Hembs
      by (unfold embs; by rewrite length_fmap).
    assert (forall i j ei ej,
              window !! i = Some ei -> window !! j = Some ej ->
              exists row x,
                m !! i = Some row /\ row !! j = Some x /\
                Manager._cosine_similarity ei.(ctx_embedding)
                  ej.(ctx_embedding) = Ok x) as Hentry.
    { intros i j ei ej Hi Hj.
      destruct (Hrows i ei.(ctx_embedding)) as (row & Hrow & Hrow_eq).
      { unfold embs. by rewrite list_lookup_fmap, Hi. }
      destruct (rmapM_Ok_lookup _ _ _ Hrow_eq) as [_ Hcols].
      destruct (Hcols j ej.(ctx_embedding)) as (x & Hx & Hx_eq).
      { unfold embs. by rewrite list_lookup_fmap, Hj. }
      by exists row, x. }
    split_and!.
    + lia.
    + intros row Hrow. apply list_elem_of_lookup_1 in Hrow as [i Hi].
      destruct (lookup_lt_is_Some_2 embs i) as [u Hu].
      { rewrite <- Hlen_m. by eapply lookup_lt_Some. }
      destruct (Hrows i u Hu) as (row' & Hrow' & Hrow_eq).
      rewrite Hi in Hrow'. injection Hrow' as <-.
      destruct (rmapM_Ok_lookup _ _ _ Hrow_eq) as [-> _]. done.
    + intros i j ei ej Hi Hj.
      destruct (Hentry i j ei ej Hi Hj) as (row_i & x & Hri & Hx & Hcos).
      destruct (Hentry j i ej ei Hj Hi) as (row_j & y & Hrj & Hy & Hcos').
      rewrite cosine_similarity_sym, Hcos in Hcos'. injection Hcos' as <-.
      exists row_i, row_j, x. split_and!; try done.
      * intros Hzero. rewrite cosine_similarity_zero_norm in Hcos by done.
        by injection Hcos as <-.
      * intros Hi0 Hj0.
        by destruct (cosine_similarity_value _ _ _ Hi0 Hj0 Hcos).
  - intros ei ej Hlen Hi Hj Hni Hnj Hne. rewrite decide_False by lia.
    assert (forall u v e, Manager._cosine_similarity u v = Raise e ->
              e = ValueError) as Hexn.
    { intros u v e Hraise. by apply cosine_similarity_raises in Hraise as [-> _]. }
    apply rmapM_raises.
    + exists ei.(ctx_embedding). split; [by apply list_elem_of_fmap_2|].
      apply rmapM_raises.
      * exists ej.(ctx_embedding). split; [by apply list_elem_of_fmap_2|].
        by apply cosine_similarity_raises.
      * intros v e _. apply Hexn.
    + intros u e _ Hraise.
      destruct (rmapM (fun ej0 => Manager._cosine_similarity u ej0)
                  (ctx_embedding <$> window)) as [row|e0] eqn:Hrow; [done|].
      injection Hraise as <-.
      clear -Hrow Hexn. revert Hrow.
      induction (ctx_embedding <$> window) as [|v l IH]; simpl; [done|].
      destruct (Manager._cosine_similarity u v) as [x|e1] eqn:Hx; simpl.
      * destruct (rmapM _ l) as [bs|e2]; simpl; [done|].
        intros [= <-]. by apply IH.
      * intros [= <-]. by eapply Hexn.
Qed.

(** ** Activation scores: when they can be computed, and how they age *)

Lemma score_raise_inv
    (self : Manager) (now : R) (id : string) (history : list AccessEvent)
    (q m : array_like) (current_time : option R) (e : exn) :
  Manager.calculate_activation_score self now id history q m current_time
  = Raise e ->
  e = ValueError /\
  exists qv mv,
    q = NdArray qv /\ m = NdArray mv /\
    Np.norm qv <> 0%R /\ Np.norm mv <> 0%R /\ length qv <> length mv.
Proof.
  unfold Manager.calculate_activation_score.
  destruct q as [qv|qv], m as [mv|mv]; simpl;
    try (destruct (decide (history = [])) as [Hnil|Hnil]; simpl;
         [|destruct (last_item_nonempty history Hnil) as [ev ->]; simpl];
         done).
  destruct (Manager._cosine_similarity qv mv) as [c|e0] eqn:Hcos; simpl.
  - destruct (decide (history = [])) as [Hnil|Hnil]; simpl;
      [|destruct (last_item_nonempty history Hnil) as [ev ->]; simpl];
      done.
  - apply cosine_similarity_raises in Hcos as (-> & Hq & Hm & Hlen).
    intros [= <-]. split; [done|]. by exists qv, mv.
Qed.

(** X19: a mismatch of dimensions surfaces as [ValueError], and only
    between two arrays that both have a norm. When the query embedding and
    the memory embedding are arrays of different lengths, neither of norm
    zero, [calculate_activation_score] raises [ValueError], whatever the
    access history and the time. For a record that was never accessed it
    returns in every other case, also for an array of norm zero and of
    another length, which scores a semantic relevance of zero: the score
    carries the identifier, its recency bonus and context frequency are
    zero, its total activation is the weighted semantic relevance, and the
    record is retained. *)
Theorem activation_score_raises_on_dimension_mismatch
    (self : Manager) (now : R) (id : string) (history : list AccessEvent)
    (q m : array_like) (current_time : option R) :
  (forall qv mv,
     q = NdArray qv -> m = NdArray mv ->
     Np.norm qv <> 0%R -> Np.norm mv <> 0%R -> length qv <> length mv ->
     Manager.calculate_activation_score self now id history q m current_time
     = Raise ValueError) /\
  ((forall qv mv,
      q = NdArray qv -> m = NdArray mv ->
      Np.norm qv = 0%R \/ Np.norm mv = 0%R \/ length qv = length mv) ->
   exists sc,
     Manager.calculate_activation_score self now id [] q m current_time
     = Ok sc /\
     sc.(hash_id) = id /\
     (forall qv mv,
        q = NdArray qv -> m = NdArray mv ->
        Np.norm qv = 0%R \/ Np.norm mv = 0%R ->
        sc.(semantic_relevance) = 0%R) /\
     sc.(recency_bonus) = 0%R /\
     sc.(context_frequency) = 0%R /\
     sc.(total_activation)
     = (self.(relevance_weight) * sc.(semantic_relevance)
        + self.(recency_weight) * 0 + self.(frequency_weight) * 0)%R /\
     sc.(should_retain) = true).
Proof.
  unfold Manager.calculate_activation_score. split.
  - intros qv mv -> -> Hq Hm Hlen.
    assert (Manager._cosine_similarity qv mv = Raise ValueError) as ->
      by (by apply cosine_similarity_raises).
    done.
  - intros Hdim. destruct q as [qv|qv], m as [mv|mv]; simpl;
      try (eexists; split; [reflexivity|]; simpl;
           rewrite orb_true_r; split_and!; try done;
           intros qv' mv' Hq Hm; discriminate).
    destruct (Manager._cosine_similarity qv mv) as [c|e] eqn:Hcos.
    + simpl. eexists. split; [reflexivity|]. simpl. rewrite orb_true_r.
      split_and!; try done.
      intros qv' mv' [= <-] [= <-] Hzero.
      rewrite cosine_similarity_zero_norm in Hcos by done.
      injection Hcos as <-. unfold Rmax. destruct (Rle_dec 0 0); lra.
    + exfalso.
      apply cosine_similarity_raises in Hcos as (_ & Hq & Hm & Hlen).
      destruct (Hdim qv mv eq_refl eq_refl) as [?|[?|?]]; done.
Qed.

(** X20: a score ages only through its recency bonus. For a manager
    whose decay rate and recency weight are not negative, asking for the
    score of the same record at a later time returns, whenever the earlier
    call returned: the same semantic relevance and context frequency, a
    recency bonus and a total activation that are not larger, and a record
    retained at the later time was retained at the earlier one. *)
Theorem activation_decays_with_time
    (self : Manager) (now1 now2 : R) (id : string)
    (history : list AccessEvent) (q m : array_like)
    (time1 time2 : option R) (sc1 : Scores) :
  (0 <= self.(decay_rate))%R -> (0 <= self.(recency_weight))%R ->
  (default now1 time1 <= default now2 time2)%R ->
  Manager.calculate_activation_score self now1 id history q m time1
  = Ok sc1 ->
  exists sc2,
    Manager.calculate_activation_score self now2 id history q m time2
    = Ok sc2 /\
    sc2.(semantic_relevance) = sc1.(semantic_relevance) /\
    sc2.(context_frequency) = sc1.(context_frequency) /\
    (sc2.(recency_bonus) <= sc1.(recency_bonus))%R /\
    (sc2.(total_activation) <= sc1.(total_activation))%R /\
    (sc2.(should_retain) = true -> sc1.(should_retain) = true).
Proof.
  intros Hdecay Hweight Htime. unfold Manager.calculate_activation_score.
  generalize (default now1 time1) (default now2 time2) Htime.
  clear Htime. intros t1 t2 Htime Hsc1.
  apply rbind_Ok in Hsc1 as (sem & -> & Hsc1). simpl.
  apply rbind_Ok in Hsc1 as (rec1 & Hrec1 & [= <-]).
  assert (exists rec2,
            (if decide (history = []) then Ok 0%R
             else
               let* last_event := last_item history in
               Ok (exp (- self.(decay_rate)
                        * ((t2 - last_event.(timestamp)) / (24 * 3600)))))
            = Ok rec2 /\ (rec2 <= rec1)%R) as (rec2 & -> & Hrec).
  { revert Hrec1. case_decide as Hnil.
    - intros [= <-]. exists 0%R. split; [done|lra].
    - destruct (last_item_nonempty history Hnil) as [ev ->]. simpl.
      intros [= <-]. eexists. split; [reflexivity|].
      assert (- self.(decay_rate) * ((t2 - ev.(timestamp)) / (24 * 3600))
              <= - self.(decay_rate) * ((t1 - ev.(timestamp)) / (24 * 3600)))%R
        as Hle by nra.
      destruct Hle as [Hlt|Heq].
      + left. by apply exp_increasing.
      + right. by rewrite Heq. }
  simpl. eexists. split; [reflexivity|]. simpl.
  assert (self.(recency_weight) * rec2 <= self.(recency_weight) * rec1)%R
    as Hmul by (by apply Rmult_le_compat_l).
  split_and!; try done; try lra.
  rewrite !orb_true_iff. intros [Hret|Hnew]; [left|by right].
  apply Rleb_spec in Hret. apply Rleb_spec. lra.
Qed.

Lemma activation_decays_with_time_witness :
  exists sc2,
    Manager.calculate_activation_score Sample.manager (2 * Sample.late)
      "mem-alpha" [Sample.access] Sample.query (NdArray [1; 0]%R) None
    = Ok sc2 /\
    sc2.(semantic_relevance)
    = (Sample.stale_score "mem-alpha").(semantic_relevance) /\
    sc2.(context_frequency)
    = (Sample.stale_score "mem-alpha").(context_frequency) /\
    (sc2.(recency_bonus)
     <= (Sample.stale_score "mem-alpha").(recency_bonus))%R /\
    (sc2.(total_activation)
     <= (Sample.stale_score "mem-alpha").(total_activation))%R /\
    (sc2.(should_retain) = true ->
     (Sample.stale_score "mem-alpha").(should_retain) = true).
Proof.
  apply (activation_decays_with_time Sample.manager Sample.late
           (2 * Sample.late) "mem-alpha" [Sample.access] Sample.query
           (NdArray [1; 0]%R) None None).
  - simpl. lra.
  - simpl. lra.
  - simpl. unfold Sample.late. lra.
  - apply sample_stale_score.
Defined.

(** ** Forgetting: from the forget list to the deletion *)

Lemma activation_score_total (self : Manager) (now : R) (id : string)
    (history : list AccessEvent) (q : array_like) (mv : list R) :
  (forall qv, q = NdArray qv -> length mv = length qv) ->
  exists sc,
    Manager.calculate_activation_score self now id history q (NdArray mv)
      None = Ok sc.
Proof.
  intros Hdim.
  destruct (Manager.calculate_activation_score self now id history q
              (NdArray mv) None) as [sc|e] eqn:Hsc; [by exists sc|].
  exfalso.
  apply (score_raise_inv self now id
           history q (NdArray mv) None) in Hsc
    as (_ & qv & mv' & -> & [= <-] & _ & _ & Hlen).
  apply Hlen. symmetry. by apply Hdim.
Qed.

Lemma batch_loop_total (self : Manager) (clock : nat -> R)
    (store : EmbeddingStore) (q : array_like) (ids : list string) :
  store_inv store ->
  (forall qv mv, q = NdArray qv -> mv ∈ store.(embeddings) ->
     length mv = length qv) ->
  (forall h, h ∈ ids -> h ∈ store.(hash_ids)) ->
  forall k acc, exists res,
    Manager.batch_loop self clock store q k ids acc = Ok res.
Proof.
  intros Hinv Hdim. induction ids as [|id ids IH]; intros Hknown k acc; simpl.
  - by eexists.
  - destruct (store_inv_known store id Hinv) as (i & Hi & _ & _ & Hlt);
      [apply Hknown; by left|].
    destruct (lookup_lt_is_Some_2 _ _ Hlt) as [mv Hmv].
    unfold Store.get_embedding, getitem, index. rewrite Hi. simpl.
    rewrite Hmv. simpl. unfold Np.astype.
    destruct (activation_score_total self (clock k) id
                (default [] (store.(access_history) !! id)) q mv)
      as [sc ->].
    { intros qv ->. eapply Hdim; [done|]. by eapply list_elem_of_lookup_2. }
    simpl. apply IH. intros h Hh. apply Hknown. by right.
Qed.

(** X21: the forget list can be handed to [delete]. On a store without
    repeated identifiers whose embeddings have the length of the query
    array, [get_memories_to_forget] returns; the identifiers it returns are
    distinct identifiers of the store, so that [delete] returns on them and
    leaves a store without repeated identifiers that holds exactly the
    other records; and it never empties a store that holds a record. *)
Theorem forget_list_can_be_deleted (self : Manager) (clock : nat -> R)
    (store : EmbeddingStore) (q : array_like) (r : R) :
  store_inv store ->
  (forall qv mv, q = NdArray qv -> mv ∈ store.(embeddings) ->
     length mv = length qv) ->
  exists forget store',
    Manager.get_memories_to_forget self clock store q r = Ok forget /\
    NoDup forget /\
    (forall h, h ∈ forget -> h ∈ store.(hash_ids)) /\
    Store.delete forget store = (store', Ok tt) /\
    store_inv store' /\
    store'.(hash_ids) = filter (fun h => h ∉ forget) store.(hash_ids) /\
    (store.(hash_ids) <> [] -> store'.(hash_ids) <> []).
Proof.
  intros Hinv Hdim.
  destruct (batch_loop_total self clock store q store.(hash_ids) Hinv Hdim
              (fun h Hh => Hh) 0 []) as [scores Hscores].
  fold (Store.get_all_ids store) in Hscores.
  fold (Manager.calculate_batch_activation self clock store q) in Hscores.
  destruct (batch_activation_spec _ _ _ _ _ Hscores) as (Hnd & Hkeys & _).
  set (ranked := Manager.sorted_by_activation scores).
  set (count := Z.to_nat (Manager.retain_count_of (length ranked) r)).
  set (forget := (filter (fun item : string * Scores =>
                            item.2.(should_retain) = false)
                    (drop count ranked)).*1).
  assert (Manager.get_memories_to_forget self clock store q r = Ok forget)
    as Hforget.
  { unfold Manager.get_memories_to_forget. by rewrite Hscores. }
  assert (ranked ≡ₚ scores) as Hperm by apply sorted_by_activation_perm.
  assert (NoDup ranked.*1) as Hranked by (by rewrite Hperm).
  assert (forget `sublist_of` (drop count ranked).*1) as Hsub.
  { unfold forget. apply fmap_sublist, sublist_filter. }
  assert (NoDup forget) as Hnd_forget.
  { eapply sublist_NoDup; [|exact Hsub].
    eapply sublist_NoDup; [exact Hranked|].
    apply fmap_sublist, sublist_drop. }
  assert (forall h, h ∈ forget -> h ∈ store.(hash_ids)) as Hknown.
  { intros h Hh. apply Hkeys. unfold okeys. rewrite <- Hperm.
    eapply elem_of_sublist; [|apply fmap_sublist, (sublist_drop _ count)].
    by eapply elem_of_sublist. }
  destruct (delete_spec store forget Hinv Hnd_forget Hknown)
    as (store' & Hdel & Hinv' & Hids & _).
  exists forget, store'. split_and!; try done.
  intros Hne. rewrite Hids.
  assert (1 <= count) as Hcount
    by (unfold count, Manager.retain_count_of; lia).
  destruct ranked as [|top rest] eqn:Hrk.
  { exfalso. apply Permutation_nil_l in Hperm.
    destruct store.(hash_ids) as [|h0 hs] eqn:Hhs; [done|].
    assert (h0 ∈ okeys scores) as Hin by (apply Hkeys; by left).
    rewrite <- Hperm in Hin. by apply elem_of_nil in Hin. }
  assert (top.1 ∈ filter (fun h => h ∉ forget) store.(hash_ids)) as Hin.
  { apply list_elem_of_filter. split.
    - intros Hin. apply (elem_of_sublist _ _ _ Hin) in Hsub.
      destruct count as [|count']; [lia|]. simpl in Hsub, Hranked.
      apply NoDup_cons in Hranked as [Hfresh _]. apply Hfresh.
      eapply elem_of_sublist; [exact Hsub|].
      apply fmap_sublist, sublist_drop.
    - apply Hkeys. unfold okeys. rewrite <- Hperm. by left. }
  intros Hnil. rewrite Hnil in Hin. by apply elem_of_nil in Hin.
Qed.

Lemma forget_list_can_be_deleted_witness :
  exists forget store',
    Manager.get_memories_to_forget Sample.manager (fun _ => Sample.late)
      Sample.accessed3 Sample.query (1 / 2) = Ok forget /\
    NoDup forget /\
    (forall h, h ∈ forget -> h ∈ Sample.accessed3.(hash_ids)) /\
    Store.delete forget Sample.accessed3 = (store', Ok tt) /\
    store_inv store' /\
    store'.(hash_ids)
    = filter (fun h => h ∉ forget) Sample.accessed3.(hash_ids) /\
    (Sample.accessed3.(hash_ids) <> [] -> store'.(hash_ids) <> []).
Proof.
  apply (forget_list_can_be_deleted Sample.manager (fun _ => Sample.late)
           Sample.accessed3 Sample.query (1 / 2)).
  - apply sample_accessed3_inv.
  - intros qv mv [= <-] Hmv.
    assert (Sample.accessed3.(embeddings) = [[1; 0]; [1; 0]; [1; 0]]%R)
      as Hembs by (by vm_compute).
    rewrite Hembs in Hmv.
    repeat (apply elem_of_cons in Hmv as [->|Hmv]; [done|]).
    by apply elem_of_nil in Hmv.
Defined.

(** ** Exported state: copied on export, shared on load *)

(** X22: [export_state] copies the window and [load_state] does not. The
    list of an exported dictionary is a new one: a query the manager
    receives afterwards does not show in it. [load_state] makes that very
    list the window of the manager it restores, without touching the
    heap: a query the restored manager receives changes what the
    dictionary holds, and the window of any other manager loaded from the
    same dictionary. *)
Theorem export_copies_load_shares (self fresh other : Manager) (h : Heap)
    (now : R) (q : string) (e : array_like) :
  self.(query_history) < length h ->
  exists h1 st r restored restored',
    Manager.export_state self h = (h1, Ok st) /\
    st.(st_query_history) = Some r /\
    Manager.deref h1 r = Manager.deref h self.(query_history) /\
    Manager.deref (Manager.add_query_context now q e self h1).1 r
    = Manager.deref h self.(query_history) /\
    Manager.load_state st fresh h1 = (h1, Ok restored) /\
    Manager.load_state st other h1 = (h1, Ok restored') /\
    restored.(query_history) = r /\
    restored'.(query_history) = r /\
    Manager.deref (Manager.add_query_context now q e restored h1).1 r
    = Manager.push_window self.(context_window_size)
        (mkContextEvent now q (tolist e))
        (Manager.deref h self.(query_history)) /\
    Manager.deref (Manager.add_query_context now q e restored h1).1
      restored'.(query_history)
    = Manager.push_window self.(context_window_size)
        (mkContextEvent now q (tolist e))
        (Manager.deref h self.(query_history)).
Proof.
  intros Hr.
  unfold Manager.export_state, Manager.load_state, Manager.alloc,
    Manager.add_query_context, bind, get, put, ret. simpl.
  eexists _, _, _, _, _. split; [reflexivity|]. simpl.
  split; [reflexivity|].
  rewrite deref_alloc. split; [done|].
  split.
  { unfold Manager.deref at 1.
    rewrite list_lookup_insert_ne by lia.
    by rewrite lookup_app_r, Nat.sub_diag by lia. }
  split; [reflexivity|]. split; [reflexivity|]. simpl.
  split; [done|]. split; [done|].
  split;
    (unfold Manager.deref at 1;
     rewrite list_lookup_insert_eq by (rewrite length_app; simpl; lia);
     simpl; by rewrite ?deref_alloc).
Qed.

Lemma export_copies_load_shares_witness :
  let self := Sample.manager in
  let h : Heap := [[Sample.ctx "first"]] in
  exists h1 st r restored restored',
    Manager.export_state self h = (h1, Ok st) /\
    st.(st_query_history) = Some r /\
    Manager.deref h1 r = Manager.deref h self.(query_history) /\
    Manager.deref
      (Manager.add_query_context 1 "second" Sample.query self h1).1 r
    = Manager.deref h self.(query_history) /\
    Manager.load_state st self h1 = (h1, Ok restored) /\
    Manager.load_state st self h1 = (h1, Ok restored') /\
    restored.(query_history) = r /\
    restored'.(query_history) = r /\
    Manager.deref
      (Manager.add_query_context 1 "second" Sample.query restored h1).1 r
    = Manager.push_window self.(context_window_size)
        (mkContextEvent 1 "second" (tolist Sample.query))
        (Manager.deref h self.(query_history)) /\
    Manager.deref
      (Manager.add_query_context 1 "second" Sample.query restored h1).1
      restored'.(query_history)
    = Manager.push_window self.(context_window_size)
        (mkContextEvent 1 "second" (tolist Sample.query))
        (Manager.deref h self.(query_history)).
Proof.
  apply (export_copies_load_shares Sample.manager Sample.manager
           Sample.manager [[Sample.ctx "first"]] 1 "second" Sample.query).
  simpl. lia.
Defined.
